(** * The practice-session word scheduler of [public/js/practice.js]

    A shallow embedding of the JavaScript class [PracticeSession] and the
    properties its specification states about it.

    Modelling choices, all visible in the definitions below:
    - a JavaScript value that can sit in [currentWord] or in an array slot
      is [Null], [Undefined] or a string;
    - an array is a [list value]; reads and writes outside the array follow
      JavaScript (a read gives [undefined], a write past the end extends the
      array);
    - a number of the language is a binary64 floating-point number.  The
      rationals ([Q]) stand for the real numbers, [Math.random()] answers
      rationals that are binary64 numbers, and the product
      [Math.random() * n] is the exact product rounded to binary64
      ([binary64]).  Lengths, indices and the counter are integers far
      below 2^53, where the arithmetic of the language is exact: they are
      mathematical integers ([Z]);
    - [Math.random()] reads an infinite tape of numbers at a cursor and
      advances the cursor: every method that draws is a function of the
      cursor that returns the new cursor (the [Rand] monad);
    - a method of the class takes the object ([this]) and returns its
      answer together with the object after the call;
    - the arrays the object holds are its own: the constructor and
      [shuffle] copy what they are given ([[...words]], [[...array]]), and
      [splice] changes [remainingWords] only, which is never shared with
      [allWords]; so arrays are immutable lists and an update gives a new
      list;
    - [console.log] is not modelled. *)

From Stdlib Require Import ZArith QArith Qround Qpower Ascii String Lia Lqa.
From stdpp Require Import base tactics option list gmap.

Local Open Scope Z_scope.
Local Open Scope list_scope.

(** ** Values and arrays *)

Inductive value : Type :=
  | Null
  | Undefined
  | Str (s : string).

#[global] Instance value_eq_dec : EqDecision value.
Proof. unfold EqDecision, Decision. decide equality. apply string_dec. Defined.

Abbreviation jsarray := (list value).

(** [a.length] *)
Definition arr_length (a : jsarray) : Z := Z.of_nat (length a).

(** [a[k]]: [undefined] when [k] is not an index of [a]. *)
Definition arr_get (a : jsarray) (k : Z) : value :=
  if k <? 0 then Undefined
  else match a !! Z.to_nat k with
       | Some v => v
       | None => Undefined
       end.

(** [a[k] = v]: inside the array the slot is overwritten; past the end the
    array grows up to [k] (the new slots in between read [undefined]); a
    negative [k] is not an array index and leaves the elements alone. *)
Definition arr_set (a : jsarray) (k : Z) (v : value) : jsarray :=
  if k <? 0 then a
  else if k <? arr_length a then <[Z.to_nat k := v]> a
  else a ++ replicate (Z.to_nat k - length a) Undefined ++ [v].

(** [a.splice(start, 1)]: the pair of the removed elements and of what is
    left in [a].  A negative [start] counts from the end, and a [start]
    past the end removes nothing. *)
Definition splice1 (a : jsarray) (start : Z) : jsarray * jsarray :=
  let len := arr_length a in
  let from := if start <? 0 then Z.max (len + start) 0 else Z.min start len in
  let k := Z.to_nat from in
  (take 1 (drop k a), take k a ++ drop (S k) a).

(** [[a[i], a[j]] = [a[j], a[i]]]: the right-hand side is read first, then
    slot [i] and slot [j] are written in this order. *)
Definition swap (a : jsarray) (i j : Z) : jsarray :=
  let vj := arr_get a j in
  let vi := arr_get a i in
  arr_set (arr_set a i vj) j vi.

(** ** Exceptions *)

Inductive exn : Type := Error (message : string).

Inductive completion (A : Type) : Type :=
  | Normal (a : A)
  | Throw (e : exn).
Arguments Normal {A} a.
Arguments Throw {A} e.

(** ** The random source *)

Definition Rand (A : Type) : Type := nat -> A * nat.

Definition ret {A} (a : A) : Rand A := fun c => (a, c).

Definition bind {A B} (m : Rand A) (k : A -> Rand B) : Rand B :=
  fun c => let (a, c') := m c in k a c'.

Notation "x <- m ;; k" := (bind m (fun x => k))
  (at level 100, m at next level, right associativity).

Definition Math_floor (q : Q) : Z := Qfloor q.

(** ** Numbers

    The result of an arithmetic operation of the language is the binary64
    number nearest to the exact result, and of two that are equally near
    the one whose significand is even.  A binary64 number is a multiple
    of a power of two, [m * 2^e], with a significand [m] below [2^53] and
    an exponent [e] not below -1074.  Results beyond the largest binary64
    number do not occur here: the products are below the length of an
    array. *)

(** The largest [k] with [2^k <= x], for a positive [x]. *)
Definition Qlog2_floor (x : Q) : Z :=
  let k := Z.log2 (Qnum x) - Z.log2 (Zpos (Qden x)) in
  if Qle_bool (2 ^ k) x then k else k - 1.

(** The integer nearest to [q], the even one of two equally near. *)
Definition round_half_even (q : Q) : Z :=
  let f := Qfloor q in
  match (q - inject_Z f ?= 1 # 2)%Q with
  | Lt => f
  | Gt => f + 1
  | Eq => if Z.even f then f else f + 1
  end.

(** The exponent of the binary64 numbers next to a positive [x]: their
    last binary place is 52 places below the leading one of [x], and not
    below the smallest exponent. *)
Definition binary64_exponent (x : Q) : Z :=
  Z.max (Qlog2_floor x - 52) (-1074).

Definition binary64_positive (x : Q) : Q :=
  let e := binary64_exponent x in
  (inject_Z (round_half_even (x / 2 ^ e)) * 2 ^ e)%Q.

(** The binary64 number nearest to [x]. *)
Definition binary64 (x : Q) : Q :=
  match (x ?= 0)%Q with
  | Eq => 0%Q
  | Gt => binary64_positive x
  | Lt => (- binary64_positive (- x))%Q
  end.

Definition is_binary64 (x : Q) : Prop := (binary64 x == x)%Q.

(** The largest relative error of rounding to binary64, [2^-53]. *)
Definition unit_roundoff : Q := (2 ^ (-53))%Q.

(** A tape is what [Math.random()] will answer, call after call. The
    language promises numbers in the half-open interval from 0 to 1. *)
Definition unit_tape (tape : nat -> Q) : Prop :=
  forall c, is_binary64 (tape c) /\ (0 <= tape c)%Q /\ (tape c < 1)%Q.

(** ** The class *)

Record PracticeSession : Type := mkSession {
  allWords : jsarray;
  remainingWords : jsarray;
  wordsSpoken : Z;
  currentWord : value
}.

(** What a caller passes as [words]: an array, or [null] or [undefined]
    in its place. *)
Inductive words_arg : Type :=
  | WNull
  | WUndefined
  | WArray (ws : jsarray).

(** [!words] *)
Definition js_not (words : words_arg) : bool :=
  match words with
  | WNull | WUndefined => true
  | WArray _ => false
  end.

Definition empty_list_message : string :=
  "Cannot create practice session with empty word list".

Section Scheduler.

Variable tape : nat -> Q.

Definition Math_random : Rand Q := fun c => (tape c, S c).

(** [Math.floor(Math.random() * bound)]: the product is rounded to
    binary64; the floor of a binary64 number is exact. *)
Definition random_index (bound : Z) : Rand Z :=
  r <- Math_random ;;
  ret (Math_floor (binary64 (r * inject_Z bound))).

(** The loop of [shuffle], [for (let i = ...; i > 0; i--)], by recursion
    on the counter [i]. *)
Fixpoint shuffle_loop (i : nat) (shuffled : jsarray) : Rand jsarray :=
  match i with
  | O => ret shuffled
  | S i' =>
      j <- random_index (Z.of_nat i + 1) ;;
      shuffle_loop i' (swap shuffled (Z.of_nat i) j)
  end.

(** [shuffle(array)]: works on a copy, so [array] itself is not
    changed. The counter starts at [length - 1]; on the empty array the
    loop does not run. *)
Definition shuffle (array : jsarray) : Rand jsarray :=
  shuffle_loop (length array - 1) array.

(** [new PracticeSession(words)].  The guard is
    [!words || words.length === 0]: [null] and [undefined] are caught by
    its left disjunct ([js_not]), before [words.length] is read; an array
    is truthy, so for it the right disjunct decides.  The throw comes
    before any field of the new object is written. *)
Definition new_PracticeSession (words : words_arg)
  : Rand (completion PracticeSession) :=
  match words with
  | WArray ws =>
      if js_not words || (arr_length ws =? 0)
      then ret (Throw (Error empty_list_message))
      else
        shuffled <- shuffle ws ;;
        ret (Normal {| allWords := ws;
                       remainingWords := shuffled;
                       wordsSpoken := 0;
                       currentWord := Null |})
  | WNull | WUndefined =>
      ret (Throw (Error empty_list_message))
  end.

(** [getNextWord()] *)
Definition getNextWord (this : PracticeSession)
  : Rand (value * PracticeSession) :=
  remaining <-
    (if arr_length (remainingWords this) =? 0
     then shuffle (allWords this)
     else ret (remainingWords this)) ;;
  randomIndex <- random_index (arr_length remaining) ;;
  let (removed, remaining') := splice1 remaining randomIndex in
  let word := arr_get removed 0 in
  ret (word,
       {| allWords := allWords this;
          remainingWords := remaining';
          wordsSpoken := wordsSpoken this + 1;
          currentWord := word |}).

Definition getTotalWords (this : PracticeSession)
  : Rand (Z * PracticeSession) :=
  ret (arr_length (allWords this), this).

Definition getWordsSpoken (this : PracticeSession)
  : Rand (Z * PracticeSession) :=
  ret (wordsSpoken this, this).

Definition getRemainingCount (this : PracticeSession)
  : Rand (Z * PracticeSession) :=
  ret (arr_length (remainingWords this), this).

Definition getCurrentWord (this : PracticeSession)
  : Rand (value * PracticeSession) :=
  ret (currentWord this, this).

(** [this.currentWord !== null] *)
Definition hasCurrentWord (this : PracticeSession)
  : Rand (bool * PracticeSession) :=
  ret (negb (bool_decide (currentWord this = Null)), this).

(** [reset()] *)
Definition reset (this : PracticeSession)
  : Rand (unit * PracticeSession) :=
  shuffled <- shuffle (allWords this) ;;
  ret (tt,
       {| allWords := allWords this;
          remainingWords := shuffled;
          wordsSpoken := 0;
          currentWord := Null |}).

End Scheduler.


(** ** Sequences of calls *)

(** The methods a caller can invoke on a constructed session, under the
    names the specification gives them. *)
Inductive op : Type :=
  | NextWord
  | RepeatCurrentWord
  | HasCurrentWord
  | TotalWordCount
  | SpokenCount
  | RemainingInCycle
  | Reset.

Inductive answer : Type :=
  | AWord (v : value)
  | ANumber (n : Z)
  | ABool (b : bool)
  | ANothing.

Section Calls.

Variable tape : nat -> Q.

Definition call (o : op) (this : PracticeSession)
  : Rand (answer * PracticeSession) :=
  match o with
  | NextWord =>
      r <- getNextWord tape this ;; ret (AWord (fst r), snd r)
  | RepeatCurrentWord =>
      r <- getCurrentWord this ;; ret (AWord (fst r), snd r)
  | HasCurrentWord =>
      r <- hasCurrentWord this ;; ret (ABool (fst r), snd r)
  | TotalWordCount =>
      r <- getTotalWords this ;; ret (ANumber (fst r), snd r)
  | SpokenCount =>
      r <- getWordsSpoken this ;; ret (ANumber (fst r), snd r)
  | RemainingInCycle =>
      r <- getRemainingCount this ;; ret (ANumber (fst r), snd r)
  | Reset =>
      r <- reset tape this ;; ret (ANothing, snd r)
  end.

(** The calls of [os], one after the other, from left to right. *)
Fixpoint calls (os : list op) (this : PracticeSession)
  : Rand (list answer * PracticeSession) :=
  match os with
  | [] => ret ([], this)
  | o :: os' =>
      r <- call o this ;;
      rs <- calls os' (snd r) ;;
      ret (fst r :: fst rs, snd rs)
  end.

(** [k] successive [getNextWord()] calls and the words they return, in
    the order of the calls. *)
Fixpoint next_words (k : nat) (this : PracticeSession)
  : Rand (list value * PracticeSession) :=
  match k with
  | O => ret ([], this)
  | S k' =>
      r <- getNextWord tape this ;;
      rs <- next_words k' (snd r) ;;
      ret (fst r :: fst rs, snd rs)
  end.

(** [k] successive [getCurrentWord()] calls. *)
Fixpoint repeat_words (k : nat) (this : PracticeSession)
  : Rand (list value * PracticeSession) :=
  match k with
  | O => ret ([], this)
  | S k' =>
      r <- getCurrentWord this ;;
      rs <- repeat_words k' (snd r) ;;
      ret (fst r :: fst rs, snd rs)
  end.

End Calls.

(** ** The shuffle as the specification words it

    "For an array of length n, iterate index i from n-1 down to 1, draw a
    random index j in [0, i], and swap elements i and j."  The draws are
    given as a list, the draw for the largest [i] first. *)

Section FisherYates.

Context {A : Type}.

Definition list_swap (l : list A) (i j : nat) : list A :=
  match l !! i, l !! j with
  | Some x, Some y => <[j := x]> (<[i := y]> l)
  | _, _ => l
  end.

Fixpoint fisher_yates_from (i : nat) (draws : list nat) (l : list A)
  : list A :=
  match i, draws with
  | S i', j :: rest => fisher_yates_from i' rest (list_swap l i j)
  | _, _ => l
  end.

Definition fisher_yates (draws : list nat) (l : list A) : list A :=
  fisher_yates_from (length l - 1) draws l.

End FisherYates.

(** One draw for each [i] from the given one down to 1, the draw for [i]
    in the range from 0 to [i]. *)
Fixpoint valid_draws (i : nat) (draws : list nat) : Prop :=
  match i, draws with
  | O, [] => True
  | S i', j :: rest => (j <= i)%nat /\ valid_draws i' rest
  | _, _ => False
  end.

(** The draws [shuffle_loop] makes on a tape, from cursor [c] on. *)
Fixpoint shuffle_draws (tape : nat -> Q) (i : nat) (c : nat) : list nat :=
  match i with
  | O => []
  | S i' =>
      Z.to_nat (fst (random_index tape (Z.of_nat i + 1) c))
        :: shuffle_draws tape i' (S c)
  end.

(** The order in which [shuffle] arranges the positions 0, ..., [n-1] of
    an array of length [n]: the shuffle of the specification, with the
    draws the tape gives, run on the list of the positions. *)
Definition shuffle_order (tape : nat -> Q) (n : nat) (c : nat) : list nat :=
  fisher_yates (shuffle_draws tape (n - 1) c) (seq 0 n).

(** The real numbers [x] whose exact product [x * (i + 1)] has the floor
    [j]: the interval from [j/(i+1)], included, to [(j+1)/(i+1)],
    excluded.  For a draw uniform on the unit interval and exact
    arithmetic, these are the random numbers of the draw [j]. *)
Definition draw_interval (i j : nat) : Q * Q :=
  ((inject_Z (Z.of_nat j) / inject_Z (Z.of_nat i + 1))%Q,
   (inject_Z (Z.of_nat j + 1) / inject_Z (Z.of_nat i + 1))%Q).

(** The box of the tapes that would make [shuffle_loop] take the given
    draws in exact arithmetic: one interval for each of its calls of
    [Math.random()]. *)
Fixpoint draws_box (i : nat) (draws : list nat) : list (Q * Q) :=
  match i, draws with
  | S i', j :: rest => draw_interval i j :: draws_box i' rest
  | _, _ => []
  end.

(** The tape lies in the box from cursor [c] on. *)
Fixpoint in_box (tape : nat -> Q) (c : nat) (box : list (Q * Q)) : Prop :=
  match box with
  | [] => True
  | (lo, hi) :: rest =>
      ((lo <= tape c)%Q /\ (tape c < hi)%Q) /\ in_box tape (S c) rest
  end.

(** The volume of a box: the product of the lengths of its sides.  For a
    random source uniform on the unit interval it is the probability that
    the tape lies in the box. *)
Fixpoint volume (box : list (Q * Q)) : Q :=
  match box with
  | [] => 1%Q
  | (lo, hi) :: rest => ((hi - lo) * volume rest)%Q
  end.

(** The box with every side cut short by [unit_roundoff] at its upper
    end, and the box with every side lengthened by [unit_roundoff] at its
    lower end: the rounding of the product [Math.random() * (i + 1)] moves
    the random numbers of a draw by less than that. *)
Definition shrink_box (box : list (Q * Q)) : list (Q * Q) :=
  (fun side => (fst side, (snd side - unit_roundoff)%Q)) <$> box.

Definition widen_box (box : list (Q * Q)) : list (Q * Q) :=
  (fun side => ((fst side - unit_roundoff)%Q, snd side)) <$> box.

(** ** States of a session *)

(** What every session built by the constructor satisfies, and every call
    keeps: there are words, and the pool holds some of them, none more
    often than the word list does. *)
Definition consistent (s : PracticeSession) : Prop :=
  allWords s <> [] /\ remainingWords s ⊆+ allWords s.

(** A reshuffle point (the pool is empty, the next draw reshuffles) or a
    session whose pool was just filled. *)
Definition at_cycle_start (s : PracticeSession) : Prop :=
  remainingWords s = [] \/ remainingWords s ≡ₚ allWords s.

(** The session with its pool replaced. *)
Definition with_pool (s : PracticeSession) (pool : jsarray)
  : PracticeSession :=
  {| allWords := allWords s;
     remainingWords := pool;
     wordsSpoken := wordsSpoken s;
     currentWord := currentWord s |}.

(** Whether a word was drawn since the construction or the last reset,
    reading the calls from left to right; [d] is the answer before them. *)
Fixpoint drawn_since_reset (d : bool) (os : list op) : bool :=
  match os with
  | [] => d
  | NextWord :: os' => drawn_since_reset true os'
  | Reset :: os' => drawn_since_reset false os'
  | _ :: os' => drawn_since_reset d os'
  end.

(** The counter as the specification describes it: plus one for each
    [NextWord], back to 0 at [Reset], untouched by every other call; [n]
    is the counter before the calls. *)
Fixpoint spoken_after (n : Z) (os : list op) : Z :=
  match os with
  | [] => n
  | NextWord :: os' => spoken_after (n + 1) os'
  | Reset :: os' => spoken_after 0 os'
  | _ :: os' => spoken_after n os'
  end.

(** The current word of a session in which a word was drawn ([d] true)
    or was not. *)
Definition current_word_ok (d : bool) (s : PracticeSession) : Prop :=
  if d then currentWord s ∈ allWords s else currentWord s = Null.

(** ** Sample data *)

(** A tape that cycles through the numbers 0, 0.2, 0.4, 0.6 and 0.8. *)
Definition demo_tape : nat -> Q :=
  fun c => binary64 (Z.of_nat (c mod 5) # 5).

Definition demo_words : jsarray :=
  [Str "apple"; Str "banana"; Str "challenge"].

(** The session the constructor builds from [demo_words] on [demo_tape]
    at cursor 0; the cursor is 2 afterwards. *)
Definition demo_fresh : PracticeSession :=
  {| allWords := demo_words;
     remainingWords := [Str "banana"; Str "challenge"; Str "apple"];
     wordsSpoken := 0;
     currentWord := Null |}.

(** A session in the middle of its second cycle. *)
Definition demo_session : PracticeSession :=
  {| allWords := demo_words;
     remainingWords := [Str "banana"; Str "apple"];
     wordsSpoken := 4;
     currentWord := Str "challenge" |}.

(** * The word-extraction endpoint ([api/extract-words.js])

    The server code works on strings whose length and characters matter:
    a string is the list of its UTF-16 code units.  [Date.now()] is an
    argument ([now], in milliseconds), and the module's [rateLimitMap] is
    passed in and out. *)

Abbreviation jsstring := (list N).

(** ** The rate limiter *)

Definition RATE_LIMIT_WINDOW_MS : Z := 60 * 1000.
Definition MAX_REQUESTS_PER_WINDOW : Z := 10.

(** A number that may be [NaN]. *)
Inductive jsnum : Type :=
  | Num (z : Z)
  | NaN.

(** The object [checkRateLimit] returns. *)
Record rate_limit : Type := mkRateLimit {
  allowed : bool;
  remaining : Z;
  resetIn : jsnum
}.

(** [Math.ceil(x / d)] for integers [x] and [d], [d] positive. *)
Definition Math_ceil_div (x d : Z) : Z := - ((- x) / d).

(** [entry.timestamps.filter(t => t > windowStart)] *)
Definition prune (windowStart : Z) (timestamps : list Z) : list Z :=
  filter (fun t => windowStart < t) timestamps.

(** The loop over [rateLimitMap]: every entry is pruned, and an entry
    left without timestamps is deleted.  The entries are handled one by
    one and independently of each other. *)
Definition cleanup (windowStart : Z) (m : gmap jsstring (list Z))
  : gmap jsstring (list Z) :=
  omap (fun timestamps =>
          let pruned := prune windowStart timestamps in
          if Z.of_nat (length pruned) =? 0 then None else Some pruned) m.

(** [checkRateLimit(ip)] at the time [now].  The entry found or created
    in the map is an object: the push at the end is seen through the
    map.  In the refusal branch the entry holds at least
    [MAX_REQUESTS_PER_WINDOW] timestamps, so [timestamps[0]] is there;
    were it not, the sum would be [NaN]. *)
Definition checkRateLimit (ip : jsstring) (now : Z)
    (rateLimitMap : gmap jsstring (list Z))
  : rate_limit * gmap jsstring (list Z) :=
  let windowStart := now - RATE_LIMIT_WINDOW_MS in
  let m1 := cleanup windowStart rateLimitMap in
  let (timestamps, m2) :=
    match m1 !! ip with
    | Some timestamps => (timestamps, m1)
    | None => ([], <[ip := []]> m1)
    end in
  if MAX_REQUESTS_PER_WINDOW <=? Z.of_nat (length timestamps)
  then
    ({| allowed := false;
        remaining := 0;
        resetIn :=
          match timestamps !! 0%nat with
          | Some t0 =>
              Num (Math_ceil_div (t0 + RATE_LIMIT_WINDOW_MS - now) 1000)
          | None => NaN
          end |},
     m2)
  else
    let timestamps' := timestamps ++ [now] in
    ({| allowed := true;
        remaining := MAX_REQUESTS_PER_WINDOW - Z.of_nat (length timestamps');
        resetIn := Num 60 |},
     <[ip := timestamps']> m2).

(** The limiter serving requests one after the other: each request is a
    key and the time at which it is checked. *)
Fixpoint serve (reqs : list (jsstring * Z))
    (rateLimitMap : gmap jsstring (list Z))
  : list rate_limit * gmap jsstring (list Z) :=
  match reqs with
  | [] => ([], rateLimitMap)
  | (ip, now) :: rest =>
      let (r, m1) := checkRateLimit ip now rateLimitMap in
      let (rs, m2) := serve rest m1 in
      (r :: rs, m2)
  end.

(** The clock does not run backwards: the times of the requests do not
    decrease, starting at [T]. *)
Fixpoint clock_monotone (T : Z) (reqs : list (jsstring * Z)) : bool :=
  match reqs with
  | [] => true
  | (_, now) :: rest => (T <=? now) && clock_monotone now rest
  end.

(** The time of the last request, [T] when there is none. *)
Fixpoint last_time (T : Z) (reqs : list (jsstring * Z)) : Z :=
  match reqs with
  | [] => T
  | (_, now) :: rest => last_time now rest
  end.

(** The number of requests of the key [ip] that were allowed at a time in
    the window of one minute that ends at [T]. *)
Fixpoint allowed_in_window (ip : jsstring) (T : Z)
    (reqs : list (jsstring * Z)) (rs : list rate_limit) : Z :=
  match reqs, rs with
  | (ip', now) :: reqs', r :: rs' =>
      (if bool_decide (ip' = ip) && allowed r
          && (T - RATE_LIMIT_WINDOW_MS <? now) && (now <=? T)
       then 1 else 0)
      + allowed_in_window ip T reqs' rs'
  | _, _ => 0
  end.

(** What a map of a running server satisfies at the time [T]: no entry is
    empty, none holds more than [MAX_REQUESTS_PER_WINDOW] timestamps, and
    no timestamp is in the future. *)
Definition rate_map_ok (T : Z) (m : gmap jsstring (list Z)) : Prop :=
  forall ip timestamps, m !! ip = Some timestamps ->
    timestamps <> [] /\
    Z.of_nat (length timestamps) <= MAX_REQUESTS_PER_WINDOW /\
    Forall (fun t => t <= T) timestamps.

(** ** Strings of the server code *)

(** A literal of the source, all of whose characters are ASCII. *)
Definition js (s : string) : jsstring :=
  N_of_ascii <$> list_ascii_of_string s.

Fixpoint drop_while (p : N -> bool) (s : jsstring) : jsstring :=
  match s with
  | [] => []
  | u :: s' => if p u then drop_while p s' else s
  end.

Definition drop_end_while (p : N -> bool) (s : jsstring) : jsstring :=
  reverse (drop_while p (reverse s)).

Fixpoint take_while (p : N -> bool) (s : jsstring) : jsstring :=
  match s with
  | [] => []
  | u :: s' => if p u then u :: take_while p s' else []
  end.

(** What [trim()] removes: the white space and the line terminators of
    the language. *)
Definition is_white_space (u : N) : bool :=
  bool_decide
    (u ∈ [9; 10; 11; 12; 13; 32; 160; 5760; 8192; 8193; 8194; 8195; 8196;
          8197; 8198; 8199; 8200; 8201; 8202; 8232; 8233; 8239; 8287;
          12288; 65279]%N).

(** [s.trim()] *)
Definition trim (s : jsstring) : jsstring :=
  drop_end_while is_white_space (drop_while is_white_space s).

(** [s.startsWith(p)] *)
Fixpoint starts_with (p s : jsstring) : bool :=
  match p, s with
  | [], _ => true
  | a :: p', b :: s' => (a =? b)%N && starts_with p' s'
  | _ :: _, [] => false
  end.

(** [s.endsWith(p)] *)
Definition ends_with (p s : jsstring) : bool :=
  starts_with (reverse p) (reverse s).

(** [s.includes(p)] *)
Fixpoint includes (p s : jsstring) : bool :=
  starts_with p s ||
  match s with
  | [] => false
  | _ :: s' => includes p s'
  end.

Definition comma : N := 44%N.

(** [s.split(',')[0]]: the part before the first comma. *)
Definition split_comma_0 (s : jsstring) : jsstring :=
  take_while (fun u => negb (u =? comma)%N) s.

(** [s.split(',')[1]]: the part between the first comma and the second,
    [undefined] when there is no comma. *)
Definition split_comma_1 (s : jsstring) : option jsstring :=
  match drop_while (fun u => negb (u =? comma)%N) s with
  | [] => None
  | _ :: rest => Some (split_comma_0 rest)
  end.

(** ** Cleaning and checking words *)

(** The character class [[a-zA-Z]]. *)
Definition is_letter (u : N) : bool :=
  ((65 <=? u) && (u <=? 90) || (97 <=? u) && (u <=? 122))%N.

(** The character class [[\.\,\:\;\!\?]]. *)
Definition is_edge_punctuation (u : N) : bool :=
  bool_decide (u ∈ [46; 44; 58; 59; 33; 63]%N).

(** A value of JSON, as [JSON.parse] hands it out: what a client sends in
    the body of a request, and what the model answers.  An object is the
    list of its properties, each name once. *)
#[warnings="-register-all"]
Inductive json : Type :=
  | JNull
  | JBool (b : bool)
  | JNumber (x : Q)
  | JString (s : jsstring)
  | JArray (items : list json)
  | JObject (properties : list (jsstring * json)).

(** [toLowerCase()] on a string of ASCII characters. *)
Definition ascii_lower (u : N) : N :=
  if ((65 <=? u) && (u <=? 90))%N then (u + 32)%N else u.

Definition is_ascii (s : jsstring) : Prop := Forall (fun u => (u < 128)%N) s.

(** [isValidWord(word)] for a string [word].  The comparison
    [letterCount < word.length / 2] of the source is between real
    numbers; doubled, it is a comparison of integers. *)
Definition isValidWord (word : jsstring) : bool :=
  if (length word =? 0)%nat || (length word <? 2)%nat then false
  else if negb (existsb is_letter word) then false
  else
    let letterCount := length (filter (fun u => is_letter u = true) word) in
    if (2 * letterCount <? length word)%nat then false
    else true.

Section Words.

(** [String.prototype.toLowerCase] follows the case tables of Unicode,
    which are not part of this development: it is a parameter, known on
    the strings of ASCII characters. *)
Variable toLowerCase : jsstring -> jsstring.

Definition lowers_ascii : Prop :=
  forall s, is_ascii s -> toLowerCase s = ascii_lower <$> s.

(** [cleanWord(word)] *)
Definition cleanWord (word : json) : jsstring :=
  match word with
  | JString word =>
      let word := trim word in
      let word := drop_while is_edge_punctuation word in
      let word := drop_end_while is_edge_punctuation word in
      toLowerCase word
  | _ => []
  end.

(** [words.map(word => cleanWord(word)).filter(word => isValidWord(word))] *)
Definition clean_and_validate (words : list json) : list jsstring :=
  filter (fun word => isValidWord word = true) (cleanWord <$> words).

End Words.

(** ** The key of a client and the origin check *)

Record request_headers : Type := mkHeaders {
  origin : option jsstring;
  x_forwarded_for : option jsstring;
  x_real_ip : option jsstring
}.

(** [a || b] on strings that may be [undefined]: the first operand unless
    it is [undefined] or empty. *)
Definition or_else (a : option jsstring) (b : option jsstring)
  : option jsstring :=
  match a with
  | Some (_ :: _) => a
  | _ => b
  end.

(** [getRateLimitKey(req)] *)
Definition getRateLimitKey (headers : request_headers) : jsstring :=
  match or_else
          (or_else ((fun v => trim (split_comma_0 v))
                      <$> x_forwarded_for headers)
                   (x_real_ip headers))
          (Some (js "unknown")) with
  | Some key => key
  | None => []
  end.

Definition DEFAULT_ALLOWED_ORIGINS : list jsstring :=
  [js "http://localhost:3000"; js "http://localhost:5173";
   js "http://127.0.0.1:3000"].

(** [isOriginAllowed(origin)] for the list [ALLOWED_ORIGINS]. *)
Definition isOriginAllowed (ALLOWED_ORIGINS : list jsstring)
    (origin : option jsstring) : bool :=
  match origin with
  | None | Some [] => false
  | Some origin =>
      existsb (fun allowed =>
                 if bool_decide (allowed = origin) then true
                 else if starts_with (js "*.") allowed
                 then ends_with (drop 2 allowed) origin
                      && includes (js "://") origin
                 else false)
              ALLOWED_ORIGINS
  end.

(** ** The handler, up to the call of the model

    The handler answers by itself, throws, or goes on to call the model
    with the image; what it does with the answer of the model is
    [clean_and_validate] above.  [req.body] is what the client has sent:
    [undefined], or any value of JSON. *)

Record environment : Type := mkEnv {
  GOOGLE_GENERATIVE_AI_API_KEY : option jsstring;
  GEMINI_API_KEY : option jsstring
}.

Record request : Type := mkRequest {
  method : string;
  headers : request_headers;
  body : option json
}.

Inductive header_value : Type :=
  | HText (s : string)
  | HOrigin (o : jsstring)
  | HNumber (n : jsnum).

Inductive response_body : Type :=
  | Ended
  | JsonError (error : string)
  | JsonRateLimited (error : string) (retryAfter : jsnum).

Record response : Type := mkResponse {
  status : Z;
  response_headers : list (string * header_value);
  sent : response_body
}.

(** How a call of the handler goes on: it sends a response, it calls the
    model with [base64Data] as the image, or it throws a [TypeError]; in
    the last two cases [set_headers] are the headers it has set so far. *)
Inductive outcome : Type :=
  | Respond (r : response)
  | CallModel (set_headers : list (string * header_value))
      (base64Data : json)
  | ThrowTypeError (set_headers : list (string * header_value)).

(** [!s] for a string that may be [undefined]. *)
Definition falsy (s : option jsstring) : bool :=
  match s with
  | Some (_ :: _) => false
  | _ => true
  end.

(** [!v] for a value of JSON: [null], [false], zero and the empty string
    are the values that count as false. *)
Definition json_falsy (v : json) : bool :=
  match v with
  | JNull => true
  | JBool b => negb b
  | JNumber x => Qeq_bool x 0
  | JString s => match s with [] => true | _ :: _ => false end
  | JArray _ | JObject _ => false
  end.

(** [o[name]] on the properties of an object. *)
Fixpoint get_property (name : jsstring) (properties : list (jsstring * json))
  : option json :=
  match properties with
  | [] => None
  | (key, v) :: rest =>
      if bool_decide (key = name) then Some v else get_property name rest
  end.

(** [const { imageData } = req.body]: [undefined] and [null] have no
    properties to read, which is a [TypeError] ([None] here); an object
    has the property or has it not; no other value of JSON has a property
    of this name. *)
Definition read_imageData (body : option json) : option (option json) :=
  match body with
  | None | Some JNull => None
  | Some (JObject properties) =>
      Some (get_property (js "imageData") properties)
  | Some _ => Some None
  end.

(** [imageData.includes(',')]: on a string, whether it holds a comma; on
    an array, whether one of its elements is the string [","]; a
    [TypeError] ([None] here) on a value without a method [includes]. *)
Definition json_includes_comma (imageData : json) : option bool :=
  match imageData with
  | JString s => Some (includes [comma] s)
  | JArray items =>
      Some (existsb (fun item =>
                       match item with
                       | JString s => bool_decide (s = [comma])
                       | _ => false
                       end) items)
  | _ => None
  end.

(** [imageData.split(',')[1]]: only a string has a method [split]. *)
Definition json_split_comma_1 (imageData : json) : option (option json) :=
  match imageData with
  | JString s => Some (JString <$> split_comma_1 s)
  | _ => None
  end.

(** [setCorsHeaders(res, origin)]: the headers it sets, in order. *)
Definition setCorsHeaders (ALLOWED_ORIGINS : list jsstring)
    (origin : option jsstring) : list (string * header_value) :=
  (match origin with
   | Some o =>
       if negb (falsy origin) && isOriginAllowed ALLOWED_ORIGINS origin
       then [("Access-Control-Allow-Origin"%string, HOrigin o)]
       else []
   | None => []
   end)
  ++ [("Access-Control-Allow-Methods"%string, HText "POST, OPTIONS");
      ("Access-Control-Allow-Headers"%string, HText "Content-Type");
      ("Access-Control-Expose-Headers"%string,
       HText "X-RateLimit-Limit, X-RateLimit-Remaining, X-RateLimit-Reset");
      ("Access-Control-Max-Age"%string, HText "86400")].

(** The handler from [const { imageData } = req.body] to the call of the
    model, with the headers [hs] set. *)
Definition handle_body (hs : list (string * header_value))
    (body : option json) : outcome :=
  match read_imageData body with
  | None => ThrowTypeError hs
  | Some None =>
      Respond (mkResponse 400 hs
                 (JsonError "Missing imageData in request body"))
  | Some (Some imageData) =>
      if json_falsy imageData
      then Respond (mkResponse 400 hs
                      (JsonError "Missing imageData in request body"))
      else
        match json_includes_comma imageData with
        | None => ThrowTypeError hs
        | Some has_comma =>
            match (if has_comma then json_split_comma_1 imageData
                   else Some (Some imageData)) with
            | None => ThrowTypeError hs
            | Some None =>
                Respond (mkResponse 400 hs (JsonError "Invalid image data"))
            | Some (Some base64Data) =>
                if json_falsy base64Data
                then Respond (mkResponse 400 hs
                                (JsonError "Invalid image data"))
                else CallModel hs base64Data
            end
        end
  end.

(** [handler(req, res)] at the time [now], up to the call of the model. *)
Definition handler (ALLOWED_ORIGINS : list jsstring) (env : environment)
    (req : request) (now : Z) (rateLimitMap : gmap jsstring (list Z))
  : outcome * gmap jsstring (list Z) :=
  let origin := origin (headers req) in
  let cors := setCorsHeaders ALLOWED_ORIGINS origin in
  if String.eqb (method req) "OPTIONS"
  then (Respond (mkResponse 204 cors Ended), rateLimitMap)
  else if negb (String.eqb (method req) "POST")
  then (Respond (mkResponse 405 cors (JsonError "Method not allowed")),
        rateLimitMap)
  else if falsy origin
  then (Respond (mkResponse 403 cors
                   (JsonError "Forbidden: Missing origin header")),
        rateLimitMap)
  else if negb (isOriginAllowed ALLOWED_ORIGINS origin)
  then (Respond (mkResponse 403 cors
                   (JsonError "Forbidden: Unauthorized origin")),
        rateLimitMap)
  else
    let clientIp := getRateLimitKey (headers req) in
    let (rateLimit, m) := checkRateLimit clientIp now rateLimitMap in
    let hs :=
      cors ++ [("X-RateLimit-Limit"%string,
                HNumber (Num MAX_REQUESTS_PER_WINDOW));
               ("X-RateLimit-Remaining"%string,
                HNumber (Num (remaining rateLimit)));
               ("X-RateLimit-Reset"%string, HNumber (resetIn rateLimit))] in
    if negb (allowed rateLimit)
    then (Respond (mkResponse 429 hs
                     (JsonRateLimited
                        "Too many requests. Please wait a minute before trying again."
                        (resetIn rateLimit))), m)
    else if falsy (GOOGLE_GENERATIVE_AI_API_KEY env)
            && falsy (GEMINI_API_KEY env)
    then (Respond (mkResponse 500 hs
                     (JsonError "Server configuration error: Missing API key")),
          m)
    else (handle_body hs (body req), m).

(** The handler serving requests one after the other, each at its time. *)
Fixpoint handle_all (ALLOWED_ORIGINS : list jsstring) (env : environment)
    (reqs : list (request * Z)) (rateLimitMap : gmap jsstring (list Z))
  : list outcome * gmap jsstring (list Z) :=
  match reqs with
  | [] => ([], rateLimitMap)
  | (req, now) :: rest =>
      let (o, m1) := handler ALLOWED_ORIGINS env req now rateLimitMap in
      let (os, m2) := handle_all ALLOWED_ORIGINS env rest m1 in
      (o :: os, m2)
  end.

Fixpoint times_monotone (T : Z) (reqs : list (request * Z)) : bool :=
  match reqs with
  | [] => true
  | (_, now) :: rest => (T <=? now) && times_monotone now rest
  end.

Definition is_model_call (o : outcome) : bool :=
  match o with
  | CallModel _ _ => true
  | Respond _ | ThrowTypeError _ => false
  end.

(** The number of requests of the client key [ip] that reached the model
    at a time in the window of one minute that ends at [T]. *)
Fixpoint model_calls_in_window (ip : jsstring) (T : Z)
    (reqs : list (request * Z)) (os : list outcome) : Z :=
  match reqs, os with
  | (req, now) :: reqs', o :: os' =>
      (if bool_decide (getRateLimitKey (headers req) = ip)
          && is_model_call o
          && (T - RATE_LIMIT_WINDOW_MS <? now) && (now <=? T)
       then 1 else 0)
      + model_calls_in_window ip T reqs' os'
  | _, _ => 0
  end.

(** What the handler has set on the response when it sends it, calls the
    model or throws. *)
Definition outcome_headers (o : outcome) : list (string * header_value) :=
  match o with
  | Respond r => response_headers r
  | CallModel hs _ | ThrowTypeError hs => hs
  end.

(** The request gets as far as the rate limiter: it is a [POST] whose
    origin is present and allowed. *)
Definition reaches_limiter (ALLOWED_ORIGINS : list jsstring)
    (req : request) : bool :=
  String.eqb (method req) "POST"
  && negb (falsy (origin (headers req)))
  && isOriginAllowed ALLOWED_ORIGINS (origin (headers req)).

(** A request of a browser on the development host, and a server with a
    key. *)
Definition demo_env : environment :=
  {| GOOGLE_GENERATIVE_AI_API_KEY := None;
     GEMINI_API_KEY := Some (js "secret") |}.

Definition demo_request : request :=
  {| method := "POST";
     headers :=
       {| origin := Some (js "http://localhost:3000");
          x_forwarded_for := Some (js " 203.0.113.7 , 10.0.0.1");
          x_real_ip := Some (js "10.0.0.1") |};
     body :=
       Some (JObject
               [(js "imageData",
                 JString (js "data:image/png;base64,iVBORw0KGgo="))]) |}.

(** * The choice of a voice ([public/js/speech.js])

    [voices.sort(compare)] is the sort of the language: for a comparison
    that orders the voices consistently, as this one does, it leaves the
    array sorted by the comparison.  The theorems take the sorted array as
    it is after [loadVoices()]. *)

Record voice : Type := mkVoice {
  name : jsstring;
  lang : jsstring
}.

Section Speech.

Variable toLowerCase : jsstring -> jsstring.

(** [voice.lang.startsWith('en')] *)
Definition is_english (v : voice) : bool := starts_with (js "en") (lang v).

(** [getVoiceQualityScore(voice)] *)
Definition getVoiceQualityScore (v : voice) : Z :=
  let nameLower := toLowerCase (name v) in
  let score := 0 in
  let score := if includes (js "premium") nameLower then score + 50 else score in
  let score := if includes (js "enhanced") nameLower then score + 50 else score in
  let score := if includes (js "neural") nameLower then score + 50 else score in
  let score := if includes (js "natural") nameLower then score + 40 else score in
  let score := if includes (js "google") nameLower then score + 30 else score in
  let score := if includes (js "microsoft") nameLower then score + 25 else score in
  let score :=
    if bool_decide (lang v = js "en-US") then score + 20
    else if starts_with (js "en-") (lang v) then score + 10
    else score in
  let score := if includes (js "samantha") nameLower then score + 35 else score in
  let score := if includes (js "zira") nameLower then score + 30 else score in
  let score := if includes (js "david") nameLower then score + 30 else score in
  let score := if includes (js "female") nameLower then score + 10 else score in
  score.

(** The comparison [loadVoices()] sorts with. *)
Definition compare_voices (a b : voice) : Z :=
  let aIsEnglish := is_english a in
  let bIsEnglish := is_english b in
  if aIsEnglish && negb bIsEnglish then -1
  else if negb aIsEnglish && bIsEnglish then 1
  else getVoiceQualityScore b - getVoiceQualityScore a.

(** The array is sorted by the comparison: no voice comes before a voice
    that the comparison puts in front of it. *)
Fixpoint sorted_by_compare (voices : list voice) : Prop :=
  match voices with
  | [] => True
  | a :: rest =>
      Forall (fun b => compare_voices a b <= 0) rest
      /\ sorted_by_compare rest
  end.

(** [voices.find(voice => voice.lang.startsWith('en'))] *)
Fixpoint find_english (voices : list voice) : option voice :=
  match voices with
  | [] => None
  | v :: rest => if is_english v then Some v else find_english rest
  end.

(** [selectBestVoice()]; [None] is [null]. *)
Definition selectBestVoice (voices : list voice) : option voice :=
  match find_english voices with
  | Some v => Some v
  | None =>
      match voices !! 0%nat with
      | Some v => Some v
      | None => None
      end
  end.

End Speech.

Definition demo_voices : list voice :=
  [ {| name := js "Samantha"; lang := js "en-US" |};
    {| name := js "Daniel"; lang := js "en-GB" |};
    {| name := js "Google Deutsch"; lang := js "de-DE" |};
    {| name := js "Anna"; lang := js "de-DE" |} ].

(** A lower-casing that is right on ASCII strings, and an answer of the
    model with a label, a number and an entry that is not a string. *)
Definition demo_toLowerCase : jsstring -> jsstring := fmap ascii_lower.

Definition demo_answer : list json :=
  [JString (js " 1. Apple,"); JNumber 7; JString (js "??");
   JString (js "Banana!"); JString (js "x")].

Definition demo_headers : request_headers :=
  {| origin := Some (js "http://localhost:3000");
     x_forwarded_for := Some (js " 203.0.113.7 , 10.0.0.1");
     x_real_ip := Some (js "10.0.0.1") |}.

(** The bookkeeping behind the proofs about the limiter: [A ip] lists the
    times at which requests of the key [ip] were allowed so far.  The map
    tracks [A] at the time [T] when the entry of every key is the part of
    [A ip] younger than one window, no entry is empty, no allowed time is
    in the future, and no window of one minute holds more than
    [MAX_REQUESTS_PER_WINDOW] allowed times of one key. *)
Definition in_window (T : Z) (timestamps : list Z) : list Z :=
  filter (fun t => T - RATE_LIMIT_WINDOW_MS < t /\ t <= T) timestamps.

Definition tracks (T : Z) (m : gmap jsstring (list Z))
    (A : jsstring -> list Z) : Prop :=
  (forall ip, default [] (m !! ip) = prune (T - RATE_LIMIT_WINDOW_MS) (A ip))
  /\ (forall ip, m !! ip <> Some [])
  /\ (forall ip, Forall (fun t => t <= T) (A ip))
  /\ (forall ip T',
        Z.of_nat (length (in_window T' (A ip))) <= MAX_REQUESTS_PER_WINDOW).

Definition note_allowed (ip : jsstring) (now : Z) (r : rate_limit)
    (A : jsstring -> list Z) : jsstring -> list Z :=
  fun ip' =>
    if bool_decide (ip' = ip) && allowed r then A ip' ++ [now] else A ip'.

(** A client that sends twelve requests within twelve milliseconds. *)
Definition demo_ip : jsstring := [49; 48; 46; 48; 46; 48; 46; 55]%N.

Definition demo_burst : list (jsstring * Z) :=
  (fun t => (demo_ip, t)) <$> [1; 2; 3; 4; 5; 6; 7; 8; 9; 10].

(** * Speaking a word ([SpeechModule.speak]) and the callers of the
    scheduler ([public/js/app.js])

    What a method does to the page, to the speech synthesis and to the
    user is recorded as a list of events, in the order of the source.  A
    write to an element of the page happens only when the page has the
    element.  The browser is a parameter: which elements the page has,
    which scripts are loaded, whether it has a speech synthesis, whether
    [synth.speak] throws, and the voices as [loadVoices()] has left them.
    The page keeps its elements from the construction of the application,
    when the views are looked up, to the call.  The fixed settings of an
    utterance (language, rate, pitch, volume), the timer of
    [showWordAsFallback] and what happens when an utterance ends or fails
    later are not recorded. *)

Record browser : Type := mkBrowser {
  has_element : string -> bool;
  practice_script : bool;
  speech_script : bool;
  camera_script : bool;
  speech_synthesis : bool;
  speak_throws : bool;
  loaded_voices : list voice
}.

Inductive view : Type :=
  | Camera
  | Processing
  | Confirmation
  | Practice.

(** The element behind [this.views[viewName]] and the name itself. *)
Definition view_id (v : view) : string :=
  match v with
  | Camera => "camera-view"
  | Processing => "processing-view"
  | Confirmation => "confirmation-view"
  | Practice => "practice-view"
  end.

Definition view_name (v : view) : string :=
  match v with
  | Camera => "camera"
  | Processing => "processing"
  | Confirmation => "confirmation"
  | Practice => "practice"
  end.

Record App : Type := mkApp {
  currentView : string;
  extractedWords : jsarray;
  practiceSession : option PracticeSession
}.

(** What is written into an element: a fixed text, a word, or the text
    [Word <spoken> of <total>]. *)
Inductive text : Type :=
  | TString (s : string)
  | TWord (w : value)
  | TCounter (spoken total : Z).

Inductive event : Type :=
  | Alert (message : string)
  | CancelSpeech
  | Speak (word : value) (with_voice : option voice)
  | SetText (id : string) (t : text)
  | SetDisplay (id : string) (display : string)
  | SetDisabled (id : string) (b : bool)
  | RestartCamera
  | Uncaught (e : exn).

Section AppMethods.

Variable tape : nat -> Q.
Variable page : browser.

Definition when_element (id : string) (evs : list event) : list event :=
  if has_element page id then evs else [].

(** [SpeechModule.speak(word, onSuccess, onError)]; [onError] stands for
    what the callback [onError] does when it is called.  Without a speech
    synthesis [onError] is called at once; otherwise the running speech is
    cancelled and the utterance is handed to [synth.speak] with the voice
    [selectBestVoice()] answers, and [onError] is called if that throws. *)
Definition SpeechModule_speak (word : value) (onError : list event)
  : list event :=
  if negb (speech_synthesis page) then onError
  else
    [CancelSpeech; Speak word (selectBestVoice (loaded_voices page))]
    ++ (if speak_throws page then onError else []).

(** [showError(message)] *)
Definition showError (message : string) : list event := [Alert message].

(** [showView(viewName)] *)
Definition showView (v : view) (app : App) : list event * App :=
  let hide :=
    when_element (view_id Camera) [SetDisplay (view_id Camera) "none"]
    ++ when_element (view_id Processing)
         [SetDisplay (view_id Processing) "none"]
    ++ when_element (view_id Confirmation)
         [SetDisplay (view_id Confirmation) "none"]
    ++ when_element (view_id Practice)
         [SetDisplay (view_id Practice) "none"] in
  if has_element page (view_id v)
  then (hide ++ [SetDisplay (view_id v) "block"],
        {| currentView := view_name v;
           extractedWords := extractedWords app;
           practiceSession := practiceSession app |})
  else (hide, app).

(** [updateWordCounter()] *)
Definition updateWordCounter (app : App) : Rand (list event) :=
  match practiceSession app with
  | None => ret []
  | Some session =>
      if has_element page "word-counter"
      then
        total <- getTotalWords session ;;
        spoken <- getWordsSpoken (snd total) ;;
        ret [SetText "word-counter" (TCounter (fst spoken) (fst total))]
      else ret []
  end.

(** [showWordAsFallback(word, error)], without its timer. *)
Definition showWordAsFallback (word : value) : list event :=
  when_element "word-display"
    [SetText "word-display" (TWord word); SetDisplay "word-display" "flex"]
  ++ when_element "practice-message"
       [SetText "practice-message"
          (TString "Text-to-speech unavailable. Word shown instead.");
        SetDisplay "practice-message" "block"].

(** The branch on [typeof SpeechModule] that [speakNextWord] and
    [repeatWord] share; in both the error callback is
    [showWordAsFallback(word, error)]. *)
Definition speak_or_show (word : value) : list event :=
  if speech_script page
  then SpeechModule_speak word (showWordAsFallback word)
  else showWordAsFallback word.

(** [startPractice()] *)
Definition startPractice (app : App) : Rand (list event * App) :=
  if arr_length (extractedWords app) =? 0
  then ret (showError "No words available for practice", app)
  else if practice_script page
  then
    r <- new_PracticeSession tape (WArray (extractedWords app)) ;;
    match r with
    | Throw e => ret ([Uncaught e], app)
    | Normal session =>
        let app1 := {| currentView := currentView app;
                       extractedWords := extractedWords app;
                       practiceSession := Some session |} in
        counter <- updateWordCounter app1 ;;
        let (shown, app2) := showView Practice app1 in
        ret (counter ++ shown
             ++ when_element "repeat-word-btn"
                  [SetDisabled "repeat-word-btn" true]
             ++ when_element "practice-message"
                  [SetDisplay "practice-message" "none"],
             app2)
    end
  else ret (showError "Practice module not loaded", app).

(** [speakNextWord()] *)
Definition speakNextWord (app : App) : Rand (list event * App) :=
  match practiceSession app with
  | None => ret ([], app)
  | Some session =>
      r <- getNextWord tape session ;;
      let app1 := {| currentView := currentView app;
                     extractedWords := extractedWords app;
                     practiceSession := Some (snd r) |} in
      counter <- updateWordCounter app1 ;;
      ret (when_element "repeat-word-btn"
             [SetDisabled "repeat-word-btn" false]
           ++ speak_or_show (fst r) ++ counter,
           app1)
  end.

(** [repeatWord()] *)
Definition repeatWord (app : App) : Rand (list event * App) :=
  match practiceSession app with
  | None => ret ([], app)
  | Some session =>
      has <- hasCurrentWord session ;;
      if negb (fst has)
      then ret ([], {| currentView := currentView app;
                       extractedWords := extractedWords app;
                       practiceSession := Some (snd has) |})
      else
        r <- getCurrentWord (snd has) ;;
        ret (speak_or_show (fst r),
             {| currentView := currentView app;
                extractedWords := extractedWords app;
                practiceSession := Some (snd r) |})
  end.

(** [retakePicture()], and [newSheet()], which only calls it. *)
Definition retakePicture (app : App) : list event * App :=
  let app1 := {| currentView := currentView app;
                 extractedWords := [];
                 practiceSession := None |} in
  let (shown, app2) := showView Camera app1 in
  ((if camera_script page then [RestartCamera] else []) ++ shown, app2).

Definition newSheet (app : App) : list event * App := retakePicture app.

End AppMethods.





Definition demo_app : App :=
  {| currentView := "confirmation";
     extractedWords := demo_words;
     practiceSession := None |}.


(** * Properties *)

(** ** Rounding to binary64 *)

Section Binary64Facts.

Local Open Scope Q_scope.

Lemma pow2_pos (e : Z) : 0 < 2 ^ e.
Proof. apply Qpower_0_lt. reflexivity. Qed.

Lemma pow2_nonzero (e : Z) : ~ 2 ^ e == 0.
Proof. intros E. pose proof (pow2_pos e) as H. rewrite E in H. discriminate. Qed.

Lemma pow2_plus (a b : Z) : 2 ^ (a + b) == 2 ^ a * 2 ^ b.
Proof. apply Qpower_plus. discriminate. Qed.

Lemma pow2_le (a b : Z) : (a <= b)%Z -> 2 ^ a <= 2 ^ b.
Proof. intros H. apply Qpower_le_compat_l; [exact H | discriminate]. Qed.

Lemma pow2_lt (a b : Z) : (a < b)%Z -> 2 ^ a < 2 ^ b.
Proof. intros H. apply Qpower_lt_compat_l; [exact H | reflexivity]. Qed.

Lemma pow2_lt_inv (a b : Z) : 2 ^ a < 2 ^ b -> (a < b)%Z.
Proof. intros H. apply (Qpower_lt_compat_l_inv 2); [exact H | reflexivity]. Qed.

Lemma pow2_inject (n : Z) : (0 <= n)%Z -> inject_Z (2 ^ n) == 2 ^ n.
Proof. intros H. apply (Zpower_Qpower 2 n H). Qed.

(** [Qlog2_floor x] is the largest [k] with [2^k <= x]. *)
Lemma Qlog2_floor_spec (x : Q) :
  0 < x -> 2 ^ Qlog2_floor x <= x /\ x < 2 ^ (Qlog2_floor x + 1).
Proof.
  intros Hx. unfold Qlog2_floor.
  destruct x as [a b]. cbn [Qnum Qden].
  assert (0 < a)%Z as Ha by (unfold Qlt in Hx; simpl in Hx; lia).
  set (la := Z.log2 a). set (lb := Z.log2 (Z.pos b)).
  destruct (Z.log2_spec a Ha) as [Ha1 Ha2]. fold la in Ha1, Ha2.
  destruct (Z.log2_spec (Z.pos b) ltac:(lia)) as [Hb1 Hb2].
  fold lb in Hb1, Hb2.
  pose proof (Z.log2_nonneg a) as Hla. fold la in Hla.
  pose proof (Z.log2_nonneg (Z.pos b)) as Hlb. fold lb in Hlb.
  assert (Hxb : a # b == inject_Z a / inject_Z (Z.pos b))
    by apply Qmake_Qdiv.
  assert (Hbpos : 0 < inject_Z (Z.pos b)) by reflexivity.
  assert (Hup : a # b < 2 ^ (la - lb + 1)).
  { replace (la - lb + 1)%Z with ((la + 1) + - lb)%Z by lia.
    rewrite pow2_plus, Qpower_opp, Hxb.
    apply Qlt_shift_div_r; [exact Hbpos |].
    apply Qlt_le_trans with (2 ^ (la + 1) * / 2 ^ lb * 2 ^ lb).
    - assert (E : 2 ^ (la + 1) * / 2 ^ lb * 2 ^ lb == 2 ^ (la + 1))
        by (field; apply pow2_nonzero).
      rewrite E, <- pow2_inject by lia. rewrite <- Zlt_Qlt.
      replace (la + 1)%Z with (Z.succ la) by lia. exact Ha2.
    - apply Qmult_le_l.
      + apply Qmult_lt_0_compat; [apply pow2_pos |].
        apply Qinv_lt_0_compat, pow2_pos.
      + rewrite <- pow2_inject by lia. rewrite <- Zle_Qle. exact Hb1. }
  assert (Hlow : 2 ^ (la - lb - 1) < a # b).
  { replace (la - lb - 1)%Z with (la + - (lb + 1))%Z by lia.
    rewrite pow2_plus, Qpower_opp, Hxb.
    apply Qlt_shift_div_l; [exact Hbpos |].
    apply Qlt_le_trans with (2 ^ la * / 2 ^ (lb + 1) * 2 ^ (lb + 1)).
    - apply Qmult_lt_l.
      + apply Qmult_lt_0_compat; [apply pow2_pos |].
        apply Qinv_lt_0_compat, pow2_pos.
      + rewrite <- pow2_inject by lia. rewrite <- Zlt_Qlt.
        replace (lb + 1)%Z with (Z.succ lb) by lia. exact Hb2.
    - assert (E : 2 ^ la * / 2 ^ (lb + 1) * 2 ^ (lb + 1) == 2 ^ la)
        by (field; apply pow2_nonzero).
      rewrite E, <- pow2_inject by lia. rewrite <- Zle_Qle. exact Ha1. }
  destruct (Qle_bool (2 ^ (la - lb)) (a # b)) eqn:E.
  - apply Qle_bool_iff in E. split; [exact E | exact Hup].
  - assert (~ 2 ^ (la - lb) <= a # b) as Hn.
    { intros H. apply Qle_bool_iff in H. congruence. }
    apply Qnot_le_lt in Hn. split.
    + apply Qlt_le_weak. exact Hlow.
    + replace (la - lb - 1 + 1)%Z with (la - lb)%Z by lia. exact Hn.
Qed.

Lemma Qlog2_floor_unique (x : Q) (k : Z) :
  2 ^ k <= x -> x < 2 ^ (k + 1) -> Qlog2_floor x = k.
Proof.
  intros H1 H2.
  assert (0 < x) as Hx by (eapply Qlt_le_trans; [apply pow2_pos | exact H1]).
  destruct (Qlog2_floor_spec x Hx) as [H3 H4].
  assert (Qlog2_floor x < k + 1)%Z.
  { apply pow2_lt_inv. eapply Qle_lt_trans; eassumption. }
  assert (k < Qlog2_floor x + 1)%Z.
  { apply pow2_lt_inv. eapply Qle_lt_trans; eassumption. }
  lia.
Qed.

Lemma round_half_even_bounds (q : Q) :
  (Qfloor q <= round_half_even q)%Z
  /\ inject_Z (round_half_even q) <= q + (1 # 2)
  /\ q - (1 # 2) <= inject_Z (round_half_even q).
Proof.
  unfold round_half_even.
  pose proof (Qfloor_le q) as Hf. pose proof (Qlt_floor q) as Hc.
  rewrite inject_Z_plus in Hc. change (inject_Z 1) with 1 in Hc.
  set (f := Qfloor q) in *.
  destruct (Qcompare_spec (q - inject_Z f) (1 # 2)) as [E|E|E].
  - destruct (Z.even f); (split; [lia |]);
      rewrite ?inject_Z_plus; change (inject_Z 1) with 1; split; lra.
  - split; [lia |]. split; lra.
  - split; [lia |]. rewrite inject_Z_plus. change (inject_Z 1) with 1.
    split; lra.
Qed.

Lemma unit_roundoff_value : unit_roundoff == 1 # 9007199254740992.
Proof. reflexivity. Qed.

Lemma binary64_of_positive (y : Q) : 0 < y -> binary64 y = binary64_positive y.
Proof.
  intros H. unfold binary64. apply Qgt_alt in H. rewrite H. reflexivity.
Qed.

Lemma binary64_of_zero (y : Q) : y == 0 -> binary64 y = 0.
Proof.
  intros H. unfold binary64. apply Qeq_alt in H. rewrite H. reflexivity.
Qed.

Lemma binary64_exponent_cases (y : Q) :
  0 < y ->
  (2 ^ (binary64_exponent y + 52) <= y
   /\ binary64_exponent y = (Qlog2_floor y - 52)%Z)
  \/ (binary64_exponent y = (-1074)%Z).
Proof.
  intros Hy. unfold binary64_exponent.
  destruct (Z.max_spec (Qlog2_floor y - 52) (-1074)) as [[_ ->]|[_ ->]].
  - right. reflexivity.
  - left. split; [| reflexivity].
    replace (Qlog2_floor y - 52 + 52)%Z with (Qlog2_floor y) by lia.
    apply Qlog2_floor_spec, Hy.
Qed.

Lemma scaled_back (y : Q) (e : Z) : y / 2 ^ e * 2 ^ e == y.
Proof. field. apply pow2_nonzero. Qed.

(** Rounding does not take a number below an integer that it is not
    below, as long as the integer is a binary64 number. *)
Lemma binary64_ge_integer (k : Z) (y : Q) :
  (0 <= k <= 2 ^ 53)%Z -> inject_Z k <= y -> inject_Z k <= binary64 y.
Proof.
  intros Hk Hy.
  assert (0 <= inject_Z k) as Hk0.
  { change 0 with (inject_Z 0). rewrite <- Zle_Qle. lia. }
  destruct (Qlt_le_dec 0 y) as [Hpos|Hneg].
  2:{ assert (y == 0) as E by lra. rewrite (binary64_of_zero y E). lra. }
  rewrite (binary64_of_positive y Hpos). unfold binary64_positive.
  set (e := binary64_exponent y).
  pose proof (round_half_even_bounds (y / 2 ^ e)) as [HM _].
  set (M := round_half_even (y / 2 ^ e)) in *.
  pose proof (pow2_pos e) as He.
  destruct (Z_le_gt_dec e 0) as [Hle|Hgt].
  - assert (inject_Z (k * 2 ^ (- e)) == inject_Z k * 2 ^ (- e)) as EK.
    { rewrite inject_Z_mult, pow2_inject by lia. reflexivity. }
    assert (inject_Z (k * 2 ^ (- e)) <= y / 2 ^ e) as Hq.
    { rewrite EK, Qpower_opp. unfold Qdiv.
      apply Qmult_le_compat_r; [exact Hy |].
      apply Qlt_le_weak, Qinv_lt_0_compat, He. }
    apply Qfloor_resp_le in Hq. rewrite Qfloor_Z in Hq.
    assert (inject_Z (k * 2 ^ (- e)) <= inject_Z M) as HKM.
    { rewrite <- Zle_Qle. lia. }
    apply (Qmult_le_compat_r _ _ (2 ^ e)) in HKM; [| lra].
    rewrite EK, Qpower_opp in HKM.
    assert (inject_Z k * / 2 ^ e * 2 ^ e == inject_Z k) as E
      by (field; apply pow2_nonzero).
    rewrite E in HKM. exact HKM.
  - destruct (binary64_exponent_cases y Hpos) as [[Hlow _]|E];
      fold e in Hlow || fold e in E; [| lia].
    assert (inject_Z (2 ^ 52) <= y / 2 ^ e) as Hq.
    { apply Qle_shift_div_l; [exact He |].
      rewrite pow2_inject by lia. rewrite <- pow2_plus.
      replace (52 + e)%Z with (e + 52)%Z by lia. exact Hlow. }
    apply Qfloor_resp_le in Hq. rewrite Qfloor_Z in Hq.
    assert (inject_Z (2 ^ 52) <= inject_Z M) as HM'.
    { rewrite <- Zle_Qle. lia. }
    assert (2 <= 2 ^ e) as He2.
    { change 2 with (2 ^ 1) at 1. apply pow2_le. lia. }
    assert (inject_Z k <= inject_Z (2 ^ 53)) as Hk53.
    { rewrite <- Zle_Qle. lia. }
    change (inject_Z (2 ^ 53)) with (inject_Z (2 ^ 52) * 2) in Hk53.
    assert (0 <= inject_Z (2 ^ 52)) by (vm_compute; discriminate).
    apply Qle_trans with (inject_Z (2 ^ 52) * 2); [exact Hk53 |].
    apply Qle_trans with (inject_Z (2 ^ 52) * 2 ^ e).
    + apply Qmult_le_l; [reflexivity | exact He2].
    + apply Qmult_le_compat_r; [exact HM' | lra].
Qed.

(** A number that rounds to [m] or more, for [m] not below 1, is above
    [m] less its [unit_roundoff]-th part. *)
Lemma binary64_ge_inv (m y : Q) :
  1 <= m -> 0 <= y -> m <= binary64 y -> m * (1 - unit_roundoff) < y.
Proof.
  intros Hm Hy Hb.
  pose proof unit_roundoff_value as Hu.
  destruct (Qlt_le_dec 0 y) as [Hpos|Hneg].
  2:{ assert (y == 0) as E by lra. rewrite (binary64_of_zero y E) in Hb. lra. }
  destruct (Qlt_le_dec y m) as [Hlt|Hge].
  2:{ rewrite Hu. nra. }
  rewrite (binary64_of_positive y Hpos) in Hb. unfold binary64_positive in Hb.
  set (e := binary64_exponent y) in *.
  pose proof (round_half_even_bounds (y / 2 ^ e)) as (_ & HM & _).
  set (M := round_half_even (y / 2 ^ e)) in *.
  pose proof (pow2_pos e) as He.
  apply (Qmult_le_compat_r _ _ (2 ^ e)) in HM; [| lra].
  assert ((y / 2 ^ e + (1 # 2)) * 2 ^ e == y + (1 # 2) * 2 ^ e) as E1.
  { field. apply pow2_nonzero. }
  rewrite E1 in HM.
  assert (2 ^ (e + 52) < m) as HP.
  { destruct (binary64_exponent_cases y Hpos) as [[Hlow _]|E];
      fold e in Hlow || fold e in E.
    - lra.
    - rewrite E. apply Qlt_le_trans with 1; [reflexivity | exact Hm]. }
  assert ((1 # 2) * 2 ^ e == 2 ^ (e + 52) * unit_roundoff) as E2.
  { unfold unit_roundoff. rewrite <- pow2_plus.
    replace (e + 52 + -53)%Z with (e + -1)%Z by lia.
    rewrite pow2_plus. change (2 ^ (-1)) with (1 # 2). ring. }
  rewrite E2 in HM. rewrite Hu in *. nra.
Qed.

(** The largest binary64 number below 1. *)
Lemma binary64_below_1 (x : Q) :
  is_binary64 x -> 0 <= x -> x < 1 -> x <= 1 - unit_roundoff.
Proof.
  intros Hb H0 H1. pose proof unit_roundoff_value as Hu.
  destruct (Qlt_le_dec x (1 # 2)) as [Hs|Hl]; [rewrite Hu; lra |].
  assert (0 < x) as Hpos by lra.
  unfold is_binary64 in Hb. rewrite (binary64_of_positive x Hpos) in Hb.
  unfold binary64_positive, binary64_exponent in Hb.
  rewrite (Qlog2_floor_unique x (-1)) in Hb;
    [| change (2 ^ (-1)) with (1 # 2); exact Hl
     | change (2 ^ (-1 + 1)) with 1; exact H1].
  change (Z.max (-1 - 52) (-1074)) with (-53)%Z in Hb.
  set (M := round_half_even (x / 2 ^ (-53))) in *.
  change (2 ^ (-53)) with (1 # 9007199254740992) in Hb.
  assert (inject_Z M < inject_Z 9007199254740992) as HM.
  { change (inject_Z 9007199254740992) with (9007199254740992 # 1). lra. }
  rewrite <- Zlt_Qlt in HM.
  assert (inject_Z M <= inject_Z 9007199254740991) as HM'.
  { rewrite <- Zle_Qle. lia. }
  change (inject_Z 9007199254740991) with (9007199254740991 # 1) in HM'.
  rewrite Hu. lra.
Qed.

Lemma binary64_scaled_range (x : Q) (n : Z) :
  (0 < n)%Z -> 0 <= x -> x <= 1 - unit_roundoff ->
  (0 <= Qfloor (binary64 (x * inject_Z n)) < n)%Z.
Proof.
  intros Hn H0 H1. pose proof unit_roundoff_value as Hu.
  assert (1 <= inject_Z n) as Hn1.
  { change 1 with (inject_Z 1). rewrite <- Zle_Qle. lia. }
  assert (0 <= x * inject_Z n) as Hy by nra.
  split.
  - change 0%Z with (Qfloor 0). apply Qfloor_resp_le.
    apply (binary64_ge_integer 0); [lia | exact Hy].
  - destruct (Z_lt_ge_dec (Qfloor (binary64 (x * inject_Z n))) n)
      as [Hlt|Hge]; [exact Hlt | exfalso].
    assert (inject_Z n <= binary64 (x * inject_Z n)) as Hb.
    { eapply Qle_trans; [| apply Qfloor_le]. rewrite <- Zle_Qle. lia. }
    pose proof (binary64_ge_inv _ _ Hn1 Hy Hb) as Hinv.
    rewrite Hu in *. nra.
Qed.

Lemma binary64_scaled_inner (x : Q) (n j : Z) :
  (0 <= j < n)%Z -> (n <= 2 ^ 53)%Z -> 0 <= x ->
  inject_Z j / inject_Z n <= x ->
  x < inject_Z (j + 1) / inject_Z n - unit_roundoff ->
  Qfloor (binary64 (x * inject_Z n)) = j.
Proof.
  intros Hj Hn H0 Hlo Hhi. pose proof unit_roundoff_value as Hu.
  assert (1 <= inject_Z n) as Hn1.
  { change 1 with (inject_Z 1). rewrite <- Zle_Qle. lia. }
  assert (0 < inject_Z n) as Hnpos by lra.
  assert (0 <= x * inject_Z n) as Hy by nra.
  assert (inject_Z j <= x * inject_Z n) as Hlo'.
  { apply (Qmult_le_compat_r _ _ (inject_Z n)) in Hlo; [| lra].
    assert (E : inject_Z j / inject_Z n * inject_Z n == inject_Z j)
      by (field; lra).
    rewrite E in Hlo. exact Hlo. }
  assert (x * inject_Z n < inject_Z (j + 1) - unit_roundoff * inject_Z n)
    as Hhi'.
  { apply (Qmult_lt_compat_r _ _ (inject_Z n)) in Hhi; [| lra].
    assert (E : (inject_Z (j + 1) / inject_Z n - unit_roundoff) * inject_Z n
                == inject_Z (j + 1) - unit_roundoff * inject_Z n)
      by (field; lra).
    rewrite E in Hhi. exact Hhi. }
  assert (j <= Qfloor (binary64 (x * inject_Z n)))%Z as H1.
  { rewrite <- (Qfloor_Z j). apply Qfloor_resp_le.
    apply binary64_ge_integer; [lia | exact Hlo']. }
  destruct (Z_lt_ge_dec (Qfloor (binary64 (x * inject_Z n))) (j + 1))
    as [Hlt|Hge]; [lia | exfalso].
  assert (inject_Z (j + 1) <= binary64 (x * inject_Z n)) as Hb.
  { eapply Qle_trans; [| apply Qfloor_le]. rewrite <- Zle_Qle. lia. }
  assert (1 <= inject_Z (j + 1)) as Hj1.
  { change 1 with (inject_Z 1). rewrite <- Zle_Qle. lia. }
  assert (inject_Z (j + 1) <= inject_Z n) as Hjn.
  { rewrite <- Zle_Qle. lia. }
  pose proof (binary64_ge_inv _ _ Hj1 Hy Hb) as Hinv.
  rewrite Hu in *. nra.
Qed.

Lemma binary64_scaled_outer (x : Q) (n j : Z) :
  (0 <= j < n)%Z -> (n <= 2 ^ 53)%Z -> 0 <= x ->
  Qfloor (binary64 (x * inject_Z n)) = j ->
  inject_Z j / inject_Z n - unit_roundoff <= x
  /\ x < inject_Z (j + 1) / inject_Z n.
Proof.
  intros Hj Hn H0 E. pose proof unit_roundoff_value as Hu.
  assert (1 <= inject_Z n) as Hn1.
  { change 1 with (inject_Z 1). rewrite <- Zle_Qle. lia. }
  assert (0 < inject_Z n) as Hnpos by lra.
  assert (0 <= x * inject_Z n) as Hy by nra.
  assert (0 <= inject_Z j) as Hj0.
  { change 0 with (inject_Z 0). rewrite <- Zle_Qle. lia. }
  assert (inject_Z j <= inject_Z n) as Hjn.
  { rewrite <- Zle_Qle. lia. }
  split.
  - apply Qle_minus_iff. 
    destruct (Z.eq_dec j 0%Z) as [->|Hnz].
    + change (inject_Z 0) with 0. unfold Qdiv. rewrite Hu. nra.
    + assert (1 <= inject_Z j) as Hj1.
      { change 1 with (inject_Z 1). rewrite <- Zle_Qle. lia. }
      assert (inject_Z j <= binary64 (x * inject_Z n)) as Hb.
      { rewrite <- E. apply Qfloor_le. }
      pose proof (binary64_ge_inv _ _ Hj1 Hy Hb) as Hinv.
      assert (inject_Z j / inject_Z n * inject_Z n == inject_Z j) as Ed
        by (field; lra).
      set (d := inject_Z j / inject_Z n) in *.
      rewrite Hu in *. nra.
  - apply Qnot_le_lt. intros Hge.
    assert (inject_Z (j + 1) <= x * inject_Z n) as Hge'.
    { apply (Qmult_le_compat_r _ _ (inject_Z n)) in Hge; [| lra].
      assert (Ed : inject_Z (j + 1) / inject_Z n * inject_Z n
                   == inject_Z (j + 1)) by (field; lra).
      rewrite Ed in Hge. exact Hge. }
    apply (binary64_ge_integer (j + 1)) in Hge'; [| lia].
    apply Qfloor_resp_le in Hge'. rewrite Qfloor_Z in Hge'. lia.
Qed.

Lemma round_half_even_integer (q : Q) (K : Z) :
  q == inject_Z K -> round_half_even q = K.
Proof.
  intros E. unfold round_half_even. cbv zeta.
  rewrite (Qfloor_comp _ _ E), Qfloor_Z.
  destruct (Qcompare_spec (q - inject_Z K) (1 # 2)) as [H|H|H];
    [rewrite E in H; lra | reflexivity | rewrite E in H; lra].
Qed.

(** The multiples of [2^-53] in the unit interval are binary64 numbers. *)
Lemma dyadic_is_binary64 (k : Z) :
  (0 <= k < 2 ^ 53)%Z -> is_binary64 (inject_Z k * 2 ^ (-53)).
Proof.
  intros Hk. unfold is_binary64.
  destruct (Z.eq_dec k 0%Z) as [->|Hnz].
  { vm_compute. reflexivity. }
  assert (0 < k)%Z as Hpos by lia.
  set (x := inject_Z k * 2 ^ (-53)).
  assert (0 < inject_Z k) as HkQ.
  { change 0 with (inject_Z 0). rewrite <- Zlt_Qlt. exact Hpos. }
  assert (0 < x) as Hx.
  { unfold x. apply Qmult_lt_0_compat; [exact HkQ | apply pow2_pos]. }
  rewrite (binary64_of_positive x Hx). unfold binary64_positive.
  destruct (Z.log2_spec k Hpos) as [Hl1 Hl2].
  pose proof (Z.log2_nonneg k) as Hl0.
  set (lk := Z.log2 k) in *.
  assert (lk < 53)%Z as Hl53.
  { apply (Z.pow_lt_mono_r_iff 2); lia. }
  assert (Qlog2_floor x = (lk - 53)%Z) as Efl.
  { apply Qlog2_floor_unique; unfold x.
    - replace (lk - 53)%Z with (lk + -53)%Z by lia. rewrite pow2_plus.
      apply Qmult_le_compat_r; [| apply Qlt_le_weak, pow2_pos].
      rewrite <- pow2_inject by lia. rewrite <- Zle_Qle. exact Hl1.
    - replace (lk - 53 + 1)%Z with ((lk + 1) + -53)%Z by lia.
      rewrite pow2_plus.
      apply Qmult_lt_compat_r; [apply pow2_pos |].
      rewrite <- pow2_inject by lia. rewrite <- Zlt_Qlt.
      replace (lk + 1)%Z with (Z.succ lk) by lia. exact Hl2. }
  unfold binary64_exponent. rewrite Efl.
  replace (Z.max (lk - 53 - 52) (-1074)) with (lk - 105)%Z by lia.
  assert (x / 2 ^ (lk - 105) == inject_Z (k * 2 ^ (52 - lk))) as Eq.
  { rewrite inject_Z_mult, pow2_inject by lia. unfold x.
    replace (lk - 105)%Z with (-53 + - (52 - lk))%Z by lia.
    rewrite pow2_plus, Qpower_opp. field.
    split; apply pow2_nonzero. }
  rewrite (round_half_even_integer _ _ Eq).
  rewrite inject_Z_mult, pow2_inject by lia. unfold x.
  rewrite <- Qmult_assoc, <- pow2_plus.
  replace (52 - lk + (lk - 105))%Z with (-53)%Z by lia. reflexivity.
Qed.

(** Every interval of a draw, cut short, holds a binary64 number. *)
Lemma shrunk_interval_point (m j : Z) :
  (0 <= j < m)%Z -> (m <= 2 ^ 52)%Z ->
  exists x,
    is_binary64 x /\ 0 <= x /\ x < 1
    /\ inject_Z j / inject_Z m <= x
    /\ x < inject_Z (j + 1) / inject_Z m - unit_roundoff.
Proof.
  intros Hj Hm.
  set (k := ((j * 2 ^ 53 + m - 1) / m)%Z).
  assert (j * 2 ^ 53 <= k * m < j * 2 ^ 53 + m)%Z as Hk.
  { unfold k.
    pose proof (Z.div_mod (j * 2 ^ 53 + m - 1) m ltac:(lia)) as Hdm.
    pose proof (Z.mod_pos_bound (j * 2 ^ 53 + m - 1) m ltac:(lia)) as Hmod.
    nia. }
  assert (0 <= k < 2 ^ 53)%Z as Hk53 by nia.
  exists (inject_Z k * 2 ^ (-53)).
  assert (0 < inject_Z m) as HmQ.
  { change 0 with (inject_Z 0). rewrite <- Zlt_Qlt. lia. }
  assert (inject_Z (j * 2 ^ 53) <= inject_Z (k * m)) as H1
    by (rewrite <- Zle_Qle; lia).
  assert (inject_Z (k * m + m) < inject_Z (j * 2 ^ 53 + 2 ^ 53)) as H2
    by (rewrite <- Zlt_Qlt; lia).
  assert (inject_Z (k * m) < inject_Z (j * 2 ^ 53 + m)) as H3
    by (rewrite <- Zlt_Qlt; lia).
  assert (inject_Z 0 <= inject_Z k) as H4 by (rewrite <- Zle_Qle; lia).
  assert (inject_Z k < inject_Z (2 ^ 53)) as H5 by (rewrite <- Zlt_Qlt; lia).
  rewrite ?inject_Z_plus, ?inject_Z_mult in *.
  change (inject_Z (2 ^ 53)) with (9007199254740992 # 1) in *.
  change (inject_Z 2) with 2 in *. change (inject_Z 0) with 0 in *.
  change (inject_Z 1) with 1.
  unfold unit_roundoff. change (2 ^ (-53)) with (1 # 9007199254740992).
  set (K := inject_Z k) in *. set (J := inject_Z j) in *.
  set (M := inject_Z m) in *.
  split; [apply dyadic_is_binary64; exact Hk53 |].
  split; [lra |]. split; [lra |]. split.
  - apply Qle_shift_div_r; [exact HmQ |].
    assert (K * (1 # 9007199254740992) * M
            == K * M * (1 # 9007199254740992)) as E by ring.
    rewrite E. set (KM := K * M) in *. lra.
  - apply Qlt_minus_iff.
    assert ((J + 1) / M + - (1 # 9007199254740992)
              + - (K * (1 # 9007199254740992))
            == ((J + 1) * (9007199254740992 # 1) - M - K * M)
               / (M * (9007199254740992 # 1))) as E by (field; lra).
    rewrite E. set (KM := K * M) in *.
    apply Qlt_shift_div_l; [lra | lra].
Qed.

(** The numbers 0.2 and 0.6 of the language, and the products
    [0.6 * 3 = 1.7999999999999998] and [0.6666666666666666 * 3 = 2]. *)
Example binary64_samples :
  binary64 (1 # 5) == 3602879701896397 # 18014398509481984
  /\ binary64 (3 # 5) == 5404319552844595 # 9007199254740992
  /\ binary64 ((5404319552844595 # 9007199254740992) * 3)
     == 2026619832316723 # 1125899906842624
  /\ binary64 ((6004799503160661 # 9007199254740992) * 3) == 2.
Proof. repeat split; vm_compute; reflexivity. Qed.

(** Below the smallest normal number the binary64 numbers are the
    multiples of [2^-1074]; half of it is rounded to zero, and three
    halves of it to twice it. *)
Example binary64_subnormal_samples :
  binary64 (2 ^ (-1075)) == 0
  /\ binary64 (3 * 2 ^ (-1075)) == 2 * 2 ^ (-1074).
Proof. split; vm_compute; reflexivity. Qed.

End Binary64Facts.

(** ** The random index *)

Lemma inject_Z_pos (n : Z) : 0 < n -> (0 < inject_Z n)%Q.
Proof. intros Hn. change 0%Q with (inject_Z 0). rewrite <- Zlt_Qlt. exact Hn. Qed.

Lemma random_index_eq (tape : nat -> Q) (bound : Z) (c : nat) :
  random_index tape bound c
  = (Qfloor (binary64 (tape c * inject_Z bound)), S c).
Proof. reflexivity. Qed.

Lemma random_index_range (tape : nat -> Q) (bound : Z) (c : nat) :
  unit_tape tape -> 0 < bound ->
  exists j, random_index tape bound c = (j, S c) /\ 0 <= j < bound.
Proof.
  intros Ht Hb. destruct (Ht c) as (Hd & H0 & H1).
  eexists. split; [reflexivity |].
  apply binary64_scaled_range; [exact Hb | exact H0 |].
  apply binary64_below_1; assumption.
Qed.

(** ** Arrays inside their bounds *)

Lemma arr_get_lookup (a : jsarray) (k : nat) (v : value) :
  a !! k = Some v -> arr_get a (Z.of_nat k) = v.
Proof.
  intros H. unfold arr_get.
  destruct (Z.ltb_spec (Z.of_nat k) 0) as [Hneg|_]; [lia |].
  rewrite Nat2Z.id, H. reflexivity.
Qed.

Lemma arr_set_insert (a : jsarray) (k : nat) (v : value) :
  (k < length a)%nat -> arr_set a (Z.of_nat k) v = <[k := v]> a.
Proof.
  intros H. unfold arr_set, arr_length.
  destruct (Z.ltb_spec (Z.of_nat k) 0) as [Hneg|_]; [lia |].
  destruct (Z.ltb_spec (Z.of_nat k) (Z.of_nat (length a))) as [_|Hge]; [| lia].
  rewrite Nat2Z.id. reflexivity.
Qed.

Lemma swap_list_swap (a : jsarray) (i j : nat) :
  (i < length a)%nat -> (j < length a)%nat ->
  swap a (Z.of_nat i) (Z.of_nat j) = list_swap a i j.
Proof.
  intros Hi Hj. unfold swap, list_swap.
  destruct (lookup_lt_is_Some_2 a i Hi) as [x Hx].
  destruct (lookup_lt_is_Some_2 a j Hj) as [y Hy].
  rewrite Hx, Hy.
  rewrite (arr_get_lookup a i x Hx), (arr_get_lookup a j y Hy).
  rewrite (arr_set_insert a i y Hi).
  rewrite arr_set_insert by (rewrite length_insert; exact Hj).
  reflexivity.
Qed.

Lemma splice1_lookup (a : jsarray) (k : nat) (v : value) :
  a !! k = Some v ->
  splice1 a (Z.of_nat k) = ([v], take k a ++ drop (S k) a).
Proof.
  intros H. pose proof (lookup_lt_Some a k v H) as Hlt.
  unfold splice1, arr_length.
  destruct (Z.ltb_spec (Z.of_nat k) 0) as [Hneg|_]; [lia |].
  rewrite Z.min_l by lia. rewrite Nat2Z.id.
  rewrite (drop_S a v k H). reflexivity.
Qed.

Lemma delete_middle_perm {A} (l : list A) (k : nat) (v : A) :
  l !! k = Some v -> v :: (take k l ++ drop (S k) l) ≡ₚ l.
Proof.
  intros H. rewrite <- (take_drop_middle l k v H) at 3.
  apply Permutation_middle.
Qed.

(** ** Swapping two slots *)

Section ListSwap.

Context {A : Type}.
Implicit Types l : list A.

Lemma list_swap_length l i j : length (list_swap l i j) = length l.
Proof.
  unfold list_swap. destruct (l !! i), (l !! j); try reflexivity.
  rewrite !length_insert. reflexivity.
Qed.

Lemma insert_head_perm l k (x y : A) :
  l !! k = Some y -> y :: <[k := x]> l ≡ₚ x :: l.
Proof.
  intros H. pose proof (lookup_lt_Some l k y H) as Hlt.
  rewrite insert_take_drop by exact Hlt.
  trans (y :: x :: (take k l ++ drop (S k) l)).
  - apply perm_skip. symmetry. apply Permutation_middle.
  - etrans; [apply perm_swap |].
    apply perm_skip. apply delete_middle_perm. exact H.
Qed.

Lemma insert_insert_perm l i j (x y : A) :
  l !! i = Some x -> l !! j = Some y ->
  <[j := x]> (<[i := y]> l) ≡ₚ l.
Proof.
  revert i j. induction l as [|a l IH]; intros i j Hi Hj; [reflexivity |].
  destruct i as [|i], j as [|j]; simpl in *.
  - simplify_eq. reflexivity.
  - simplify_eq. apply insert_head_perm. exact Hj.
  - simplify_eq. apply insert_head_perm. exact Hi.
  - apply perm_skip. apply IH; assumption.
Qed.

Lemma list_swap_perm l i j : list_swap l i j ≡ₚ l.
Proof.
  unfold list_swap.
  destruct (l !! i) as [x|] eqn:Hi; [| reflexivity].
  destruct (l !! j) as [y|] eqn:Hj; [| reflexivity].
  apply insert_insert_perm; assumption.
Qed.

Lemma list_swap_lookup_l l i j x y :
  l !! i = Some x -> l !! j = Some y -> list_swap l i j !! i = Some y.
Proof.
  intros Hi Hj. unfold list_swap. rewrite Hi, Hj.
  pose proof (lookup_lt_Some _ _ _ Hi). pose proof (lookup_lt_Some _ _ _ Hj).
  destruct (decide (i = j)) as [->|Hne].
  - rewrite list_lookup_insert_eq by (rewrite length_insert; assumption).
    congruence.
  - rewrite list_lookup_insert_ne by congruence.
    apply list_lookup_insert_eq. assumption.
Qed.

Lemma list_swap_lookup_other l i j k :
  k <> i -> k <> j -> list_swap l i j !! k = l !! k.
Proof.
  intros Hi Hj. unfold list_swap.
  destruct (l !! i), (l !! j); try reflexivity.
  rewrite !list_lookup_insert_ne by congruence. reflexivity.
Qed.

End ListSwap.

(** ** The shuffle of the specification *)

Section FisherYatesFacts.

Context {A : Type}.
Implicit Types l p : list A.

Lemma fisher_yates_from_perm i draws l : fisher_yates_from i draws l ≡ₚ l.
Proof.
  revert draws l. induction i as [|i IH]; intros draws l; [reflexivity |].
  destruct draws as [|j rest]; [reflexivity |]. simpl.
  rewrite IH. apply list_swap_perm.
Qed.

(** The loop at counter [i] leaves the slots above [i] alone. *)
Lemma fisher_yates_from_above i draws l k :
  valid_draws i draws -> (i < k)%nat ->
  fisher_yates_from i draws l !! k = l !! k.
Proof.
  revert draws l. induction i as [|i IH]; intros draws l Hv Hk;
    [destruct draws; reflexivity |].
  destruct draws as [|j rest]; [reflexivity |].
  destruct Hv as [Hj Hv]. simpl.
  rewrite IH by (assumption || lia).
  apply list_swap_lookup_other; lia.
Qed.

(** The slot [i] receives the element found at the first draw. *)
Lemma fisher_yates_from_top i j rest l :
  valid_draws (S i) (j :: rest) -> (S i < length l)%nat ->
  fisher_yates_from (S i) (j :: rest) l !! S i = l !! j.
Proof.
  intros [Hj Hv] Hi. simpl.
  rewrite fisher_yates_from_above by (assumption || lia).
  destruct (lookup_lt_is_Some_2 l (S i) Hi) as [x Hx].
  destruct (lookup_lt_is_Some_2 l j ltac:(lia)) as [y Hy].
  rewrite Hy. eapply list_swap_lookup_l; eassumption.
Qed.

(** Different draws give different orders. *)
Lemma fisher_yates_from_inj i d1 d2 l :
  NoDup l -> (i < length l)%nat ->
  valid_draws i d1 -> valid_draws i d2 ->
  fisher_yates_from i d1 l = fisher_yates_from i d2 l ->
  d1 = d2.
Proof.
  revert d1 d2 l. induction i as [|i IH]; intros d1 d2 l Hnd Hi H1 H2 E.
  - destruct d1, d2; simpl in *; done.
  - destruct d1 as [|j1 r1]; [done |]. destruct d2 as [|j2 r2]; [done |].
    pose proof (fisher_yates_from_top i j1 r1 l H1 Hi) as T1.
    pose proof (fisher_yates_from_top i j2 r2 l H2 Hi) as T2.
    rewrite E, T2 in T1.
    destruct H1 as [Hj1 H1], H2 as [Hj2 H2].
    destruct (lookup_lt_is_Some_2 l j1 ltac:(lia)) as [x Hx].
    assert (j1 = j2) as <-.
    { rewrite Hx in T1. eapply NoDup_lookup; eassumption. }
    f_equal. simpl in E.
    apply (IH r1 r2 (list_swap l (S i) j1)); try assumption.
    + rewrite list_swap_perm. exact Hnd.
    + rewrite list_swap_length. lia.
Qed.

(** Every order is reached by some draws. *)
Lemma fisher_yates_from_surj i l p :
  NoDup l -> (i < length l)%nat -> p ≡ₚ l ->
  (forall k, (i < k)%nat -> p !! k = l !! k) ->
  exists draws, valid_draws i draws /\ fisher_yates_from i draws l = p.
Proof.
  revert l. induction i as [|i IH]; intros l Hnd Hi Hp Hk.
  - exists []. split; [exact I |]. simpl.
    assert (Hndp : NoDup p) by (rewrite Hp; exact Hnd).
    destruct l as [|y l]; [simpl in Hi; lia |].
    destruct p as [|x p].
    { apply Permutation_length in Hp. done. }
    assert (p = l) as ->.
    { apply list_eq. intros k. apply (Hk (S k)). lia. }
    apply Permutation_cons_inv_l in Hp.
    destruct Hp as (k1 & k2 & E & _).
    destruct k1 as [|z k1]; simpl in E; simplify_eq; [reflexivity |].
    apply NoDup_cons in Hndp. destruct Hndp as [Hx _].
    exfalso. apply Hx. apply elem_of_app. right. apply elem_of_cons. by left.
  - assert (Hndp : NoDup p) by (rewrite Hp; exact Hnd).
    pose proof (Permutation_length Hp) as Hlen.
    destruct (lookup_lt_is_Some_2 p (S i) ltac:(lia)) as [x Hx].
    assert (x ∈ l) as Hin.
    { rewrite <- Hp. eapply list_elem_of_lookup_2. exact Hx. }
    apply list_elem_of_lookup_1 in Hin. destruct Hin as [j Hj].
    assert (j <= S i)%nat as Hle.
    { destruct (decide (j <= S i)%nat) as [|Hgt]; [assumption |].
      assert (p !! j = Some x) as Hpj by (rewrite Hk by lia; exact Hj).
      pose proof (NoDup_lookup p j (S i) x Hndp Hpj Hx). lia. }
    destruct (lookup_lt_is_Some_2 l (S i) Hi) as [y Hy].
    destruct (IH (list_swap l (S i) j)) as (rest & Hv & E).
    + rewrite list_swap_perm. exact Hnd.
    + rewrite list_swap_length. lia.
    + rewrite list_swap_perm. exact Hp.
    + intros k Hik. destruct (decide (k = S i)) as [->|Hne].
      * rewrite Hx. symmetry. eapply list_swap_lookup_l; eassumption.
      * rewrite list_swap_lookup_other by lia. apply Hk. lia.
    + exists (j :: rest). split; [split; assumption |]. exact E.
Qed.

End FisherYatesFacts.

(** ** The shuffle of the code is the shuffle of the specification *)

Lemma shuffle_draws_S (tape : nat -> Q) (i c : nat) :
  shuffle_draws tape (S i) c
  = Z.to_nat (fst (random_index tape (Z.of_nat (S i) + 1) c))
      :: shuffle_draws tape i (S c).
Proof. reflexivity. Qed.

Lemma shuffle_loop_S (tape : nat -> Q) (i : nat) (a : jsarray) (c : nat) :
  shuffle_loop tape (S i) a c
  = let (j, c') := random_index tape (Z.of_nat (S i) + 1) c in
    shuffle_loop tape i (swap a (Z.of_nat (S i)) j) c'.
Proof. reflexivity. Qed.

Lemma shuffle_draws_valid (tape : nat -> Q) (i c : nat) :
  unit_tape tape -> valid_draws i (shuffle_draws tape i c).
Proof.
  intros Ht. revert c. induction i as [|i IH]; intros c; [exact I |].
  rewrite shuffle_draws_S. split; [| apply IH].
  destruct (random_index_range tape (Z.of_nat (S i) + 1) c Ht ltac:(lia))
    as (j & E & Hj).
  rewrite E. simpl fst. lia.
Qed.

Lemma shuffle_loop_fisher_yates (tape : nat -> Q) (i : nat) (a : jsarray)
    (c : nat) :
  unit_tape tape -> (i <= length a - 1)%nat ->
  shuffle_loop tape i a c
  = (fisher_yates_from i (shuffle_draws tape i c) a, (c + i)%nat).
Proof.
  intros Ht. revert a c. induction i as [|i IH]; intros a c Hi.
  - simpl. unfold ret. f_equal. lia.
  - rewrite shuffle_loop_S, shuffle_draws_S.
    destruct (random_index_range tape (Z.of_nat (S i) + 1) c Ht ltac:(lia))
      as (j & E & Hj).
    rewrite E. simpl fst. cbn [fisher_yates_from].
    rewrite <- (Z2Nat.id j) at 1 by lia.
    rewrite swap_list_swap by lia.
    rewrite IH by (rewrite list_swap_length; lia).
    f_equal. lia.
Qed.

Lemma shuffle_fisher_yates (tape : nat -> Q) (a : jsarray) (c : nat) :
  unit_tape tape ->
  shuffle tape a c
  = (fisher_yates (shuffle_draws tape (length a - 1) c) a,
     (c + (length a - 1))%nat).
Proof.
  intros Ht. unfold shuffle, fisher_yates.
  apply shuffle_loop_fisher_yates; [exact Ht | lia].
Qed.

Lemma shuffle_perm (tape : nat -> Q) (a : jsarray) (c : nat) :
  unit_tape tape -> fst (shuffle tape a c) ≡ₚ a.
Proof.
  intros Ht. rewrite shuffle_fisher_yates by exact Ht. simpl.
  apply fisher_yates_from_perm.
Qed.

Lemma shuffle_length (tape : nat -> Q) (a : jsarray) (c : nat) :
  unit_tape tape -> length (fst (shuffle tape a c)) = length a.
Proof. intros Ht. apply Permutation_length, shuffle_perm, Ht. Qed.

(** ** Tapes, draws and orders *)

(** A tape in the box of the draws, cut short, makes [shuffle_loop] take
    these draws; a tape on which it takes them lies in the box,
    lengthened. *)
Lemma shuffle_draws_inner (tape : nat -> Q) (i c : nat) (draws : list nat) :
  unit_tape tape -> Z.of_nat i + 1 <= 2 ^ 53 -> valid_draws i draws ->
  in_box tape c (shrink_box (draws_box i draws)) ->
  shuffle_draws tape i c = draws.
Proof.
  intros Ht. revert c draws. induction i as [|i IH]; intros c draws Hi Hv.
  - destruct draws; [| destruct Hv]. reflexivity.
  - destruct draws as [|j rest]; [destruct Hv |]. destruct Hv as [Hj Hv].
    rewrite shuffle_draws_S, random_index_eq.
    cbn [draws_box shrink_box fmap list_fmap in_box draw_interval fst snd].
    intros [[Hlo Hhi] Hrest].
    rewrite (IH (S c) rest ltac:(lia) Hv Hrest). f_equal.
    destruct (Ht c) as (_ & H0 & _).
    rewrite (binary64_scaled_inner (tape c) (Z.of_nat (S i) + 1)
               (Z.of_nat j)); [apply Nat2Z.id | lia | lia | exact H0 | |].
    + exact Hlo.
    + exact Hhi.
Qed.

Lemma shuffle_draws_outer (tape : nat -> Q) (i c : nat) :
  unit_tape tape -> Z.of_nat i + 1 <= 2 ^ 53 ->
  in_box tape c (widen_box (draws_box i (shuffle_draws tape i c))).
Proof.
  intros Ht. revert c. induction i as [|i IH]; intros c Hi; [exact I |].
  rewrite shuffle_draws_S.
  destruct (random_index_range tape (Z.of_nat (S i) + 1) c Ht ltac:(lia))
    as (q & E & Hq).
  rewrite E. cbn [fst].
  cbn [draws_box widen_box fmap list_fmap in_box draw_interval fst snd].
  split; [| apply IH; lia].
  rewrite random_index_eq in E. injection E as E.
  destruct (Ht c) as (_ & H0 & _).
  rewrite Z2Nat.id by lia.
  exact (binary64_scaled_outer (tape c) (Z.of_nat (S i) + 1) q
           ltac:(lia) ltac:(lia) H0 E).
Qed.

Lemma in_box_ext (tape1 tape2 : nat -> Q) (c : nat) (box : list (Q * Q)) :
  (forall t, (c <= t)%nat -> tape1 t = tape2 t) ->
  in_box tape1 c box -> in_box tape2 c box.
Proof.
  revert c. induction box as [|[lo hi] box IH]; intros c H; simpl; [auto |].
  rewrite <- (H c) by lia. intros [H1 H2]. split; [exact H1 |].
  apply (IH (S c)); [| exact H2]. intros t Ht. apply H. lia.
Qed.

(** The box of any draws, cut short, holds a tape of binary64 numbers. *)
Lemma shrunk_box_tape (i : nat) (draws : list nat) (c : nat) :
  valid_draws i draws -> Z.of_nat i + 1 <= 2 ^ 52 ->
  exists tape,
    unit_tape tape /\ in_box tape c (shrink_box (draws_box i draws)).
Proof.
  revert draws c. induction i as [|i IH]; intros draws c Hv Hi.
  - destruct draws; [| destruct Hv]. exists (fun _ => 0%Q).
    split; [| exact I].
    intros t. split; [| split]; vm_compute; first [reflexivity | discriminate].
  - destruct draws as [|j rest]; [destruct Hv |]. destruct Hv as [Hj Hv].
    destruct (IH rest (S c) Hv ltac:(lia)) as (tape' & Ht' & Hb').
    destruct (shrunk_interval_point (Z.of_nat (S i) + 1) (Z.of_nat j)
                ltac:(lia) ltac:(lia))
      as (x & Hx1 & Hx2 & Hx3 & Hx4 & Hx5).
    exists (fun t => if decide (t = c) then x else tape' t). split.
    + intros t. destruct (decide (t = c)); [auto | apply Ht'].
    + cbn [draws_box shrink_box fmap list_fmap in_box draw_interval fst snd].
      rewrite decide_True by reflexivity. split; [split; assumption |].
      apply (in_box_ext tape'); [| exact Hb'].
      intros t Ht. rewrite decide_False by lia. reflexivity.
Qed.

Lemma draw_interval_width (i j : nat) :
  (snd (draw_interval i j) - fst (draw_interval i j)
   == 1 / inject_Z (Z.of_nat i + 1))%Q.
Proof.
  unfold draw_interval. simpl fst. simpl snd.
  rewrite inject_Z_plus. field.
  intros E. pose proof (inject_Z_pos (Z.of_nat i + 1) ltac:(lia)) as Hp.
  rewrite E in Hp. discriminate.
Qed.

Lemma volume_draws_box (i : nat) (draws : list nat) :
  valid_draws i draws ->
  (volume (draws_box i draws) == 1 / inject_Z (Z.of_nat (fact (S i))))%Q.
Proof.
  revert draws. induction i as [|i IH]; intros draws Hv.
  - destruct draws; [| destruct Hv]. reflexivity.
  - destruct draws as [|j rest]; [destruct Hv |]. destruct Hv as [Hj Hv].
    cbn [draws_box volume].
    pose proof (draw_interval_width (S i) j) as W.
    destruct (draw_interval (S i) j) as [lo hi]. simpl in W.
    rewrite W, (IH rest Hv).
    replace (fact (S (S i))) with (S (S i) * fact (S i))%nat by reflexivity.
    rewrite Nat2Z.inj_mul, inject_Z_mult.
    replace (Z.of_nat (S i) + 1) with (Z.of_nat (S (S i))) by lia.
    assert (H1 : ~ (inject_Z (Z.of_nat (S (S i))) == 0)%Q).
    { intros E. pose proof (inject_Z_pos (Z.of_nat (S (S i))) ltac:(lia)) as Hp.
      rewrite E in Hp. discriminate. }
    assert (H2 : ~ (inject_Z (Z.of_nat (fact (S i))) == 0)%Q).
    { intros E. pose proof (fact_neq_0 (S i)).
      pose proof (inject_Z_pos (Z.of_nat (fact (S i))) ltac:(lia)) as Hp.
      rewrite E in Hp. discriminate. }
    field. split; assumption.
Qed.

(** For a list without repeated elements, every order of the list has a
    box of the volume [1/n!], the same for all orders, the box of the
    draws that lead to it.  The shuffle of the specification, with the
    draws the code makes on a tape, gives the order on every tape of the
    box cut short, and only on tapes of the box lengthened; and the box
    cut short holds a tape as long as the list has at most [2^52]
    elements. *)
Lemma fisher_yates_order_box {A} (l p : list A) :
  NoDup l -> p ≡ₚ l -> Z.of_nat (length l) <= 2 ^ 53 ->
  exists box,
    length box = (length l - 1)%nat /\
    (volume box == 1 / inject_Z (Z.of_nat (fact (length l))))%Q /\
    (forall tape c, unit_tape tape ->
       (in_box tape c (shrink_box box) ->
        fisher_yates (shuffle_draws tape (length l - 1) c) l = p)
       /\ (fisher_yates (shuffle_draws tape (length l - 1) c) l = p ->
           in_box tape c (widen_box box))) /\
    (Z.of_nat (length l) <= 2 ^ 52 ->
     forall c, exists tape,
       unit_tape tape /\ in_box tape c (shrink_box box)).
Proof.
  intros Hnd Hp Hlen.
  destruct l as [|x l].
  { apply Permutation_nil_r in Hp. subst p. exists [].
    split; [reflexivity |]. split; [reflexivity |]. split; [done |].
    intros _ c. exact (shrunk_box_tape 0 [] c I ltac:(lia)). }
  destruct (fisher_yates_from_surj (length (x :: l) - 1) (x :: l) p Hnd)
    as (draws & Hv & E); [simpl; lia | exact Hp | |].
  { intros k Hk. apply Permutation_length in Hp.
    rewrite !lookup_ge_None_2 by (simpl in *; lia). reflexivity. }
  assert (Z.of_nat (length (x :: l) - 1) + 1 <= 2 ^ 53) as Hi
    by (simpl in *; lia).
  exists (draws_box (length (x :: l) - 1) draws).
  split; [| split; [| split]].
  - clear E Hi. revert Hv. generalize (length (x :: l) - 1)%nat as i.
    intros i. revert draws. induction i as [|i IH]; intros [|j rest] Hv;
      simpl in *; try done.
    f_equal. apply IH. tauto.
  - rewrite (volume_draws_box _ _ Hv).
    replace (S (length (x :: l) - 1)) with (length (x :: l))
      by (simpl; lia).
    reflexivity.
  - intros tape c Ht. unfold fisher_yates. split.
    + intros Hin.
      rewrite (shuffle_draws_inner tape _ c draws Ht Hi Hv Hin). exact E.
    + intros E'. rewrite <- E in E'.
      eapply fisher_yates_from_inj in E'; try eassumption.
      * rewrite <- E'. apply shuffle_draws_outer; assumption.
      * simpl; lia.
      * apply shuffle_draws_valid, Ht.
  - intros Hsmall c. apply shrunk_box_tape; [exact Hv |].
    simpl in *. lia.
Qed.

Lemma shuffle_order_box (a p : jsarray) :
  NoDup a -> p ≡ₚ a -> Z.of_nat (length a) <= 2 ^ 53 ->
  exists box,
    length box = (length a - 1)%nat /\
    (volume box == 1 / inject_Z (Z.of_nat (fact (length a))))%Q /\
    (forall tape c, unit_tape tape ->
       (in_box tape c (shrink_box box) -> fst (shuffle tape a c) = p)
       /\ (fst (shuffle tape a c) = p -> in_box tape c (widen_box box))) /\
    (Z.of_nat (length a) <= 2 ^ 52 ->
     forall c, exists tape, unit_tape tape /\ fst (shuffle tape a c) = p).
Proof.
  intros Hnd Hp Hlen.
  destruct (fisher_yates_order_box a p Hnd Hp Hlen)
    as (box & Hl & Hvol & Hbox & Htape).
  assert (forall tape c, unit_tape tape ->
            (in_box tape c (shrink_box box) -> fst (shuffle tape a c) = p)
            /\ (fst (shuffle tape a c) = p ->
                in_box tape c (widen_box box))) as Hbox'.
  { intros tape c Ht. rewrite shuffle_fisher_yates by exact Ht.
    exact (Hbox tape c Ht). }
  exists box. split; [exact Hl |]. split; [exact Hvol |].
  split; [exact Hbox' |].
  intros Hsmall c. destruct (Htape Hsmall c) as (tape & Ht & Hin).
  exists tape. split; [exact Ht |]. exact (proj1 (Hbox' tape c Ht) Hin).
Qed.

(** The same for the positions of any array, repeated elements or not. *)
Lemma shuffle_order_positions_box (n : nat) (order : list nat) :
  order ≡ₚ seq 0 n -> Z.of_nat n <= 2 ^ 53 ->
  exists box,
    length box = (n - 1)%nat /\
    (volume box == 1 / inject_Z (Z.of_nat (fact n)))%Q /\
    (forall tape c, unit_tape tape ->
       (in_box tape c (shrink_box box) -> shuffle_order tape n c = order)
       /\ (shuffle_order tape n c = order ->
           in_box tape c (widen_box box))) /\
    (Z.of_nat n <= 2 ^ 52 ->
     forall c, exists tape, unit_tape tape /\ shuffle_order tape n c = order).
Proof.
  intros Hp Hn.
  destruct (fisher_yates_order_box (seq 0 n) order (NoDup_seq 0 n) Hp)
    as (box & Hl & Hvol & Hbox & Htape); [rewrite length_seq; exact Hn |].
  rewrite length_seq in Hl, Hvol, Htape.
  assert (forall tape c, unit_tape tape ->
            (in_box tape c (shrink_box box) ->
             shuffle_order tape n c = order)
            /\ (shuffle_order tape n c = order ->
                in_box tape c (widen_box box))) as Hbox'.
  { intros tape c Ht. unfold shuffle_order.
    specialize (Hbox tape c Ht). rewrite length_seq in Hbox. exact Hbox. }
  exists box. split; [exact Hl |]. split; [exact Hvol |].
  split; [exact Hbox' |].
  intros Hsmall c. destruct (Htape Hsmall c) as (tape & Ht & Hin).
  exists tape. split; [exact Ht |]. exact (proj1 (Hbox' tape c Ht) Hin).
Qed.

Lemma list_swap_fmap {A B} (f : A -> B) (l : list A) (i j : nat) :
  f <$> list_swap l i j = list_swap (f <$> l) i j.
Proof.
  unfold list_swap. rewrite !list_lookup_fmap.
  destruct (l !! i) as [x|], (l !! j) as [y|]; simpl; try reflexivity.
  rewrite !list_fmap_insert. reflexivity.
Qed.

Lemma fisher_yates_from_fmap {A B} (f : A -> B) (i : nat)
    (draws : list nat) (l : list A) :
  f <$> fisher_yates_from i draws l = fisher_yates_from i draws (f <$> l).
Proof.
  revert draws l. induction i as [|i IH]; intros draws l; [reflexivity |].
  destruct draws as [|j rest]; [reflexivity |]. simpl.
  rewrite IH, list_swap_fmap. reflexivity.
Qed.

Lemma array_reads_positions (a : jsarray) :
  (fun k => arr_get a (Z.of_nat k)) <$> seq 0 (length a) = a.
Proof.
  apply list_eq. intros k. rewrite list_lookup_fmap.
  destruct (a !! k) as [v|] eqn:Hk.
  - rewrite lookup_seq_lt by (eapply lookup_lt_Some; exact Hk). simpl.
    rewrite (arr_get_lookup a k v Hk). reflexivity.
  - rewrite lookup_ge_None_2; [reflexivity |].
    rewrite length_seq. apply lookup_ge_None_1. exact Hk.
Qed.

(** The result of [shuffle] reads the array in the order [shuffle_order]
    gives to its positions. *)
Lemma shuffle_reads_order (tape : nat -> Q) (a : jsarray) (c : nat) :
  unit_tape tape ->
  fst (shuffle tape a c)
  = (fun k => arr_get a (Z.of_nat k)) <$> shuffle_order tape (length a) c.
Proof.
  intros Ht. rewrite shuffle_fisher_yates by exact Ht. cbn [fst].
  unfold shuffle_order, fisher_yates.
  rewrite fisher_yates_from_fmap, length_seq, array_reads_positions.
  reflexivity.
Qed.

(** ** One draw *)

Lemma draw_from_pool (tape : nat -> Q) (pool : jsarray) (c : nat) :
  unit_tape tape -> pool <> [] ->
  exists k v,
    random_index tape (arr_length pool) c = (Z.of_nat k, S c) /\
    pool !! k = Some v /\
    splice1 pool (Z.of_nat k) = ([v], take k pool ++ drop (S k) pool).
Proof.
  intros Ht Hne.
  assert (0 < arr_length pool) as Hlen.
  { unfold arr_length. destruct pool; [done | simpl; lia]. }
  destruct (random_index_range tape _ c Ht Hlen) as (j & E & Hj).
  unfold arr_length in Hj.
  destruct (lookup_lt_is_Some_2 pool (Z.to_nat j) ltac:(lia)) as [v Hv].
  exists (Z.to_nat j), v. rewrite Z2Nat.id by lia.
  split; [exact E |]. split; [exact Hv |].
  rewrite <- (Z2Nat.id j) at 1 by lia. apply splice1_lookup. exact Hv.
Qed.

(** A draw from a pool that is not empty. *)
Lemma getNextWord_draw (tape : nat -> Q) (s : PracticeSession) (c : nat) :
  unit_tape tape -> remainingWords s <> [] ->
  exists w rest,
    getNextWord tape s c
    = ((w, {| allWords := allWords s;
              remainingWords := rest;
              wordsSpoken := wordsSpoken s + 1;
              currentWord := w |}), S c) /\
    w :: rest ≡ₚ remainingWords s.
Proof.
  intros Ht Hne.
  destruct (draw_from_pool tape (remainingWords s) c Ht Hne)
    as (k & v & E & Hv & Hs).
  exists v, (take k (remainingWords s) ++ drop (S k) (remainingWords s)).
  split; [| apply delete_middle_perm; exact Hv].
  unfold getNextWord, bind.
  destruct (Z.eqb_spec (arr_length (remainingWords s)) 0) as [H0|_].
  { unfold arr_length in H0. destruct (remainingWords s); [done | simpl in H0; lia]. }
  unfold ret at 1. rewrite E, Hs. reflexivity.
Qed.

(** When the pool is empty, the call proceeds as a call on the session
    with its pool refilled by [shuffle], with the tape after the
    shuffle. *)
Lemma getNextWord_reshuffle (tape : nat -> Q) (s : PracticeSession)
    (c : nat) :
  unit_tape tape -> allWords s <> [] -> remainingWords s = [] ->
  getNextWord tape s c
  = getNextWord tape (with_pool s (fst (shuffle tape (allWords s) c)))
      (snd (shuffle tape (allWords s) c)).
Proof.
  intros Ht Hne He.
  pose proof (shuffle_length tape (allWords s) c Ht) as Hlen.
  unfold getNextWord, bind. rewrite He. simpl remainingWords.
  change (arr_length [] =? 0) with true. cbv iota.
  destruct (shuffle tape (allWords s) c) as [pool c1]. simpl in *.
  destruct (Z.eqb_spec (arr_length pool) 0) as [H0|_]; [| reflexivity].
  unfold arr_length in H0. destruct (allWords s); [done | simpl in Hlen; lia].
Qed.

Lemma consistent_nonempty_pool_step (s : PracticeSession) (w : value)
    (rest pool : jsarray) :
  allWords s <> [] -> pool ⊆+ allWords s -> w :: rest ≡ₚ pool ->
  w ∈ allWords s /\ rest ⊆+ allWords s.
Proof.
  intros Hne Hsub Hp. split.
  - eapply elem_of_submseteq; [| exact Hsub]. rewrite <- Hp. left.
  - etrans; [| exact Hsub]. rewrite <- Hp. apply submseteq_cons. reflexivity.
Qed.

(** Any call of [getNextWord] on a consistent session. *)
Lemma getNextWord_step (tape : nat -> Q) (s : PracticeSession) (c : nat) :
  unit_tape tape -> consistent s ->
  exists w rest c',
    getNextWord tape s c
    = ((w, {| allWords := allWords s;
              remainingWords := rest;
              wordsSpoken := wordsSpoken s + 1;
              currentWord := w |}), c') /\
    w ∈ allWords s /\ rest ⊆+ allWords s /\
    (remainingWords s <> [] -> w :: rest ≡ₚ remainingWords s) /\
    (remainingWords s = [] -> w :: rest ≡ₚ allWords s).
Proof.
  intros Ht [Hne Hsub].
  destruct (decide (remainingWords s = [])) as [He|Hpool].
  - rewrite (getNextWord_reshuffle tape s c Ht Hne He).
    pose proof (shuffle_perm tape (allWords s) c Ht) as Hp.
    destruct (shuffle tape (allWords s) c) as [pool c1]. simpl in *.
    assert (pool <> []) as Hpne.
    { intros ->. apply Permutation_nil_l in Hp. auto. }
    destruct (getNextWord_draw tape (with_pool s pool) c1 Ht Hpne)
      as (w & rest & E & Hw).
    simpl in *. exists w, rest, (S c1). split; [exact E |].
    destruct (consistent_nonempty_pool_step s w rest pool Hne) as [H1 H2];
      [rewrite Hp; reflexivity | exact Hw |].
    repeat split; try assumption; [done |].
    intros _. rewrite Hw. exact Hp.
  - destruct (getNextWord_draw tape s c Ht Hpool) as (w & rest & E & Hw).
    exists w, rest, (S c). split; [exact E |].
    destruct (consistent_nonempty_pool_step s w rest _ Hne Hsub Hw) as [H1 H2].
    repeat split; try assumption; done.
Qed.

Lemma demo_tape_unit : unit_tape demo_tape.
Proof.
  intros c. unfold demo_tape.
  pose proof (Nat.mod_upper_bound c 5 ltac:(lia)) as H.
  destruct (c mod 5)%nat as [|[|[|[|[|k]]]]]; [| | | | | lia];
    (split; [| split]); vm_compute; first [reflexivity | discriminate].
Qed.

(** The fields [getNextWord] writes, on any session and any tape. *)
Lemma getNextWord_fields (tape : nat -> Q) (s : PracticeSession) (c : nat) :
  currentWord (snd (fst (getNextWord tape s c))) = fst (fst (getNextWord tape s c))
  /\ wordsSpoken (snd (fst (getNextWord tape s c))) = wordsSpoken s + 1
  /\ allWords (snd (fst (getNextWord tape s c))) = allWords s.
Proof.
  unfold getNextWord, bind.
  destruct (if arr_length (remainingWords s) =? 0
            then shuffle tape (allWords s) else ret (remainingWords s))
    as [pool c1].
  destruct (random_index tape (arr_length pool) c1) as [j c2].
  destruct (splice1 pool j) as [removed rest]. simpl. auto.
Qed.

(** ** Several draws *)

Lemma next_words_S (tape : nat -> Q) (k : nat) (s : PracticeSession)
    (c : nat) :
  next_words tape (S k) s c
  = let '((w, s1), c1) := getNextWord tape s c in
    let '((ws, s2), c2) := next_words tape k s1 c1 in
    ((w :: ws, s2), c2).
Proof.
  simpl. unfold bind, ret.
  destruct (getNextWord tape s c) as [[w s1] c1]. simpl.
  destruct (next_words tape k s1 c1) as [[ws s2] c2]. reflexivity.
Qed.

Lemma next_words_app (tape : nat -> Q) (a b : nat) (s : PracticeSession)
    (c : nat) :
  next_words tape (a + b) s c
  = let '((ws1, s1), c1) := next_words tape a s c in
    let '((ws2, s2), c2) := next_words tape b s1 c1 in
    ((ws1 ++ ws2, s2), c2).
Proof.
  revert s c. induction a as [|a IH]; intros s c.
  - simpl. unfold ret. destruct (next_words tape b s c) as [[ws2 s2] c2].
    reflexivity.
  - change (S a + b)%nat with (S (a + b)). rewrite !next_words_S.
    destruct (getNextWord tape s c) as [[w s1] c1].
    rewrite IH.
    destruct (next_words tape a s1 c1) as [[ws1 s2] c2].
    destruct (next_words tape b s2 c2) as [[ws2 s3] c3]. reflexivity.
Qed.

(** Draws that do not exhaust the pool take their words from the pool. *)
Lemma next_words_within (tape : nat -> Q) (k : nat) (s : PracticeSession)
    (c : nat) :
  unit_tape tape -> (k <= length (remainingWords s))%nat ->
  exists ws s',
    next_words tape k s c = ((ws, s'), (c + k)%nat) /\
    ws ++ remainingWords s' ≡ₚ remainingWords s /\
    allWords s' = allWords s /\
    wordsSpoken s' = wordsSpoken s + Z.of_nat k /\
    length ws = k.
Proof.
  intros Ht. revert s c. induction k as [|k IH]; intros s c Hk.
  - exists [], s. simpl. unfold ret.
    repeat split; try reflexivity; f_equal; lia.
  - assert (remainingWords s <> []) as Hne.
    { intros E. rewrite E in Hk. simpl in Hk. lia. }
    destruct (getNextWord_draw tape s c Ht Hne) as (w & rest & E & Hw).
    pose proof (Permutation_length Hw) as Hlen. simpl in Hlen.
    destruct (IH {| allWords := allWords s; remainingWords := rest;
                    wordsSpoken := wordsSpoken s + 1; currentWord := w |}
                 (S c) ltac:(simpl; lia))
      as (ws & s' & E' & Hp & Ha & Hc & Hl).
    simpl in E', Hp, Ha, Hc. exists (w :: ws), s'.
    rewrite next_words_S, E, E'.
    repeat split.
    + f_equal. lia.
    + simpl. rewrite Hp. exact Hw.
    + exact Ha.
    + lia.
    + simpl. lia.
Qed.

(** One whole cycle: as many draws as there are words, from a cycle
    start. *)
Lemma next_words_cycle (tape : nat -> Q) (s : PracticeSession) (c : nat) :
  unit_tape tape -> allWords s <> [] -> at_cycle_start s ->
  exists ws s' c',
    next_words tape (length (allWords s)) s c = ((ws, s'), c') /\
    ws ≡ₚ allWords s /\
    remainingWords s' = [] /\
    allWords s' = allWords s /\
    wordsSpoken s' = wordsSpoken s + Z.of_nat (length (allWords s)).
Proof.
  intros Ht Hne [He|Hp].
  - destruct (allWords s) as [|x l] eqn:Ea; [done |].
    assert (consistent s) as Hc.
    { split; [congruence |]. rewrite He. apply submseteq_nil_l. }
    destruct (getNextWord_step tape s c Ht Hc)
      as (w & rest & c1 & E & _ & _ & _ & Hw).
    specialize (Hw He). rewrite Ea in Hw, E.
    pose proof (Permutation_length Hw) as Hlen. simpl in Hlen.
    destruct (next_words_within tape (length l)
                {| allWords := x :: l; remainingWords := rest;
                   wordsSpoken := wordsSpoken s + 1; currentWord := w |}
                c1 Ht ltac:(simpl; lia))
      as (ws & s' & E' & Hp & Ha & Hcnt & Hl).
    simpl in E', Hp, Ha, Hcnt. exists (w :: ws), s', (c1 + length l)%nat.
    change (length (x :: l)) with (S (length l)). rewrite next_words_S, E, E'.
    assert (remainingWords s' = []) as Hnil.
    { apply Permutation_length in Hp. rewrite length_app in Hp.
      destruct (remainingWords s'); [reflexivity | simpl in Hp; lia]. }
    rewrite Hnil, app_nil_r in Hp.
    repeat split; try assumption.
    + rewrite Hp. exact Hw.
    + lia.
  - pose proof (Permutation_length Hp) as Hlen.
    destruct (next_words_within tape (length (allWords s)) s c Ht
                ltac:(lia))
      as (ws & s' & E' & Hp' & Ha & Hcnt & Hl).
    exists ws, s', (c + length (allWords s))%nat.
    assert (remainingWords s' = []) as Hnil.
    { apply Permutation_length in Hp'. rewrite length_app in Hp'.
      destruct (remainingWords s'); [reflexivity | simpl in Hp'; lia]. }
    rewrite Hnil, app_nil_r in Hp'.
    repeat split; try assumption. rewrite Hp'. exact Hp.
Qed.

(** Any number of whole cycles ends at a cycle start. *)
Lemma next_words_cycles (tape : nat -> Q) (m : nat) (s : PracticeSession)
    (c : nat) :
  unit_tape tape -> allWords s <> [] -> at_cycle_start s ->
  exists ws s' c',
    next_words tape (m * length (allWords s)) s c = ((ws, s'), c') /\
    at_cycle_start s' /\
    allWords s' = allWords s /\
    length ws = (m * length (allWords s))%nat.
Proof.
  intros Ht. revert s c. induction m as [|m IH]; intros s c Hne Hs.
  - exists [], s, c. repeat split; try reflexivity. exact Hs.
  - destruct (next_words_cycle tape s c Ht Hne Hs)
      as (ws1 & s1 & c1 & E1 & Hp1 & Hnil & Ha1 & _).
    destruct (IH s1 c1) as (ws2 & s2 & c2 & E2 & Hs2 & Ha2 & Hl2).
    { rewrite Ha1. exact Hne. }
    { left. exact Hnil. }
    rewrite Ha1 in E2, Hl2.
    exists (ws1 ++ ws2), s2, c2.
    change (S m * length (allWords s))%nat
      with (length (allWords s) + m * length (allWords s))%nat.
    rewrite next_words_app, E1, E2.
    repeat split; try assumption.
    + congruence.
    + rewrite length_app, Hl2. apply Permutation_length in Hp1. lia.
Qed.

(** Any number of draws on a consistent session returns words of the
    word list only. *)
Lemma next_words_elements (tape : nat -> Q) (k : nat) (s : PracticeSession)
    (c : nat) :
  unit_tape tape -> consistent s ->
  exists ws s' c',
    next_words tape k s c = ((ws, s'), c') /\
    length ws = k /\
    (forall w, w ∈ ws -> w ∈ allWords s) /\
    consistent s' /\
    allWords s' = allWords s.
Proof.
  intros Ht. revert s c. induction k as [|k IH]; intros s c Hc.
  - exists [], s, c.
    split; [reflexivity |]. split; [reflexivity |].
    split; [intros w Hw; inversion Hw |]. split; [exact Hc | reflexivity].
  - destruct (getNextWord_step tape s c Ht Hc)
      as (w & rest & c1 & E & Hin & Hsub & _).
    destruct (IH {| allWords := allWords s; remainingWords := rest;
                    wordsSpoken := wordsSpoken s + 1; currentWord := w |} c1)
      as (ws & s' & c' & E' & Hl & Hall & Hc' & Ha).
    { split; [apply Hc | exact Hsub]. }
    simpl in E', Hall, Ha. exists (w :: ws), s', c'.
    rewrite next_words_S, E, E'.
    repeat split; try assumption.
    + simpl. lia.
    + intros v Hv. apply elem_of_cons in Hv. destruct Hv as [->|Hv]; auto.
    + apply Hc'.
    + apply Hc'.
Qed.

(** ** Any call *)

(** The counter and the word list after one call, on any session and any
    tape. *)
Lemma call_fields (tape : nat -> Q) (o : op) (s : PracticeSession)
    (c : nat) :
  allWords (snd (fst (call tape o s c))) = allWords s /\
  match o with
  | NextWord =>
      wordsSpoken (snd (fst (call tape o s c))) = wordsSpoken s + 1
  | Reset => wordsSpoken (snd (fst (call tape o s c))) = 0
  | _ => snd (fst (call tape o s c)) = s /\ snd (call tape o s c) = c
  end.
Proof.
  destruct o; try (split; [reflexivity | split; reflexivity]).
  - pose proof (getNextWord_fields tape s c) as (_ & Hn & Ha).
    unfold call, bind, ret.
    destruct (getNextWord tape s c) as [[w s1] c1]. simpl in *. auto.
  - unfold call, bind, ret, reset, bind, ret.
    destruct (shuffle tape (allWords s) c) as [pool c1]. simpl. auto.
Qed.

Lemma calls_cons (tape : nat -> Q) (o : op) (os : list op)
    (s : PracticeSession) (c : nat) :
  calls tape (o :: os) s c
  = let '((a, s1), c1) := call tape o s c in
    let '((rs, s2), c2) := calls tape os s1 c1 in
    ((a :: rs, s2), c2).
Proof.
  simpl. unfold bind, ret.
  destruct (call tape o s c) as [[a s1] c1]. simpl.
  destruct (calls tape os s1 c1) as [[rs s2] c2]. reflexivity.
Qed.

Lemma calls_fields (tape : nat -> Q) (os : list op) (s : PracticeSession)
    (c : nat) :
  allWords (snd (fst (calls tape os s c))) = allWords s /\
  wordsSpoken (snd (fst (calls tape os s c)))
  = spoken_after (wordsSpoken s) os.
Proof.
  revert s c. induction os as [|o os IH]; intros s c; [done |].
  rewrite calls_cons.
  pose proof (call_fields tape o s c) as [Ha Hn].
  destruct (call tape o s c) as [[a s1] c1]. simpl in Ha, Hn.
  specialize (IH s1 c1).
  destruct (calls tape os s1 c1) as [[rs s2] c2]. simpl in *.
  destruct IH as [IHa IHn]. split; [congruence |].
  rewrite IHn.
  destruct o; simpl; try (rewrite Hn; reflexivity);
    destruct Hn as [-> _]; reflexivity.
Qed.

(** One call on a consistent session, on a tape in the unit interval. *)
Lemma call_step (tape : nat -> Q) (o : op) (s : PracticeSession) (c : nat) :
  unit_tape tape -> consistent s ->
  consistent (snd (fst (call tape o s c))) /\
  match o with
  | NextWord =>
      currentWord (snd (fst (call tape o s c))) ∈ allWords s /\
      fst (fst (call tape o s c))
      = AWord (currentWord (snd (fst (call tape o s c))))
  | Reset => currentWord (snd (fst (call tape o s c))) = Null
  | _ => snd (fst (call tape o s c)) = s
  end.
Proof.
  intros Ht Hc.
  destruct o; try (split; [exact Hc | reflexivity]).
  - destruct (getNextWord_step tape s c Ht Hc)
      as (w & rest & c' & E & Hin & Hsub & _).
    unfold call, bind, ret. rewrite E. simpl.
    split; [split; [apply Hc | exact Hsub] | split; [exact Hin | reflexivity]].
  - pose proof (shuffle_perm tape (allWords s) c Ht) as Hp.
    unfold call, bind, ret, reset, bind, ret.
    destruct (shuffle tape (allWords s) c) as [pool c1]. simpl in *.
    split; [| reflexivity].
    split; [apply Hc | apply Permutation_submseteq, Hp].
Qed.

Lemma calls_invariant (tape : nat -> Q) (os : list op) (d : bool)
    (s : PracticeSession) (c : nat) :
  unit_tape tape -> consistent s -> current_word_ok d s ->
  consistent (snd (fst (calls tape os s c))) /\
  current_word_ok (drawn_since_reset d os) (snd (fst (calls tape os s c))).
Proof.
  intros Ht. revert d s c. induction os as [|o os IH]; intros d s c Hc Hd;
    [split; assumption |].
  rewrite calls_cons.
  pose proof (call_step tape o s c Ht Hc) as [Hc1 Ho].
  pose proof (call_fields tape o s c) as [Ha _].
  destruct (call tape o s c) as [[a s1] c1]. simpl in Hc1, Ho, Ha.
  assert (current_word_ok (drawn_since_reset d [o]) s1) as Hd1.
  { destruct o; simpl; try (rewrite Ho; exact Hd).
    - rewrite Ha. apply Ho.
    - exact Ho. }
  specialize (IH (drawn_since_reset d [o]) s1 c1 Hc1 Hd1).
  destruct (calls tape os s1 c1) as [[rs s2] c2].
  destruct o; exact IH.
Qed.

(** * The claims *)

(** ** Construction *)

(** C2: constructing a session with the empty word list throws an error
    whose message is "Cannot create practice session with empty word
    list"; the outcome is the thrown error alone, no session comes with
    it, and the tape is not read. *)
Theorem constructor_rejects_empty_list (tape : nat -> Q) (c : nat) :
  new_PracticeSession tape (WArray []) c
  = (Throw (Error "Cannot create practice session with empty word list"), c).
Proof. reflexivity. Qed.

(** C10: [null] and [undefined] as the word list are refused with the very
    error of the empty list, and no session comes with it. *)
Theorem constructor_rejects_null_and_undefined (tape : nat -> Q) (c : nat) :
  new_PracticeSession tape WNull c
  = (Throw (Error "Cannot create practice session with empty word list"), c)
  /\ new_PracticeSession tape WUndefined c
     = (Throw (Error "Cannot create practice session with empty word list"), c)
  /\ new_PracticeSession tape WNull c = new_PracticeSession tape (WArray []) c
  /\ new_PracticeSession tape WUndefined c
     = new_PracticeSession tape (WArray []) c.
Proof. repeat split; reflexivity. Qed.

(** What the constructor builds from a list that is not empty. *)
Lemma new_PracticeSession_ok (tape : nat -> Q) (ws : jsarray) (c : nat) :
  ws <> [] ->
  new_PracticeSession tape (WArray ws) c
  = (Normal {| allWords := ws;
               remainingWords := fst (shuffle tape ws c);
               wordsSpoken := 0;
               currentWord := Null |},
     snd (shuffle tape ws c)).
Proof.
  intros Hne. unfold new_PracticeSession, bind. cbn [js_not orb].
  destruct (Z.eqb_spec (arr_length ws) 0) as [H0|_].
  { unfold arr_length in H0. destruct ws; [done | simpl in H0; lia]. }
  destruct (shuffle tape ws c). reflexivity.
Qed.

(** ** Repeat *)

(** C4: after a [getNextWord()] call that returned [w], any number [k] of
    [getCurrentWord()] calls return [w] each, and leave the session as the
    draw left it: the pool, the counter and all other fields. The tape is
    not read either. *)
Theorem repeat_returns_word_and_keeps_state (tape : nat -> Q)
    (s : PracticeSession) (c : nat) (k : nat) :
  let '((w, s1), c1) := getNextWord tape s c in
  repeat_words k s1 c1 = ((replicate k w, s1), c1)
  /\ fst (fst (getWordsSpoken (snd (fst (repeat_words k s1 c1))) c1))
     = fst (fst (getWordsSpoken s1 c1))
  /\ fst (fst (getRemainingCount (snd (fst (repeat_words k s1 c1))) c1))
     = fst (fst (getRemainingCount s1 c1)).
Proof.
  pose proof (getNextWord_fields tape s c) as (Hw & _ & _).
  destruct (getNextWord tape s c) as [[w s1] c1]. simpl in Hw.
  assert (E : repeat_words k s1 c1 = ((replicate k w, s1), c1)).
  { induction k as [|k IH]; [reflexivity |].
    simpl. unfold bind, getCurrentWord, ret in *. simpl.
    rewrite IH. simpl. rewrite Hw. reflexivity. }
  rewrite E. auto.
Qed.

(** ** Reset *)

(** C7: on a session with words, [reset()] leaves the very session that
    the constructor builds from the same word list on the same tape: the
    word list is kept, the pool is a new permutation of it, the counter is
    0 and the current word is [null]. *)
Theorem reset_is_construct (tape : nat -> Q) (s : PracticeSession)
    (c : nat) :
  unit_tape tape -> allWords s <> [] ->
  new_PracticeSession tape (WArray (allWords s)) c
  = (Normal (snd (fst (reset tape s c))), snd (reset tape s c))
  /\ allWords (snd (fst (reset tape s c))) = allWords s
  /\ remainingWords (snd (fst (reset tape s c))) ≡ₚ allWords s
  /\ wordsSpoken (snd (fst (reset tape s c))) = 0
  /\ currentWord (snd (fst (reset tape s c))) = Null.
Proof.
  intros Ht Hne. rewrite new_PracticeSession_ok by exact Hne.
  pose proof (shuffle_perm tape (allWords s) c Ht) as Hp.
  unfold reset, bind.
  destruct (shuffle tape (allWords s) c) as [pool c1]. simpl in *.
  repeat split. exact Hp.
Qed.

Lemma reset_is_construct_witness :
  new_PracticeSession demo_tape (WArray (allWords demo_session)) 7%nat
  = (Normal (snd (fst (reset demo_tape demo_session 7%nat))),
     snd (reset demo_tape demo_session 7%nat))
  /\ allWords (snd (fst (reset demo_tape demo_session 7%nat)))
     = allWords demo_session
  /\ remainingWords (snd (fst (reset demo_tape demo_session 7%nat)))
     ≡ₚ allWords demo_session
  /\ wordsSpoken (snd (fst (reset demo_tape demo_session 7%nat))) = 0
  /\ currentWord (snd (fst (reset demo_tape demo_session 7%nat))) = Null.
Proof.
  apply (reset_is_construct demo_tape demo_session 7%nat).
  - exact demo_tape_unit.
  - discriminate.
Defined.

(** ** Cycles *)

Lemma new_PracticeSession_inv (tape : nat -> Q) (words : words_arg)
    (s : PracticeSession) (c0 c : nat) :
  new_PracticeSession tape words c0 = (Normal s, c) ->
  exists ws,
    words = WArray ws /\ ws <> [] /\
    s = {| allWords := ws;
           remainingWords := fst (shuffle tape ws c0);
           wordsSpoken := 0;
           currentWord := Null |} /\
    c = snd (shuffle tape ws c0).
Proof.
  intros E. destruct words as [| |ws]; try discriminate E.
  destruct ws as [|x ws]; [discriminate E |].
  rewrite new_PracticeSession_ok in E by done.
  exists (x :: ws). injection E as <- <-. done.
Qed.

Lemma constructed_consistent (tape : nat -> Q) (words : words_arg)
    (s : PracticeSession) (c0 c : nat) :
  unit_tape tape ->
  new_PracticeSession tape words c0 = (Normal s, c) ->
  consistent s /\ at_cycle_start s.
Proof.
  intros Ht E.
  destruct (new_PracticeSession_inv tape words s c0 c E)
    as (ws & -> & Hne & -> & ->).
  pose proof (shuffle_perm tape ws c0 Ht) as Hp.
  unfold consistent, at_cycle_start. simpl.
  split; [split; [exact Hne | apply Permutation_submseteq, Hp] |].
  right. exact Hp.
Qed.

(** C1: take a word list [W] that is not empty and a session over it that
    the constructor has just built or whose pool is empty (a reshuffle
    point). As many [getNextWord()] calls as [W] has words return the words
    of [W], each as often as [W] holds it: the returned list is a
    permutation of [W].  Every returned word is a word of [allWords], and
    the session is then at the next reshuffle point. *)
Theorem cycle_returns_each_word_once (tape : nat -> Q) (W : jsarray)
    (s : PracticeSession) (c : nat) :
  unit_tape tape -> W <> [] -> allWords s = W ->
  (exists c0, new_PracticeSession tape (WArray W) c0 = (Normal s, c))
  \/ remainingWords s = [] ->
  exists ws s' c',
    next_words tape (length W) s c = ((ws, s'), c') /\
    ws ≡ₚ W /\
    (forall w, w ∈ ws -> w ∈ allWords s') /\
    remainingWords s' = [].
Proof.
  intros Ht Hne Ha Hstart.
  assert (at_cycle_start s) as Hs.
  { destruct Hstart as [[c0 E]|He]; [| left; exact He].
    eapply constructed_consistent; eassumption. }
  destruct (next_words_cycle tape s c Ht ltac:(congruence) Hs)
    as (ws & s' & c' & E & Hp & Hnil & Ha' & _).
  rewrite Ha in E, Hp. exists ws, s', c'.
  repeat split; try assumption.
  intros w Hw. rewrite Ha', Ha, <- Hp. exact Hw.
Qed.

Lemma cycle_returns_each_word_once_witness :
  exists ws s' c',
    next_words demo_tape (length demo_words) demo_fresh 2%nat
    = ((ws, s'), c') /\
    ws ≡ₚ demo_words /\
    (forall w, w ∈ ws -> w ∈ allWords s') /\
    remainingWords s' = [].
Proof.
  apply (cycle_returns_each_word_once demo_tape demo_words demo_fresh 2%nat).
  - exact demo_tape_unit.
  - discriminate.
  - reflexivity.
  - left. exists 0%nat. reflexivity.
Defined.

(** C3: on a session the constructor has built, any number [k] of
    [getNextWord()] calls go through and each returns a word of the word
    list; the calls of every later cycle (the [n] calls after [m * n]
    calls) return a permutation of the word list again; and a call that
    finds the pool empty proceeds as a call on the session with its pool
    replaced by a shuffle of [allWords], a permutation of [allWords]. *)
Theorem next_word_never_runs_out (tape : nat -> Q) (words : words_arg)
    (s : PracticeSession) (c0 c : nat) :
  unit_tape tape ->
  new_PracticeSession tape words c0 = (Normal s, c) ->
  (forall k, exists ws s' c',
      next_words tape k s c = ((ws, s'), c') /\
      length ws = k /\
      forall w, w ∈ ws -> w ∈ allWords s)
  /\ (forall m, exists ws1 ws2 s' c',
        next_words tape (m * length (allWords s) + length (allWords s)) s c
        = ((ws1 ++ ws2, s'), c') /\
        length ws1 = (m * length (allWords s))%nat /\
        ws2 ≡ₚ allWords s)
  /\ (forall s1 c1,
        allWords s1 = allWords s -> remainingWords s1 = [] ->
        getNextWord tape s1 c1
        = getNextWord tape
            (with_pool s1 (fst (shuffle tape (allWords s1) c1)))
            (snd (shuffle tape (allWords s1) c1))
        /\ fst (shuffle tape (allWords s1) c1) ≡ₚ allWords s1
        /\ fst (fst (getNextWord tape s1 c1)) ∈ allWords s1).
Proof.
  intros Ht E.
  destruct (constructed_consistent tape words s c0 c Ht E) as [Hc Hs].
  split; [| split].
  - intros k.
    destruct (next_words_elements tape k s c Ht Hc)
      as (ws & s' & c' & E' & Hl & Hall & _).
    exists ws, s', c'. auto.
  - intros m.
    destruct (next_words_cycles tape m s c Ht (proj1 Hc) Hs)
      as (ws1 & s1 & c1 & E1 & Hs1 & Ha1 & Hl1).
    destruct (next_words_cycle tape s1 c1 Ht) as
      (ws2 & s2 & c2 & E2 & Hp2 & _); [rewrite Ha1; apply Hc | exact Hs1 |].
    rewrite Ha1 in E2, Hp2.
    exists ws1, ws2, s2, c2.
    rewrite next_words_app, E1, E2. auto.
  - intros s1 c1 Ha He.
    assert (allWords s1 <> []) as Hne by (rewrite Ha; apply Hc).
    split; [apply getNextWord_reshuffle; assumption |].
    split; [apply shuffle_perm; exact Ht |].
    assert (consistent s1) as Hc1.
    { split; [exact Hne |]. rewrite He. apply submseteq_nil_l. }
    destruct (getNextWord_step tape s1 c1 Ht Hc1)
      as (w & rest & c' & E' & Hin & _).
    rewrite E'. exact Hin.
Qed.

Lemma next_word_never_runs_out_witness :
  (forall k, exists ws s' c',
      next_words demo_tape k demo_fresh 2%nat = ((ws, s'), c') /\
      length ws = k /\
      forall w, w ∈ ws -> w ∈ allWords demo_fresh)
  /\ (forall m, exists ws1 ws2 s' c',
        next_words demo_tape
          (m * length (allWords demo_fresh) + length (allWords demo_fresh))
          demo_fresh 2%nat
        = ((ws1 ++ ws2, s'), c') /\
        length ws1 = (m * length (allWords demo_fresh))%nat /\
        ws2 ≡ₚ allWords demo_fresh)
  /\ (forall s1 c1,
        allWords s1 = allWords demo_fresh -> remainingWords s1 = [] ->
        getNextWord demo_tape s1 c1
        = getNextWord demo_tape
            (with_pool s1 (fst (shuffle demo_tape (allWords s1) c1)))
            (snd (shuffle demo_tape (allWords s1) c1))
        /\ fst (shuffle demo_tape (allWords s1) c1) ≡ₚ allWords s1
        /\ fst (fst (getNextWord demo_tape s1 c1)) ∈ allWords s1).
Proof.
  apply (next_word_never_runs_out demo_tape (WArray demo_words) demo_fresh
           0%nat 2%nat).
  - exact demo_tape_unit.
  - reflexivity.
Defined.

(** ** The counter *)

Lemma spoken_after_ge (n : Z) (os : list op) :
  Reset ∉ os -> n <= spoken_after n os.
Proof.
  revert n. induction os as [|o os IH]; intros n Hr; simpl; [lia |].
  apply not_elem_of_cons in Hr. destruct Hr as [Ho Hr].
  destruct o; try (apply IH; exact Hr); try done.
  specialize (IH (n + 1) Hr). lia.
Qed.

(** C5: the counter of a session the constructor has built is 0.  One
    call changes the counter of any session [s] as follows:
    [getNextWord()] adds exactly 1, whether it reshuffles or not;
    [reset()] sets it to 0; every other method leaves the whole session as
    it is.  After any calls [os] the counter is the number the
    specification gives, [spoken_after], and [getWordsSpoken()] answers
    it; without a [Reset] among the calls it is not below the counter
    before them. *)
Theorem spoken_count_law (tape : nat -> Q) (words : words_arg) (c0 : nat)
    (s : PracticeSession) (c : nat) (os : list op) (o : op) :
  match new_PracticeSession tape words c0 with
  | (Normal s0, c1) => getWordsSpoken s0 c1 = ((0, s0), c1)
  | (Throw _, _) => True
  end
  /\ match o with
     | NextWord =>
         wordsSpoken (snd (fst (call tape o s c))) = wordsSpoken s + 1
     | Reset => wordsSpoken (snd (fst (call tape o s c))) = 0
     | _ => snd (fst (call tape o s c)) = s
     end
  /\ wordsSpoken (snd (fst (calls tape os s c)))
     = spoken_after (wordsSpoken s) os
  /\ fst (fst (getWordsSpoken (snd (fst (calls tape os s c)))
                 (snd (calls tape os s c))))
     = spoken_after (wordsSpoken s) os
  /\ (Reset ∉ os ->
      wordsSpoken s <= wordsSpoken (snd (fst (calls tape os s c)))).
Proof.
  split; [| split; [| split; [| split]]].
  - destruct (new_PracticeSession tape words c0) as [[s0|e] c1] eqn:E;
      [| exact I].
    destruct (new_PracticeSession_inv tape words s0 c0 c1 E)
      as (ws & _ & _ & -> & _).
    reflexivity.
  - pose proof (call_fields tape o s c) as [_ H].
    destruct o; try apply H; exact H.
  - apply calls_fields.
  - apply calls_fields.
  - intros Hr. rewrite (proj2 (calls_fields tape os s c)).
    apply spoken_after_ge. exact Hr.
Qed.

(** ** The current word *)

(** C6: on a session the constructor has built, [getCurrentWord()] before
    any draw answers [null] (it cannot throw: it only reads a field) and
    [hasCurrentWord()] answers false; the same holds after any calls [os]
    when no word was drawn since the construction or the last [reset()].
    When none of the words is [null], the first [getNextWord()] makes
    [hasCurrentWord()] true, and after any calls [os], [hasCurrentWord()]
    is true exactly when a word was drawn since the construction or the
    last [reset()]. *)
Theorem repeat_before_first_draw_is_null (tape : nat -> Q)
    (words : words_arg) (s0 : PracticeSession) (c0 c : nat)
    (os : list op) :
  unit_tape tape ->
  new_PracticeSession tape words c0 = (Normal s0, c) ->
  getCurrentWord s0 c = ((Null, s0), c)
  /\ hasCurrentWord s0 c = ((false, s0), c)
  /\ (drawn_since_reset false os = false ->
      getCurrentWord (snd (fst (calls tape os s0 c)))
        (snd (calls tape os s0 c))
      = ((Null, snd (fst (calls tape os s0 c))), snd (calls tape os s0 c))
      /\ hasCurrentWord (snd (fst (calls tape os s0 c)))
           (snd (calls tape os s0 c))
         = ((false, snd (fst (calls tape os s0 c))),
            snd (calls tape os s0 c)))
  /\ (Null ∉ allWords s0 ->
      fst (fst (hasCurrentWord (snd (fst (getNextWord tape s0 c)))
                  (snd (getNextWord tape s0 c)))) = true
      /\ hasCurrentWord (snd (fst (calls tape os s0 c)))
           (snd (calls tape os s0 c))
         = ((drawn_since_reset false os, snd (fst (calls tape os s0 c))),
            snd (calls tape os s0 c))).
Proof.
  intros Ht E.
  destruct (constructed_consistent tape words s0 c0 c Ht E) as [Hc _].
  assert (currentWord s0 = Null) as Hcur.
  { destruct (new_PracticeSession_inv tape words s0 c0 c E)
      as (ws & _ & _ & -> & _). reflexivity. }
  pose proof (calls_invariant tape os false s0 c Ht Hc Hcur) as [_ Hd].
  pose proof (calls_fields tape os s0 c) as [Ha _].
  split; [| split; [| split]].
  - unfold getCurrentWord, ret. rewrite Hcur. reflexivity.
  - unfold hasCurrentWord, ret. rewrite Hcur. reflexivity.
  - intros Hnot. rewrite Hnot in Hd. simpl in Hd.
    unfold getCurrentWord, hasCurrentWord, ret. rewrite Hd.
    split; reflexivity.
  - intros Hnull.
    assert (forall d s, allWords s = allWords s0 -> current_word_ok d s ->
              negb (bool_decide (currentWord s = Null)) = d) as Hhas.
    { intros d s Hs Hok. destruct d; simpl in Hok.
      - rewrite bool_decide_eq_false_2; [reflexivity |].
        intros En. rewrite En, Hs in Hok. contradiction.
      - rewrite bool_decide_eq_true_2 by exact Hok. reflexivity. }
    split.
    + destruct (getNextWord_step tape s0 c Ht Hc)
        as (w & rest & c' & E' & Hin & _).
      rewrite E'. simpl.
      exact (Hhas true (mkSession (allWords s0) rest (wordsSpoken s0 + 1) w)
               eq_refl Hin).
    + unfold hasCurrentWord, ret. rewrite (Hhas _ _ Ha Hd). reflexivity.
Qed.

Lemma repeat_before_first_draw_is_null_witness :
  getCurrentWord demo_fresh 2%nat = ((Null, demo_fresh), 2%nat)
  /\ hasCurrentWord demo_fresh 2%nat = ((false, demo_fresh), 2%nat)
  /\ (drawn_since_reset false [NextWord; Reset; RepeatCurrentWord] = false ->
      getCurrentWord
        (snd (fst (calls demo_tape [NextWord; Reset; RepeatCurrentWord]
                     demo_fresh 2%nat)))
        (snd (calls demo_tape [NextWord; Reset; RepeatCurrentWord]
                demo_fresh 2%nat))
      = ((Null,
          snd (fst (calls demo_tape [NextWord; Reset; RepeatCurrentWord]
                      demo_fresh 2%nat))),
         snd (calls demo_tape [NextWord; Reset; RepeatCurrentWord]
                demo_fresh 2%nat))
      /\ hasCurrentWord
           (snd (fst (calls demo_tape [NextWord; Reset; RepeatCurrentWord]
                        demo_fresh 2%nat)))
           (snd (calls demo_tape [NextWord; Reset; RepeatCurrentWord]
                   demo_fresh 2%nat))
         = ((false,
             snd (fst (calls demo_tape [NextWord; Reset; RepeatCurrentWord]
                         demo_fresh 2%nat))),
            snd (calls demo_tape [NextWord; Reset; RepeatCurrentWord]
                   demo_fresh 2%nat)))
  /\ (Null ∉ allWords demo_fresh ->
      fst (fst (hasCurrentWord
                  (snd (fst (getNextWord demo_tape demo_fresh 2%nat)))
                  (snd (getNextWord demo_tape demo_fresh 2%nat)))) = true
      /\ hasCurrentWord
           (snd (fst (calls demo_tape [NextWord; Reset; RepeatCurrentWord]
                        demo_fresh 2%nat)))
           (snd (calls demo_tape [NextWord; Reset; RepeatCurrentWord]
                   demo_fresh 2%nat))
         = ((drawn_since_reset false [NextWord; Reset; RepeatCurrentWord],
             snd (fst (calls demo_tape [NextWord; Reset; RepeatCurrentWord]
                         demo_fresh 2%nat))),
            snd (calls demo_tape [NextWord; Reset; RepeatCurrentWord]
                   demo_fresh 2%nat))).
Proof.
  apply (repeat_before_first_draw_is_null demo_tape (WArray demo_words)
           demo_fresh 0%nat 2%nat [NextWord; Reset; RepeatCurrentWord]).
  - exact demo_tape_unit.
  - reflexivity.
Defined.

(** The constructor accepts a word list that holds [null], and then
    [hasCurrentWord()] stays false after the first draw: the word drawn
    and kept as the current word is [null] itself. *)
Lemma null_word_keeps_hasCurrentWord_false :
  exists s0 c,
    new_PracticeSession demo_tape (WArray [Null]) 0%nat = (Normal s0, c)
    /\ fst (fst (getNextWord demo_tape s0 c)) = Null
    /\ fst (fst (hasCurrentWord (snd (fst (getNextWord demo_tape s0 c)))
                   (snd (getNextWord demo_tape s0 c)))) = false.
Proof.
  eexists _, _. split; [reflexivity |]. split; reflexivity.
Qed.

(** ** The word list *)

(** C9: whatever calls [os] are made on a session the constructor has
    built from the array [ws], [allWords] is still [ws],
    [getTotalWords()] answers what it answered at the start, and
    [getRemainingCount()] lies between 0 and [getTotalWords()]. *)
Theorem word_list_is_never_changed (tape : nat -> Q) (ws : jsarray)
    (s0 : PracticeSession) (c0 c : nat) (os : list op) :
  unit_tape tape ->
  new_PracticeSession tape (WArray ws) c0 = (Normal s0, c) ->
  allWords s0 = ws
  /\ allWords (snd (fst (calls tape os s0 c))) = ws
  /\ fst (fst (getTotalWords (snd (fst (calls tape os s0 c)))
                 (snd (calls tape os s0 c))))
     = fst (fst (getTotalWords s0 c))
  /\ 0 <= fst (fst (getRemainingCount (snd (fst (calls tape os s0 c)))
                      (snd (calls tape os s0 c))))
       <= fst (fst (getTotalWords (snd (fst (calls tape os s0 c)))
                      (snd (calls tape os s0 c)))).
Proof.
  intros Ht E.
  destruct (constructed_consistent tape _ s0 c0 c Ht E) as [Hc _].
  assert (allWords s0 = ws) as Hws.
  { destruct (new_PracticeSession_inv tape _ s0 c0 c E)
      as (ws' & [= <-] & _ & -> & _). reflexivity. }
  pose proof (calls_fields tape os s0 c) as [Ha _].
  pose proof (calls_invariant tape os false s0 c Ht Hc) as [[_ Hsub] _].
  { destruct (new_PracticeSession_inv tape _ s0 c0 c E)
      as (ws' & _ & _ & -> & _). reflexivity. }
  apply submseteq_length in Hsub.
  unfold getTotalWords, getRemainingCount, ret, arr_length. simpl.
  rewrite Ha in *.
  split; [exact Hws |]. split; [exact Hws |]. split; [reflexivity |]. lia.
Qed.

Lemma word_list_is_never_changed_witness :
  allWords demo_fresh = demo_words
  /\ allWords (snd (fst (calls demo_tape [NextWord; NextWord; Reset; NextWord]
                           demo_fresh 2%nat))) = demo_words
  /\ fst (fst (getTotalWords
                 (snd (fst (calls demo_tape
                              [NextWord; NextWord; Reset; NextWord]
                              demo_fresh 2%nat)))
                 (snd (calls demo_tape [NextWord; NextWord; Reset; NextWord]
                         demo_fresh 2%nat))))
     = fst (fst (getTotalWords demo_fresh 2%nat))
  /\ 0 <= fst (fst (getRemainingCount
                      (snd (fst (calls demo_tape
                                   [NextWord; NextWord; Reset; NextWord]
                                   demo_fresh 2%nat)))
                      (snd (calls demo_tape
                              [NextWord; NextWord; Reset; NextWord]
                              demo_fresh 2%nat))))
       <= fst (fst (getTotalWords
                      (snd (fst (calls demo_tape
                                   [NextWord; NextWord; Reset; NextWord]
                                   demo_fresh 2%nat)))
                      (snd (calls demo_tape
                              [NextWord; NextWord; Reset; NextWord]
                              demo_fresh 2%nat)))).
Proof.
  apply (word_list_is_never_changed demo_tape demo_words demo_fresh
           0%nat 2%nat [NextWord; NextWord; Reset; NextWord]).
  - exact demo_tape_unit.
  - reflexivity.
Defined.

(** ** The shuffle *)

(** C8: on a tape of numbers of the unit interval, [shuffle] is the
    shuffle of the specification ([fisher_yates]: for [i] from [n-1] down
    to 1, swap the slots [i] and [j]) with draws [j] between 0 and [i], so
    its result is a permutation of its argument; it reads the array in the
    order [shuffle_order] gives to the positions.  Every order of the [n]
    positions has a box of [n-1] intervals, of the volume [1/n!] whatever
    the order is: the tapes that give the order in exact arithmetic.  The
    shuffle takes the order on every tape of this box cut short by
    [2^-53] at the upper end of each side, and only on tapes of this box
    lengthened by [2^-53] at the lower end of each side; between the two
    the rounding of the product [Math.random() * (i + 1)] decides.  So for
    a random source uniform on the unit interval the [n!] orders are
    equally probable up to this rounding, not exactly.  Every order is
    taken on some tape.  On any array [b] without repeated elements the
    same holds for the orders [p] of the array itself.  The bounds on the
    lengths, [2^53] and [2^52], are far above the length of any array of
    the language. *)
Theorem shuffle_is_uniform_fisher_yates (tape : nat -> Q) (a : jsarray)
    (c : nat) :
  unit_tape tape ->
  shuffle tape a c
  = (fisher_yates (shuffle_draws tape (length a - 1) c) a,
     (c + (length a - 1))%nat)
  /\ valid_draws (length a - 1) (shuffle_draws tape (length a - 1) c)
  /\ fst (shuffle tape a c) ≡ₚ a
  /\ fst (shuffle tape a c)
     = (fun k => arr_get a (Z.of_nat k)) <$> shuffle_order tape (length a) c
  /\ (forall order,
      order ≡ₚ seq 0 (length a) -> Z.of_nat (length a) <= 2 ^ 53 ->
      exists box,
        length box = (length a - 1)%nat /\
        (volume box == 1 / inject_Z (Z.of_nat (fact (length a))))%Q /\
        (forall tape' c', unit_tape tape' ->
           (in_box tape' c' (shrink_box box) ->
            shuffle_order tape' (length a) c' = order)
           /\ (shuffle_order tape' (length a) c' = order ->
               in_box tape' c' (widen_box box))) /\
        (Z.of_nat (length a) <= 2 ^ 52 ->
         forall c', exists tape',
           unit_tape tape' /\ shuffle_order tape' (length a) c' = order))
  /\ (forall b p,
      NoDup b -> p ≡ₚ b -> Z.of_nat (length b) <= 2 ^ 53 ->
      exists box,
        length box = (length b - 1)%nat /\
        (volume box == 1 / inject_Z (Z.of_nat (fact (length b))))%Q /\
        (forall tape' c', unit_tape tape' ->
           (in_box tape' c' (shrink_box box) ->
            fst (shuffle tape' b c') = p)
           /\ (fst (shuffle tape' b c') = p ->
               in_box tape' c' (widen_box box))) /\
        (Z.of_nat (length b) <= 2 ^ 52 ->
         forall c', exists tape',
           unit_tape tape' /\ fst (shuffle tape' b c') = p)).
Proof.
  intros Ht.
  split; [apply shuffle_fisher_yates; exact Ht |].
  split; [apply shuffle_draws_valid; exact Ht |].
  split; [apply shuffle_perm; exact Ht |].
  split; [apply shuffle_reads_order; exact Ht |].
  split.
  - intros order Ho. apply shuffle_order_positions_box. exact Ho.
  - intros b p Hnd Hp. apply shuffle_order_box; assumption.
Qed.

Lemma shuffle_is_uniform_fisher_yates_witness :
  shuffle demo_tape demo_words 3%nat
  = (fisher_yates (shuffle_draws demo_tape (length demo_words - 1) 3%nat)
       demo_words,
     (3 + (length demo_words - 1))%nat)
  /\ valid_draws (length demo_words - 1)
       (shuffle_draws demo_tape (length demo_words - 1) 3%nat)
  /\ fst (shuffle demo_tape demo_words 3%nat) ≡ₚ demo_words
  /\ fst (shuffle demo_tape demo_words 3%nat)
     = (fun k => arr_get demo_words (Z.of_nat k))
         <$> shuffle_order demo_tape (length demo_words) 3%nat
  /\ (forall order,
      order ≡ₚ seq 0 (length demo_words) ->
      Z.of_nat (length demo_words) <= 2 ^ 53 ->
      exists box,
        length box = (length demo_words - 1)%nat /\
        (volume box
         == 1 / inject_Z (Z.of_nat (fact (length demo_words))))%Q /\
        (forall tape' c', unit_tape tape' ->
           (in_box tape' c' (shrink_box box) ->
            shuffle_order tape' (length demo_words) c' = order)
           /\ (shuffle_order tape' (length demo_words) c' = order ->
               in_box tape' c' (widen_box box))) /\
        (Z.of_nat (length demo_words) <= 2 ^ 52 ->
         forall c', exists tape',
           unit_tape tape'
           /\ shuffle_order tape' (length demo_words) c' = order))
  /\ (forall b p,
      NoDup b -> p ≡ₚ b -> Z.of_nat (length b) <= 2 ^ 53 ->
      exists box,
        length box = (length b - 1)%nat /\
        (volume box == 1 / inject_Z (Z.of_nat (fact (length b))))%Q /\
        (forall tape' c', unit_tape tape' ->
           (in_box tape' c' (shrink_box box) ->
            fst (shuffle tape' b c') = p)
           /\ (fst (shuffle tape' b c') = p ->
               in_box tape' c' (widen_box box))) /\
        (Z.of_nat (length b) <= 2 ^ 52 ->
         forall c', exists tape',
           unit_tape tape' /\ fst (shuffle tape' b c') = p)).
Proof.
  apply (shuffle_is_uniform_fisher_yates demo_tape demo_words 3%nat).
  exact demo_tape_unit.
Defined.

(** The exact boxes are not the tapes of the orders.  The number
    0.6666666666666666 is a binary64 number below 2/3: in exact arithmetic
    its product with 3 has the floor 1, and the product of the language is
    rounded to 2.  The tape that gives this number at every call lies in
    the box of the volume 1/6 that belongs to the draws 1 and 1, which
    lead to the order apple, challenge, banana; [shuffle] makes the draws
    2 and 1 on it and leaves the words in the order apple, banana,
    challenge. *)
Lemma rounded_product_leaves_exact_box :
  let x := (6004799503160661 # 9007199254740992)%Q in
  let tape := fun _ : nat => x in
  unit_tape tape
  /\ Math_floor (x * 3) = 1
  /\ fst (random_index tape 3 0%nat) = 2
  /\ in_box tape 0%nat (draws_box 2 [1; 1]%nat)
  /\ (volume (draws_box 2 [1; 1]%nat) == 1 # 6)%Q
  /\ fisher_yates [1; 1]%nat demo_words
     = [Str "apple"; Str "challenge"; Str "banana"]
  /\ shuffle_draws tape 2 0%nat = [2; 1]%nat
  /\ fst (shuffle tape demo_words 0%nat)
     = [Str "apple"; Str "banana"; Str "challenge"].
Proof.
  cbv zeta. split; [| split; [| split; [| split; [| split; [| split]]]]].
  - intros c. split; [| split]; vm_compute; first [reflexivity | discriminate].
  - reflexivity.
  - vm_compute. reflexivity.
  - vm_compute. intuition discriminate.
  - reflexivity.
  - reflexivity.
  - split; vm_compute; reflexivity.
Qed.

(** ** The scenarios of the specification, on the sample tape *)

(** Scenario A: three words, three draws, then a fourth. *)
Example scenario_three_words :
  fst (next_words demo_tape 4 demo_fresh 2%nat)
  = ([Str "challenge"; Str "apple"; Str "banana"; Str "challenge"],
     {| allWords := demo_words;
        remainingWords := [Str "banana"; Str "apple"];
        wordsSpoken := 4;
        currentWord := Str "challenge" |}).
Proof. reflexivity. Qed.

(** Scenario B: a single word comes back at every call. *)
Example scenario_single_word :
  new_PracticeSession demo_tape (WArray [Str "dog"]) 0%nat
  = (Normal {| allWords := [Str "dog"]; remainingWords := [Str "dog"];
               wordsSpoken := 0; currentWord := Null |}, 0%nat)
  /\ fst (next_words demo_tape 2
            {| allWords := [Str "dog"]; remainingWords := [Str "dog"];
               wordsSpoken := 0; currentWord := Null |} 0%nat)
     = ([Str "dog"; Str "dog"],
        {| allWords := [Str "dog"]; remainingWords := [];
           wordsSpoken := 2; currentWord := Str "dog" |}).
Proof. split; reflexivity. Qed.

(** Scenario C: two words, a draw, two repeats, the other word. *)
Example scenario_repeat :
  fst (fst (calls demo_tape
              [NextWord; RepeatCurrentWord; RepeatCurrentWord; SpokenCount;
               NextWord; SpokenCount]
              {| allWords := [Str "x"; Str "y"];
                 remainingWords := [Str "y"; Str "x"];
                 wordsSpoken := 0; currentWord := Null |} 1%nat))
  = [AWord (Str "y"); AWord (Str "y"); AWord (Str "y"); ANumber 1;
     AWord (Str "x"); ANumber 2].
Proof. reflexivity. Qed.

(** * Further properties of the scheduler *)

(** X1: one [getNextWord()] call on a consistent session takes the
    returned word out of the pool and nothing else.  When the pool was not
    empty, the word together with the new pool is the old pool, the
    remaining count drops by one and one random number is read.  When the
    pool was empty, the word together with the new pool is the whole word
    list, the remaining count is the word count less one and as many random
    numbers are read as there are words. *)
Theorem draw_takes_returned_word_from_pool (tape : nat -> Q)
    (s : PracticeSession) (c : nat) :
  unit_tape tape -> consistent s ->
  let '((w, s'), c') := getNextWord tape s c in
  consistent s'
  /\ match remainingWords s with
     | [] =>
         w :: remainingWords s' ≡ₚ allWords s
         /\ fst (fst (getRemainingCount s' c'))
            = fst (fst (getTotalWords s c)) - 1
         /\ c' = (c + length (allWords s))%nat
     | _ :: _ =>
         w :: remainingWords s' ≡ₚ remainingWords s
         /\ fst (fst (getRemainingCount s' c'))
            = fst (fst (getRemainingCount s c)) - 1
         /\ c' = S c
     end.
Proof.
  intros Ht Hc.
  destruct (remainingWords s) as [|x pool] eqn:Epool.
  - pose proof (getNextWord_reshuffle tape s c Ht (proj1 Hc) Epool) as E.
    pose proof (shuffle_perm tape (allWords s) c Ht) as Hp.
    pose proof (shuffle_fisher_yates tape (allWords s) c Ht) as Hf.
    destruct (shuffle tape (allWords s) c) as [pool' c1].
    injection Hf as _ Hc1. simpl in E, Hp.
    assert (pool' <> []) as Hne.
    { intros ->. apply Permutation_nil_l in Hp. apply (proj1 Hc).
      symmetry. exact Hp. }
    destruct (getNextWord_draw tape (with_pool s pool') c1 Ht Hne)
      as (w & rest & E' & Hw).
    rewrite E, E'. simpl in Hw |- *.
    assert (w :: rest ≡ₚ allWords s) as Hall by (rewrite Hw; exact Hp).
    split; [| split; [exact Hall | split]].
    + split; [apply Hc | simpl].
      rewrite <- Hall. apply submseteq_cons. reflexivity.
    + unfold getRemainingCount, getTotalWords, ret, arr_length. simpl.
      apply Permutation_length in Hall. simpl in Hall. lia.
    + apply Permutation_length in Hall. simpl in Hall. lia.
  - assert (remainingWords s <> []) as Hne by (rewrite Epool; done).
    destruct (getNextWord_draw tape s c Ht Hne) as (w & rest & E' & Hw).
    rewrite E'. rewrite Epool in Hw. simpl.
    split; [| split; [exact Hw | split; [| reflexivity]]].
    + split; [apply Hc | simpl].
      etrans; [| apply Hc]. rewrite Epool, <- Hw.
      apply submseteq_cons. reflexivity.
    + unfold getRemainingCount, ret, arr_length. simpl. rewrite Epool.
      apply Permutation_length in Hw. simpl in Hw |- *. lia.
Qed.

Lemma draw_takes_returned_word_from_pool_witness :
  let '((w, s'), c') := getNextWord demo_tape demo_session 7%nat in
  consistent s'
  /\ match remainingWords demo_session with
     | [] =>
         w :: remainingWords s' ≡ₚ allWords demo_session
         /\ fst (fst (getRemainingCount s' c'))
            = fst (fst (getTotalWords demo_session 7%nat)) - 1
         /\ c' = (7 + length (allWords demo_session))%nat
     | _ :: _ =>
         w :: remainingWords s' ≡ₚ remainingWords demo_session
         /\ fst (fst (getRemainingCount s' c'))
            = fst (fst (getRemainingCount demo_session 7%nat)) - 1
         /\ c' = 8%nat
     end.
Proof.
  apply (draw_takes_returned_word_from_pool demo_tape demo_session 7%nat).
  - exact demo_tape_unit.
  - split; [discriminate |].
    apply (bool_decide_unpack
             (remainingWords demo_session ⊆+ allWords demo_session)).
    vm_compute. exact I.
Defined.

Lemma next_words_partial (tape : nat -> Q) (k : nat) (s : PracticeSession)
    (c : nat) :
  unit_tape tape -> allWords s <> [] -> at_cycle_start s ->
  (1 <= k <= length (allWords s))%nat ->
  exists ws s' c',
    next_words tape k s c = ((ws, s'), c') /\
    ws ++ remainingWords s' ≡ₚ allWords s /\
    length ws = k.
Proof.
  intros Ht Hne [He|Hp] Hk.
  - destruct k as [|k]; [lia |].
    assert (consistent s) as Hc.
    { split; [exact Hne |]. rewrite He. apply submseteq_nil_l. }
    destruct (getNextWord_step tape s c Ht Hc)
      as (w & rest & c1 & E & _ & _ & _ & Hw).
    specialize (Hw He).
    pose proof (Permutation_length Hw) as Hlen. simpl in Hlen.
    destruct (next_words_within tape k
                {| allWords := allWords s; remainingWords := rest;
                   wordsSpoken := wordsSpoken s + 1; currentWord := w |}
                c1 Ht ltac:(simpl; lia))
      as (ws & s' & E' & Hp & _ & _ & Hl).
    simpl in E', Hp. exists (w :: ws), s', (c1 + k)%nat.
    rewrite next_words_S, E, E'.
    split; [reflexivity |]. split; [| simpl; lia].
    simpl. rewrite Hp. exact Hw.
  - pose proof (Permutation_length Hp) as Hlen.
    destruct (next_words_within tape k s c Ht ltac:(lia))
      as (ws & s' & E' & Hp' & _ & _ & Hl).
    exists ws, s', (c + k)%nat.
    split; [exact E' |]. split; [| exact Hl].
    rewrite Hp'. exact Hp.
Qed.

(** X2: from a cycle start (a session the constructor or [reset()] has
    just filled, or one with an empty pool), after any number [k] of
    draws between 1 and the word count, the words returned so far together
    with the pool are the word list, each word as often as the list holds
    it; the remaining count is the word count less [k]. *)
Theorem returned_words_and_pool_make_word_list (tape : nat -> Q)
    (s : PracticeSession) (c : nat) (k : nat) :
  unit_tape tape -> allWords s <> [] -> at_cycle_start s ->
  (1 <= k <= length (allWords s))%nat ->
  let '((ws, s'), c') := next_words tape k s c in
  ws ++ remainingWords s' ≡ₚ allWords s
  /\ fst (fst (getRemainingCount s' c'))
     = fst (fst (getTotalWords s c)) - Z.of_nat k.
Proof.
  intros Ht Hne Hs Hk.
  destruct (next_words_partial tape k s c Ht Hne Hs Hk)
    as (ws & s' & c' & E & Hp & Hl).
  rewrite E. split; [exact Hp |].
  unfold getRemainingCount, getTotalWords, ret, arr_length. simpl.
  apply Permutation_length in Hp. rewrite length_app in Hp. lia.
Qed.

Lemma returned_words_and_pool_make_word_list_witness :
  let '((ws, s'), c') := next_words demo_tape 2 demo_fresh 2%nat in
  ws ++ remainingWords s' ≡ₚ allWords demo_fresh
  /\ fst (fst (getRemainingCount s' c'))
     = fst (fst (getTotalWords demo_fresh 2%nat)) - Z.of_nat 2.
Proof.
  apply (returned_words_and_pool_make_word_list demo_tape demo_fresh
           2%nat 2%nat).
  - exact demo_tape_unit.
  - discriminate.
  - right. symmetry.
    exact (Permutation_cons_append [Str "banana"; Str "challenge"]
             (Str "apple")).
  - simpl. lia.
Defined.

(** X3: when the word list holds no word twice, the words returned
    within one cycle are pairwise different, and no returned word is still
    in the pool. *)
Theorem no_word_twice_within_cycle (tape : nat -> Q)
    (s : PracticeSession) (c : nat) (k : nat) :
  unit_tape tape -> NoDup (allWords s) -> allWords s <> [] ->
  at_cycle_start s ->
  (1 <= k <= length (allWords s))%nat ->
  let '((ws, s'), c') := next_words tape k s c in
  NoDup ws /\ forall w, w ∈ ws -> w ∉ remainingWords s'.
Proof.
  intros Ht Hnd Hne Hs Hk.
  destruct (next_words_partial tape k s c Ht Hne Hs Hk)
    as (ws & s' & c' & E & Hp & Hl).
  rewrite E. rewrite <- Hp in Hnd.
  apply NoDup_app in Hnd. destruct Hnd as (H1 & H2 & _).
  split; assumption.
Qed.

Lemma no_word_twice_within_cycle_witness :
  let '((ws, s'), c') := next_words demo_tape 2 demo_fresh 2%nat in
  NoDup ws /\ forall w, w ∈ ws -> w ∉ remainingWords s'.
Proof.
  apply (no_word_twice_within_cycle demo_tape demo_fresh 2%nat 2%nat).
  - exact demo_tape_unit.
  - apply (bool_decide_unpack (NoDup (allWords demo_fresh))).
    vm_compute. exact I.
  - discriminate.
  - right. symmetry.
    exact (Permutation_cons_append [Str "banana"; Str "challenge"]
             (Str "apple")).
  - simpl. lia.
Defined.

(** * The rate limiter *)

Lemma prune_prune (w1 w2 : Z) (l : list Z) :
  w1 <= w2 -> prune w2 (prune w1 l) = prune w2 l.
Proof.
  intros H. unfold prune. apply list_filter_filter_l. intros t Ht. lia.
Qed.

Lemma cleanup_lookup (w : Z) (m : gmap jsstring (list Z)) (ip : jsstring) :
  default [] (cleanup w m !! ip) = prune w (default [] (m !! ip))
  /\ cleanup w m !! ip <> Some [].
Proof.
  unfold cleanup. rewrite lookup_omap.
  destruct (m !! ip) as [ts|]; simpl; [| split; done].
  destruct (Z.eqb_spec (Z.of_nat (length (prune w ts))) 0) as [E|E]; simpl.
  - split; [| done]. destruct (prune w ts); [reflexivity | simpl in E; lia].
  - split; [reflexivity |]. intros [= E']. rewrite E' in E. simpl in E. lia.
Qed.

Lemma cleanup_lookup_Some (w : Z) (m : gmap jsstring (list Z))
    (ip : jsstring) (ts : list Z) :
  cleanup w m !! ip = Some ts ->
  exists ts0, m !! ip = Some ts0 /\ ts = prune w ts0 /\ ts <> [].
Proof.
  intros E. pose proof (cleanup_lookup w m ip) as [H1 H2].
  rewrite E in H1, H2. simpl in H1.
  destruct (m !! ip) as [ts0|] eqn:E0.
  - exists ts0. split; [reflexivity |]. split; [exact H1 | congruence].
  - simpl in H1. subst ts. done.
Qed.

(** The timestamps [checkRateLimit] looks at, and what it answers and
    stores. *)
Lemma checkRateLimit_cases (ip : jsstring) (now : Z)
    (m : gmap jsstring (list Z)) :
  let seen := prune (now - RATE_LIMIT_WINDOW_MS) (default [] (m !! ip)) in
  let m1 := cleanup (now - RATE_LIMIT_WINDOW_MS) m in
  (MAX_REQUESTS_PER_WINDOW <= Z.of_nat (length seen) /\
   checkRateLimit ip now m
   = ({| allowed := false; remaining := 0;
         resetIn := match seen !! 0%nat with
                    | Some t0 =>
                        Num (Math_ceil_div
                               (t0 + RATE_LIMIT_WINDOW_MS - now) 1000)
                    | None => NaN
                    end |}, m1) /\
   m1 !! ip = Some seen)
  \/ (Z.of_nat (length seen) < MAX_REQUESTS_PER_WINDOW /\
      checkRateLimit ip now m
      = ({| allowed := true;
            remaining := MAX_REQUESTS_PER_WINDOW - Z.of_nat (length seen) - 1;
            resetIn := Num 60 |},
         <[ip := seen ++ [now]]> m1)).
Proof.
  intros seen m1.
  pose proof (cleanup_lookup (now - RATE_LIMIT_WINDOW_MS) m ip) as [H1 H2].
  fold m1 in H1, H2. fold seen in H1.
  unfold checkRateLimit. fold m1.
  destruct (m1 !! ip) as [ts|] eqn:E1; simpl in H1; [rewrite H1 |].
  - destruct (Z.leb_spec MAX_REQUESTS_PER_WINDOW (Z.of_nat (length seen)))
      as [Hge|Hlt].
    + left. auto.
    + right. split; [exact Hlt |]. f_equal. f_equal.
      rewrite length_app. simpl. lia.
  - right. rewrite <- H1. simpl. split; [unfold MAX_REQUESTS_PER_WINDOW; lia |].
    rewrite insert_insert_eq. reflexivity.
Qed.

Lemma in_window_le_prune (T now : Z) (l : list Z) :
  now <= T ->
  (length (in_window T l) <= length (prune (now - RATE_LIMIT_WINDOW_MS) l))%nat.
Proof.
  intros H. unfold in_window, prune.
  induction l as [|t l IH]; [reflexivity |].
  rewrite !filter_cons.
  destruct (decide (T - RATE_LIMIT_WINDOW_MS < t /\ t <= T)) as [Ht|Ht],
    (decide (now - RATE_LIMIT_WINDOW_MS < t)) as [Hn|Hn]; simpl; lia.
Qed.

Lemma in_window_snoc (T now : Z) (l : list Z) :
  in_window T (l ++ [now])
  = in_window T l
    ++ (if (T - RATE_LIMIT_WINDOW_MS <? now) && (now <=? T) then [now]
        else []).
Proof.
  unfold in_window. rewrite filter_app. f_equal.
  rewrite filter_cons, filter_nil.
  destruct (Z.ltb_spec (T - RATE_LIMIT_WINDOW_MS) now),
    (Z.leb_spec now T); simpl;
    destruct (decide _) as [[? ?]|Hn]; try reflexivity; try lia.
Qed.

(** One call keeps the bookkeeping, and allows the request exactly when
    fewer than [MAX_REQUESTS_PER_WINDOW] allowed times of the key are
    younger than one window. *)
Lemma checkRateLimit_tracks (ip : jsstring) (now T : Z)
    (m : gmap jsstring (list Z)) (A : jsstring -> list Z) :
  tracks T m A -> T <= now ->
  tracks now (snd (checkRateLimit ip now m))
    (note_allowed ip now (fst (checkRateLimit ip now m)) A).
Proof.
  intros (Hm & Hne & Hpast & Hwin) HT.
  pose proof (cleanup_lookup (now - RATE_LIMIT_WINDOW_MS) m) as Hclean.
  assert (Heach : forall ip',
            default [] (cleanup (now - RATE_LIMIT_WINDOW_MS) m !! ip')
            = prune (now - RATE_LIMIT_WINDOW_MS) (A ip')).
  { intros ip'. rewrite (proj1 (Hclean ip')), Hm.
    apply prune_prune. lia. }
  assert (Hseen : prune (now - RATE_LIMIT_WINDOW_MS) (default [] (m !! ip))
                  = prune (now - RATE_LIMIT_WINDOW_MS) (A ip)).
  { rewrite Hm. apply prune_prune. lia. }
  destruct (checkRateLimit_cases ip now m) as [(Hge & E & _)|(Hlt & E)];
    rewrite E; simpl.
  - assert (forall ip', note_allowed ip now
                          {| allowed := false; remaining := 0;
                             resetIn := match prune (now - RATE_LIMIT_WINDOW_MS)
                                                (default [] (m !! ip)) !! 0%nat with
                                        | Some t0 =>
                                            Num (Math_ceil_div
                                                   (t0 + RATE_LIMIT_WINDOW_MS - now)
                                                   1000)
                                        | None => NaN
                                        end |} A ip' = A ip') as Hadm.
    { intros ip'. unfold note_allowed. simpl. rewrite andb_false_r. reflexivity. }
    split; [| split; [| split]].
    + intros ip'. rewrite Hadm. apply Heach.
    + intros ip'. apply Hclean.
    + intros ip'. rewrite Hadm. eapply Forall_impl; [apply Hpast |].
      intros t Ht. simpl in Ht. lia.
    + intros ip' T'. rewrite Hadm. apply Hwin.
  - rewrite Hseen in Hlt |- *.
    split; [| split; [| split]].
    + intros ip'. unfold note_allowed. simpl. rewrite andb_true_r.
      destruct (decide (ip' = ip)) as [->|Hneq].
      * rewrite bool_decide_eq_true_2 by reflexivity.
        rewrite lookup_insert_eq. simpl.
        unfold prune. rewrite filter_app. f_equal.
        rewrite filter_cons_True, filter_nil; [reflexivity |].
        unfold RATE_LIMIT_WINDOW_MS. lia.
      * rewrite bool_decide_eq_false_2 by exact Hneq.
        rewrite lookup_insert_ne by congruence. apply Heach.
    + intros ip'. destruct (decide (ip' = ip)) as [->|Hneq].
      * rewrite lookup_insert_eq. intros [= E'].
        destruct (prune (now - RATE_LIMIT_WINDOW_MS) (A ip)); discriminate E'.
      * rewrite lookup_insert_ne by congruence. apply Hclean.
    + intros ip'. unfold note_allowed. simpl. rewrite andb_true_r.
      assert (Forall (fun t => t <= now) (A ip')) as Hold.
      { eapply Forall_impl; [apply Hpast |]. intros t Ht. simpl in Ht. lia. }
      destruct (bool_decide (ip' = ip)); [| exact Hold].
      apply Forall_app. split; [exact Hold |].
      apply Forall_singleton. lia.
    + intros ip' T'. unfold note_allowed. simpl. rewrite andb_true_r.
      destruct (bool_decide_reflect (ip' = ip)) as [->|Hneq]; [| apply Hwin].
      rewrite in_window_snoc, length_app.
      destruct ((T' - RATE_LIMIT_WINDOW_MS <? now) && (now <=? T')) eqn:Ein.
      * apply andb_prop in Ein. destruct Ein as [_ Ein].
        apply Z.leb_le in Ein.
        pose proof (in_window_le_prune T' now (A ip) Ein). simpl. lia.
      * specialize (Hwin ip T'). simpl. lia.
Qed.

Lemma checkRateLimit_allowed (ip : jsstring) (now : Z)
    (m : gmap jsstring (list Z)) :
  allowed (fst (checkRateLimit ip now m))
  = bool_decide
      (Z.of_nat (length (prune (now - RATE_LIMIT_WINDOW_MS)
                           (default [] (m !! ip))))
       < MAX_REQUESTS_PER_WINDOW).
Proof.
  destruct (checkRateLimit_cases ip now m) as [(Hge & E & _)|(Hlt & E)];
    rewrite E; simpl.
  - rewrite bool_decide_eq_false_2; [reflexivity | lia].
  - rewrite bool_decide_eq_true_2; [reflexivity | lia].
Qed.

Lemma serve_cons (ip : jsstring) (now : Z) (rest : list (jsstring * Z))
    (m : gmap jsstring (list Z)) :
  serve ((ip, now) :: rest) m
  = (fst (checkRateLimit ip now m)
       :: fst (serve rest (snd (checkRateLimit ip now m))),
     snd (serve rest (snd (checkRateLimit ip now m)))).
Proof.
  simpl. destruct (checkRateLimit ip now m) as [r m1]. simpl.
  destruct (serve rest m1). reflexivity.
Qed.

Lemma serve_tracks (reqs : list (jsstring * Z)) (T : Z)
    (m : gmap jsstring (list Z)) (A : jsstring -> list Z) :
  tracks T m A -> clock_monotone T reqs = true ->
  exists A',
    tracks (last_time T reqs) (snd (serve reqs m)) A' /\
    forall ip T',
      Z.of_nat (length (in_window T' (A ip)))
      + allowed_in_window ip T' reqs (fst (serve reqs m))
      = Z.of_nat (length (in_window T' (A' ip))).
Proof.
  revert T m A. induction reqs as [|[ip now] rest IH]; intros T m A Ht Hclock.
  - exists A. split; [exact Ht |]. intros ip T'. simpl. lia.
  - simpl in Hclock. apply andb_prop in Hclock. destruct Hclock as [HT Hrest].
    apply Z.leb_le in HT.
    pose proof (checkRateLimit_tracks ip now T m A Ht HT) as Ht1.
    destruct (IH now _ _ Ht1 Hrest) as (A' & Ht' & Hcount).
    exists A'. rewrite serve_cons. split; [exact Ht' |].
    intros ip0 T'. rewrite <- Hcount.
    cbn [allowed_in_window fst snd last_time].
    unfold note_allowed.
    destruct (bool_decide (ip0 = ip)) eqn:Eip.
    + apply bool_decide_eq_true_1 in Eip. subst ip0.
      rewrite bool_decide_eq_true_2 by reflexivity. simpl andb at 1.
      destruct (allowed (fst (checkRateLimit ip now m))); simpl.
      * rewrite in_window_snoc, length_app.
        destruct ((T' - RATE_LIMIT_WINDOW_MS <? now) && (now <=? T'));
          simpl; lia.
      * lia.
    + apply bool_decide_eq_false_1 in Eip.
      rewrite (bool_decide_eq_false_2 (ip = ip0)) by congruence.
      simpl. lia.
Qed.

Lemma tracks_empty (T : Z) : tracks T ∅ (fun _ => []).
Proof.
  split; [| split; [| split]].
  - intros ip. rewrite lookup_empty. reflexivity.
  - intros ip. rewrite lookup_empty. done.
  - intros ip. constructor.
  - intros ip T'. unfold MAX_REQUESTS_PER_WINDOW. simpl. lia.
Qed.

Lemma in_window_past (T : Z) (l : list Z) :
  Forall (fun t => t <= T) l ->
  in_window T l = prune (T - RATE_LIMIT_WINDOW_MS) l.
Proof.
  unfold in_window, prune. induction 1 as [|t l Ht Hl IH]; [reflexivity |].
  rewrite !filter_cons, IH.
  destruct (decide (T - RATE_LIMIT_WINDOW_MS < t /\ t <= T)) as [H1|H1],
    (decide (T - RATE_LIMIT_WINDOW_MS < t)) as [H2|H2];
    try reflexivity; try lia.
Qed.

Lemma tracks_ok (T : Z) (m : gmap jsstring (list Z))
    (A : jsstring -> list Z) :
  tracks T m A ->
  rate_map_ok T m /\
  forall ip timestamps, m !! ip = Some timestamps ->
    Forall (fun t => T - RATE_LIMIT_WINDOW_MS < t) timestamps.
Proof.
  intros (Hm & Hne & Hpast & Hwin).
  assert (forall ip ts, m !! ip = Some ts ->
            ts = prune (T - RATE_LIMIT_WINDOW_MS) (A ip)) as Hts.
  { intros ip ts E. specialize (Hm ip). rewrite E in Hm. exact Hm. }
  split.
  - intros ip ts E. pose proof (Hts ip ts E) as ->.
    split; [intros E'; apply (Hne ip); rewrite E, E'; reflexivity |].
    split.
    + rewrite <- (in_window_past T (A ip) (Hpast ip)). apply Hwin.
    + unfold prune. apply Forall_forall. intros t Hin.
      apply list_elem_of_filter in Hin. destruct Hin as [_ Hin].
      specialize (Hpast ip). rewrite Forall_forall in Hpast. apply Hpast, Hin.
  - intros ip ts E. pose proof (Hts ip ts E) as ->.
    unfold prune. apply Forall_forall. intros t Hin.
    apply list_elem_of_filter in Hin. apply Hin.
Qed.

Lemma clock_monotone_snoc (T : Z) (reqs : list (jsstring * Z))
    (ip : jsstring) (now : Z) :
  clock_monotone T (reqs ++ [(ip, now)]) = true ->
  clock_monotone T reqs = true /\ last_time T reqs <= now.
Proof.
  revert T. induction reqs as [|[ip' t] rest IH]; intros T H; simpl in *.
  - rewrite andb_true_r in H. apply Z.leb_le in H. auto.
  - apply andb_prop in H. destruct H as [H1 H2].
    destruct (IH t H2) as [H3 H4]. rewrite H1, H3. auto.
Qed.

Lemma Math_ceil_div_bounds (x : Z) :
  1 <= x <= 60000 ->
  1 <= Math_ceil_div x 1000 <= 60 /\ x <= 1000 * Math_ceil_div x 1000.
Proof.
  intros Hx. unfold Math_ceil_div.
  pose proof (Z.div_mod (- x) 1000 ltac:(lia)) as Hdm.
  pose proof (Z.mod_pos_bound (- x) 1000 ltac:(lia)) as Hm.
  lia.
Qed.

Lemma checkRateLimit_other_key (ip ip' : jsstring) (now : Z)
    (m : gmap jsstring (list Z)) :
  ip' <> ip ->
  default [] (snd (checkRateLimit ip now m) !! ip')
  = prune (now - RATE_LIMIT_WINDOW_MS) (default [] (m !! ip')).
Proof.
  intros Hneq.
  pose proof (cleanup_lookup (now - RATE_LIMIT_WINDOW_MS) m ip') as [Hc _].
  destruct (checkRateLimit_cases ip now m) as [(_ & E & _)|(_ & E)];
    rewrite E; simpl; [exact Hc |].
  rewrite lookup_insert_ne by congruence. exact Hc.
Qed.

Lemma last_time_ge (T : Z) (reqs : list (jsstring * Z)) :
  clock_monotone T reqs = true -> T <= last_time T reqs.
Proof.
  revert T. induction reqs as [|[ip t] rest IH]; intros T H; simpl in *.
  - lia.
  - apply andb_prop in H. destruct H as [H1 H2]. apply Z.leb_le in H1.
    specialize (IH t H2). lia.
Qed.

(** Requests of other keys only prune the entry of a key. *)
Lemma serve_other_keys (others : list (jsstring * Z)) (T T' : Z)
    (m : gmap jsstring (list Z)) (ip : jsstring) :
  Forall (fun q => fst q <> ip) others ->
  clock_monotone T others = true ->
  last_time T others <= T' ->
  prune (T' - RATE_LIMIT_WINDOW_MS) (default [] (snd (serve others m) !! ip))
  = prune (T' - RATE_LIMIT_WINDOW_MS) (default [] (m !! ip)).
Proof.
  revert T m. induction others as [|[ip1 t1] rest IH]; intros T m Hk Hc HT.
  - reflexivity.
  - rewrite serve_cons. cbn [snd].
    apply Forall_cons in Hk. destruct Hk as [Hk1 Hk].
    simpl in Hc, HT, Hk1. apply andb_prop in Hc. destruct Hc as [_ Hc].
    rewrite (IH t1 _ Hk Hc HT).
    rewrite checkRateLimit_other_key by congruence.
    apply prune_prune. pose proof (last_time_ge t1 rest Hc). lia.
Qed.

Lemma clock_monotone_app (T : Z) (reqs rest : list (jsstring * Z)) :
  clock_monotone T (reqs ++ rest) = true ->
  clock_monotone T reqs = true
  /\ clock_monotone (last_time T reqs) rest = true.
Proof.
  revert T. induction reqs as [|[ip t] reqs IH]; intros T H; simpl in *.
  - auto.
  - apply andb_prop in H. destruct H as [H1 H2].
    destruct (IH t H2) as [H3 H4]. rewrite H1, H3. auto.
Qed.

(** What a refusal promises, on a map of a running server. *)
Lemma refusal_retry (ip : jsstring) (now T : Z)
    (m : gmap jsstring (list Z)) :
  rate_map_ok T m -> T <= now ->
  allowed (fst (checkRateLimit ip now m)) = false ->
  exists secs,
    resetIn (fst (checkRateLimit ip now m)) = Num secs /\
    remaining (fst (checkRateLimit ip now m)) = 0 /\
    1 <= secs <= 60 /\
    forall now' m', now + 1000 * secs <= now' ->
      prune (now' - RATE_LIMIT_WINDOW_MS) (default [] (m' !! ip))
      = prune (now' - RATE_LIMIT_WINDOW_MS)
          (default [] (snd (checkRateLimit ip now m) !! ip)) ->
      allowed (fst (checkRateLimit ip now' m')) = true.
Proof.
  intros Hok HT Hdeny.
  destruct (checkRateLimit_cases ip now m) as [(Hge & E & E1)|(Hlt & E)];
    rewrite E in Hdeny |- *; simpl in Hdeny |- *; [clear Hdeny | discriminate].
  destruct (cleanup_lookup_Some _ _ _ _ E1) as (ts0 & E0 & Eseen & _).
  rewrite E0 in *. simpl in *.
  destruct (Hok ip ts0 E0) as (_ & Hlen & Hpast).
  pose proof (length_filter (fun t => now - RATE_LIMIT_WINDOW_MS < t) ts0)
    as Hfl. fold (prune (now - RATE_LIMIT_WINDOW_MS) ts0) in Hfl.
  destruct (prune (now - RATE_LIMIT_WINDOW_MS) ts0) as [|t0 seen] eqn:Ep.
  { unfold MAX_REQUESTS_PER_WINDOW in Hge. simpl in Hge. lia. }
  assert (t0 ∈ prune (now - RATE_LIMIT_WINDOW_MS) ts0) as Hin
      by (rewrite Ep; left).
  unfold prune in Hin. apply list_elem_of_filter in Hin.
  destruct Hin as [Hyoung Hin0].
  rewrite Forall_forall in Hpast. specialize (Hpast t0 Hin0). simpl in Hpast.
  unfold RATE_LIMIT_WINDOW_MS in *.
  destruct (Math_ceil_div_bounds (t0 + 60 * 1000 - now) ltac:(lia))
    as [Hsecs Hwait].
  simpl. eexists. split; [reflexivity |]. split; [reflexivity |].
  split; [exact Hsecs |].
  intros now' m' Hnow' Hsame. rewrite checkRateLimit_allowed.
  apply bool_decide_eq_true_2.
  unfold RATE_LIMIT_WINDOW_MS. rewrite Hsame, E1. simpl.
  assert (length (prune (now' - 60 * 1000) (t0 :: seen))
          < length (t0 :: seen))%nat as Hshort.
  { unfold prune. apply (length_filter_lt _ _ t0); [left | lia]. }
  unfold MAX_REQUESTS_PER_WINDOW, RATE_LIMIT_WINDOW_MS in *.
  simpl in Hfl, Hshort, Hge, Hlen. lia.
Qed.

(** X4: the limiter started on the empty map and serving requests whose
    times do not decrease never allows more than
    [MAX_REQUESTS_PER_WINDOW] = 10 requests of one key within one minute:
    for every key [ip] and every time [T], at most ten of the allowed
    requests of [ip] have their time in the window of 60000 ms that ends
    at [T]. *)
Theorem at_most_ten_allowed_per_window (reqs : list (jsstring * Z))
    (T0 : Z) (ip : jsstring) (T : Z) :
  clock_monotone T0 reqs = true ->
  allowed_in_window ip T reqs (fst (serve reqs ∅))
  <= MAX_REQUESTS_PER_WINDOW.
Proof.
  intros Hclock.
  destruct (serve_tracks reqs T0 ∅ (fun _ => []) (tracks_empty T0) Hclock)
    as (A' & (_ & _ & _ & Hwin) & Hcount).
  specialize (Hcount ip T). specialize (Hwin ip T).
  change (in_window T []) with (@nil Z) in Hcount. simpl length in Hcount.
  lia.
Qed.

Lemma at_most_ten_allowed_per_window_witness :
  allowed_in_window demo_ip 12
    (demo_burst ++ [(demo_ip, 11); (demo_ip, 12)])
    (fst (serve (demo_burst ++ [(demo_ip, 11); (demo_ip, 12)]) ∅))
  <= MAX_REQUESTS_PER_WINDOW.
Proof.
  apply (at_most_ten_allowed_per_window
           (demo_burst ++ [(demo_ip, 11); (demo_ip, 12)]) 0 demo_ip 12).
  reflexivity.
Defined.

(** X5: after any requests served from the empty map with times that do
    not decrease, the map holds no empty entry, no entry with more than
    ten timestamps, and no timestamp that is not within the minute before
    the last request: keys that were silent for a minute are gone. *)
Theorem served_map_is_small_and_fresh (reqs : list (jsstring * Z))
    (T0 : Z) (ip : jsstring) (timestamps : list Z) :
  clock_monotone T0 reqs = true ->
  snd (serve reqs ∅) !! ip = Some timestamps ->
  timestamps <> []
  /\ Z.of_nat (length timestamps) <= MAX_REQUESTS_PER_WINDOW
  /\ Forall (fun t => last_time T0 reqs - RATE_LIMIT_WINDOW_MS < t
                     /\ t <= last_time T0 reqs) timestamps.
Proof.
  intros Hclock E.
  destruct (serve_tracks reqs T0 ∅ (fun _ => []) (tracks_empty T0) Hclock)
    as (A' & Ht & _).
  destruct (tracks_ok _ _ _ Ht) as [Hok Hyoung].
  destruct (Hok ip timestamps E) as (H1 & H2 & H3).
  specialize (Hyoung ip timestamps E).
  split; [exact H1 |]. split; [exact H2 |].
  rewrite Forall_forall in H3, Hyoung |- *. intros t Hin. split; auto.
Qed.

Lemma served_map_is_small_and_fresh_witness :
  [1; 2; 3; 4; 5; 6; 7; 8; 9; 10] <> []
  /\ Z.of_nat (length [1; 2; 3; 4; 5; 6; 7; 8; 9; 10])
     <= MAX_REQUESTS_PER_WINDOW
  /\ Forall (fun t => last_time 0 demo_burst - RATE_LIMIT_WINDOW_MS < t
                     /\ t <= last_time 0 demo_burst)
       [1; 2; 3; 4; 5; 6; 7; 8; 9; 10].
Proof.
  apply (served_map_is_small_and_fresh demo_burst 0 demo_ip
           [1; 2; 3; 4; 5; 6; 7; 8; 9; 10]).
  - reflexivity.
  - vm_compute. reflexivity.
Defined.

(** X6: [checkRateLimit] allows a request exactly when fewer than ten
    timestamps of the same key are younger than the window; the entries of
    other keys play no part.  When it allows, it stores the time of the
    request behind the young timestamps and reports how many requests are
    left, between 0 and 9; when it refuses, it stores no time and reports
    0.  Of every other key it keeps the young timestamps only. *)
Theorem rate_limit_verdict (ip : jsstring) (now : Z)
    (m : gmap jsstring (list Z)) (ip' : jsstring) :
  let seen := prune (now - RATE_LIMIT_WINDOW_MS) (default [] (m !! ip)) in
  let r := fst (checkRateLimit ip now m) in
  let m' := snd (checkRateLimit ip now m) in
  allowed r = bool_decide (Z.of_nat (length seen) < 10)
  /\ remaining r
     = (if allowed r then 10 - Z.of_nat (length seen) - 1 else 0)
  /\ 0 <= remaining r <= 9
  /\ m' !! ip = Some (if allowed r then seen ++ [now] else seen)
  /\ (ip' <> ip ->
      default [] (m' !! ip')
      = prune (now - RATE_LIMIT_WINDOW_MS) (default [] (m !! ip'))).
Proof.
  intros seen r m'. subst r m'.
  pose proof (cleanup_lookup (now - RATE_LIMIT_WINDOW_MS) m ip') as [Hc _].
  destruct (checkRateLimit_cases ip now m) as [(Hge & E & E1)|(Hlt & E)];
    fold seen in Hge || fold seen in Hlt; rewrite E; simpl;
    unfold MAX_REQUESTS_PER_WINDOW in *.
  - fold seen in E1.
    rewrite bool_decide_eq_false_2 by lia.
    repeat split; try lia; try assumption. intros _. exact Hc.
  - rewrite bool_decide_eq_true_2 by (fold seen; lia). fold seen.
    repeat split; try lia.
    + apply lookup_insert_eq.
    + intros Hneq. rewrite lookup_insert_ne by congruence. exact Hc.
Qed.

(** X7: on a server that started with the empty map and whose clock does
    not run backwards, a refusal reports 0 remaining requests and a wait
    between 1 and 60 seconds.  The next request of the same key is allowed
    if it comes after that wait, whatever requests of other keys [others]
    the server has handled in between.  (A request of the same key that
    was allowed in between counts against the limit again, and so the
    promise is about the next request of the key only.) *)
Theorem refused_request_is_allowed_after_reset (reqs : list (jsstring * Z))
    (T0 : Z) (ip : jsstring) (now : Z) :
  clock_monotone T0 (reqs ++ [(ip, now)]) = true ->
  allowed (fst (checkRateLimit ip now (snd (serve reqs ∅)))) = false ->
  exists secs,
    resetIn (fst (checkRateLimit ip now (snd (serve reqs ∅)))) = Num secs /\
    remaining (fst (checkRateLimit ip now (snd (serve reqs ∅)))) = 0 /\
    1 <= secs <= 60 /\
    forall others now',
      Forall (fun q => fst q <> ip) others ->
      clock_monotone now (others ++ [(ip, now')]) = true ->
      now + 1000 * secs <= now' ->
      allowed
        (fst (checkRateLimit ip now'
                (snd (serve others
                        (snd (checkRateLimit ip now (snd (serve reqs ∅))))))))
      = true.
Proof.
  intros Hclock Hdeny.
  destruct (clock_monotone_snoc _ _ _ _ Hclock) as [Hc HT].
  destruct (serve_tracks reqs T0 ∅ (fun _ => []) (tracks_empty T0) Hc)
    as (A' & Ht & _).
  destruct (tracks_ok _ _ _ Ht) as [Hok _].
  destruct (refusal_retry ip now _ _ Hok HT Hdeny)
    as (secs & E1 & E2 & Hsecs & Hretry).
  exists secs. split; [exact E1 |]. split; [exact E2 |].
  split; [exact Hsecs |].
  intros others now' Hkeys Hclock' Hwait.
  apply Hretry; [exact Hwait |].
  destruct (clock_monotone_snoc _ _ _ _ Hclock') as [Hc' HT'].
  exact (serve_other_keys others now now' _ ip Hkeys Hc' HT').
Qed.

Lemma refused_request_is_allowed_after_reset_witness :
  exists secs,
    resetIn (fst (checkRateLimit demo_ip 11 (snd (serve demo_burst ∅))))
    = Num secs /\
    remaining (fst (checkRateLimit demo_ip 11 (snd (serve demo_burst ∅))))
    = 0 /\
    1 <= secs <= 60 /\
    forall others now',
      Forall (fun q => fst q <> demo_ip) others ->
      clock_monotone 11 (others ++ [(demo_ip, now')]) = true ->
      11 + 1000 * secs <= now' ->
      allowed
        (fst (checkRateLimit demo_ip now'
                (snd (serve others
                        (snd (checkRateLimit demo_ip 11
                                (snd (serve demo_burst ∅))))))))
      = true.
Proof.
  apply (refused_request_is_allowed_after_reset demo_burst 0 demo_ip 11).
  - reflexivity.
  - vm_compute. reflexivity.
Defined.

(** The wait a refusal reports holds for the next request of the key
    only.  The key is served at 0 and nine times at 59000 and refused at
    59500 with a wait of one second; its request at 60001 is allowed, and
    then its request at 60600, later than the wait, is refused. *)
Example retry_after_an_allowed_retry_is_refused :
  let reqs := (demo_ip, 0) :: ((fun _ => (demo_ip, 59000)) <$> seq 0 9) in
  let m := snd (serve reqs ∅) in
  let refused := checkRateLimit demo_ip 59500 m in
  let retry1 := checkRateLimit demo_ip 60001 (snd refused) in
  let retry2 := checkRateLimit demo_ip 60600 (snd retry1) in
  allowed (fst refused) = false /\ resetIn (fst refused) = Num 1
  /\ allowed (fst retry1) = true
  /\ allowed (fst retry2) = false.
Proof. vm_compute. auto. Qed.

(** * Strings *)

Lemma starts_with_spec (p s : jsstring) :
  starts_with p s = true <-> exists r, s = p ++ r.
Proof.
  revert s. induction p as [|a p IH]; intros s; simpl.
  - split; [intros _; exists s; reflexivity | reflexivity].
  - destruct s as [|b s].
    + split; [discriminate | intros [r Hr]; discriminate Hr].
    + rewrite andb_true_iff, N.eqb_eq, IH. split.
      * intros [-> [r ->]]. exists r. reflexivity.
      * intros [r [= -> ->]]. split; [reflexivity | exists r; reflexivity].
Qed.

Lemma ends_with_spec (p s : jsstring) :
  ends_with p s = true <-> exists r, s = r ++ p.
Proof.
  unfold ends_with. rewrite starts_with_spec. split.
  - intros [r Hr]. exists (reverse r).
    apply (f_equal reverse) in Hr.
    rewrite reverse_involutive, reverse_app, reverse_involutive in Hr.
    exact Hr.
  - intros [r ->]. exists (reverse r). apply reverse_app.
Qed.

Lemma includes_spec (p s : jsstring) :
  includes p s = true <-> exists a b, s = a ++ p ++ b.
Proof.
  induction s as [|u s IH]; simpl.
  - rewrite orb_false_r, starts_with_spec. split.
    + intros [r Hr]. exists [], r. exact Hr.
    + intros (a & b & Hs). destruct a; [| discriminate Hs].
      exists b. exact Hs.
  - rewrite orb_true_iff, starts_with_spec, IH. split.
    + intros [[r Hr]|(a & b & ->)].
      * exists [], r. exact Hr.
      * exists (u :: a), b. reflexivity.
    + intros (a & b & Hs). destruct a as [|v a]; simpl in Hs.
      * left. exists b. exact Hs.
      * right. injection Hs as -> ->. exists a, b. reflexivity.
Qed.

Lemma drop_while_head (p : N -> bool) (s : jsstring) (u : N) :
  head (drop_while p s) = Some u -> p u = false.
Proof.
  induction s as [|v s IH]; simpl; [discriminate |].
  destruct (p v) eqn:Ev; [exact IH |]. intros [= <-]. exact Ev.
Qed.

Lemma drop_while_suffix (p : N -> bool) (s : jsstring) :
  exists r, s = r ++ drop_while p s.
Proof.
  induction s as [|v s [r IH]]; simpl; [exists []; reflexivity |].
  destruct (p v).
  - exists (v :: r). simpl. f_equal. exact IH.
  - exists []. reflexivity.
Qed.

Lemma drop_end_while_prefix (p : N -> bool) (s : jsstring) :
  exists r, s = drop_end_while p s ++ r.
Proof.
  unfold drop_end_while.
  destruct (drop_while_suffix p (reverse s)) as [r Hr].
  exists (reverse r). apply (f_equal reverse) in Hr.
  rewrite reverse_involutive, reverse_app in Hr. exact Hr.
Qed.

Lemma drop_end_while_last (p : N -> bool) (s : jsstring) (u : N) :
  last (drop_end_while p s) = Some u -> p u = false.
Proof.
  unfold drop_end_while. rewrite last_reverse. apply drop_while_head.
Qed.

Lemma drop_end_while_head (p : N -> bool) (s : jsstring) (u : N) :
  head (drop_end_while p s) = Some u -> head s = Some u.
Proof.
  destruct (drop_end_while_prefix p s) as [r Hr].
  destruct (drop_end_while p s) as [|v t]; [discriminate |].
  rewrite Hr. simpl. auto.
Qed.

Lemma drop_while_ascii (p : N -> bool) (s : jsstring) :
  is_ascii s -> is_ascii (drop_while p s).
Proof.
  destruct (drop_while_suffix p s) as [r Hr]. unfold is_ascii.
  rewrite Hr at 1. rewrite Forall_app. tauto.
Qed.

Lemma drop_end_while_ascii (p : N -> bool) (s : jsstring) :
  is_ascii s -> is_ascii (drop_end_while p s).
Proof.
  destruct (drop_end_while_prefix p s) as [r Hr]. unfold is_ascii.
  rewrite Hr at 1. rewrite Forall_app. tauto.
Qed.

Lemma take_while_no (p : N -> bool) (s : jsstring) (u : N) :
  u ∈ take_while p s -> p u = true.
Proof.
  induction s as [|v s IH]; simpl; [intros H; inversion H |].
  destruct (p v) eqn:Ev; [| intros H; inversion H].
  intros H. apply elem_of_cons in H. destruct H as [->|H]; auto.
Qed.

Lemma split_comma_0_app (v rest : jsstring) :
  comma ∉ v -> split_comma_0 (v ++ comma :: rest) = v.
Proof.
  unfold split_comma_0.
  induction v as [|u v IH]; intros Hv; cbn [app take_while].
  - rewrite N.eqb_refl. reflexivity.
  - apply not_elem_of_cons in Hv. destruct Hv as [Hu Hv].
    destruct (N.eqb_spec u comma) as [->|_]; [done |]. cbn [negb].
    f_equal. apply IH, Hv.
Qed.

Lemma split_comma_0_id (v : jsstring) :
  comma ∉ v -> split_comma_0 v = v.
Proof.
  unfold split_comma_0.
  induction v as [|u v IH]; intros Hv; cbn [take_while]; [reflexivity |].
  apply not_elem_of_cons in Hv. destruct Hv as [Hu Hv].
  destruct (N.eqb_spec u comma) as [->|_]; [done |]. cbn [negb].
  f_equal. apply IH, Hv.
Qed.

Lemma split_comma_0_no_comma (s : jsstring) : comma ∉ split_comma_0 s.
Proof.
  intros H. apply take_while_no in H. rewrite N.eqb_refl in H. discriminate.
Qed.

Lemma trim_sublist (s : jsstring) (u : N) : u ∈ trim s -> u ∈ s.
Proof.
  unfold trim. intros H.
  destruct (drop_end_while_prefix is_white_space
              (drop_while is_white_space s)) as [r1 H1].
  destruct (drop_while_suffix is_white_space s) as [r2 H2].
  rewrite H2, H1. rewrite !elem_of_app. auto.
Qed.

(** * Words *)

Lemma existsb_false_filter (p : N -> bool) (s : jsstring) :
  existsb p s = false -> filter (fun u => p u = true) s = [].
Proof.
  induction s as [|u s IH]; simpl; [reflexivity |].
  intros H. apply orb_false_elim in H. destruct H as [Hu Hs].
  rewrite filter_cons_False by congruence. apply IH, Hs.
Qed.

Lemma isValidWord_true_inv (word : jsstring) :
  isValidWord word = true ->
  (2 <= length word)%nat /\
  (length word
   <= 2 * length (filter (fun u => is_letter u = true) word))%nat.
Proof.
  unfold isValidWord.
  destruct (Nat.eqb_spec (length word) 0) as [H0|H0]; simpl;
    [discriminate |].
  destruct (Nat.ltb_spec (length word) 2) as [H2|H2]; simpl;
    [discriminate |].
  destruct (existsb is_letter word); simpl; [| discriminate].
  destruct (Nat.ltb_spec
              (length (filter (fun u => is_letter u = true) word)
               + (length (filter (fun u => is_letter u = true) word) + 0))
              (length word)) as [Hl|Hl]; [discriminate |].
  intros _. lia.
Qed.

(** X8: [isValidWord] accepts a string exactly when it has at least two
    code units and at least half of them are letters of [a-z] or [A-Z];
    the separate test for a letter in the source never decides. *)
Theorem valid_word_iff (word : jsstring) :
  isValidWord word = true <->
  (2 <= length word)%nat /\
  (length word
   <= 2 * length (filter (fun u => is_letter u = true) word))%nat.
Proof.
  unfold isValidWord.
  destruct (Nat.eqb_spec (length word) 0) as [H0|H0]; simpl.
  { split; [discriminate | lia]. }
  destruct (Nat.ltb_spec (length word) 2) as [H2|H2]; simpl.
  { split; [discriminate | lia]. }
  destruct (existsb is_letter word) eqn:Ex; simpl.
  - destruct (Nat.ltb_spec
                (length (filter (fun u => is_letter u = true) word)
                 + (length (filter (fun u => is_letter u = true) word) + 0))
                (length word)) as [Hl|Hl].
    + split; [discriminate | lia].
    + split; [intros _; lia | reflexivity].
  - rewrite (existsb_false_filter _ _ Ex). simpl.
    split; [discriminate | lia].
Qed.

Lemma ascii_lower_not_upper (u : N) :
  ~ (65 <= ascii_lower u <= 90)%N.
Proof.
  unfold ascii_lower.
  destruct (N.leb_spec 65 u), (N.leb_spec u 90); simpl; lia.
Qed.

Lemma ascii_lower_punctuation (u : N) :
  is_edge_punctuation (ascii_lower u) = is_edge_punctuation u.
Proof.
  unfold ascii_lower.
  destruct (N.leb_spec 65 u), (N.leb_spec u 90); simpl; try reflexivity.
  unfold is_edge_punctuation.
  rewrite !bool_decide_eq_false_2; [reflexivity | |];
    rewrite !elem_of_cons, elem_of_nil; lia.
Qed.

Lemma head_fmap_list {A B} (f : A -> B) (l : list A) :
  head (f <$> l) = f <$> head l.
Proof. destruct l; reflexivity. Qed.

Lemma trim_ascii (s : jsstring) : is_ascii s -> is_ascii (trim s).
Proof.
  intros H. unfold trim. apply drop_end_while_ascii, drop_while_ascii, H.
Qed.

(** X9: what the endpoint hands out, [words.map(cleanWord)
    .filter(isValidWord)].  Every word of the result has at least two code
    units, at least half of them letters, and is the cleaned form of a
    string of the answer: entries that are not strings are dropped.  When
    that string is ASCII (where lower-casing is known), the word holds no
    capital letter and neither starts nor ends with one of
    [. , : ; ! ?]. *)
Theorem cleaned_words_are_valid (toLowerCase : jsstring -> jsstring)
    (words : list json) (w : jsstring) :
  w ∈ clean_and_validate toLowerCase words ->
  (2 <= length w)%nat
  /\ (length w <= 2 * length (filter (fun u => is_letter u = true) w))%nat
  /\ exists s,
       JString s ∈ words /\ w = cleanWord toLowerCase (JString s)
       /\ (lowers_ascii toLowerCase -> is_ascii s ->
           Forall (fun u => ~ (65 <= u <= 90)%N) w
           /\ (forall u, head w = Some u -> is_edge_punctuation u = false)
           /\ (forall u, last w = Some u -> is_edge_punctuation u = false)).
Proof.
  intros Hin. unfold clean_and_validate in Hin.
  apply list_elem_of_filter in Hin. destruct Hin as [Hvalid Hin].
  apply list_elem_of_fmap in Hin. destruct Hin as (j & -> & Hj).
  pose proof (isValidWord_true_inv _ Hvalid) as [Hlen Hhalf].
  destruct j as [| | |s| |]; try (simpl in Hlen; lia).
  split; [exact Hlen |]. split; [exact Hhalf |].
  exists s. split; [exact Hj |]. split; [reflexivity |].
  intros Hlow Hascii. clear Hvalid Hlen Hhalf.
  unfold cleanWord.
  set (x := drop_end_while is_edge_punctuation
              (drop_while is_edge_punctuation (trim s))).
  assert (is_ascii x) as Hx.
  { apply drop_end_while_ascii, drop_while_ascii, trim_ascii, Hascii. }
  rewrite (Hlow x Hx).
  split; [| split].
  - apply Forall_fmap, Forall_forall. intros u _. apply ascii_lower_not_upper.
  - intros u Hu. rewrite head_fmap_list in Hu.
    destruct (head x) as [v|] eqn:Hv; [| discriminate Hu].
    injection Hu as <-. rewrite ascii_lower_punctuation.
    apply drop_end_while_head in Hv.
    eapply drop_while_head. exact Hv.
  - intros u Hu. rewrite fmap_last in Hu.
    destruct (last x) as [v|] eqn:Hv; [| discriminate Hu].
    injection Hu as <-. rewrite ascii_lower_punctuation.
    eapply drop_end_while_last. exact Hv.
Qed.

Lemma cleaned_words_are_valid_witness :
  (2 <= length (js "banana"))%nat
  /\ (length (js "banana")
      <= 2 * length (filter (fun u => is_letter u = true) (js "banana")))%nat
  /\ exists s,
       JString s ∈ demo_answer
       /\ js "banana" = cleanWord demo_toLowerCase (JString s)
       /\ (lowers_ascii demo_toLowerCase -> is_ascii s ->
           Forall (fun u => ~ (65 <= u <= 90)%N) (js "banana")
           /\ (forall u, head (js "banana") = Some u ->
                         is_edge_punctuation u = false)
           /\ (forall u, last (js "banana") = Some u ->
                         is_edge_punctuation u = false)).
Proof.
  apply (cleaned_words_are_valid demo_toLowerCase demo_answer (js "banana")).
  apply (bool_decide_unpack
           (js "banana" ∈ clean_and_validate demo_toLowerCase demo_answer)).
  vm_compute. exact I.
Defined.

(** * The key of a client *)

(** X10: the key under which a client is rate limited is never the empty
    string.  Of [x-forwarded-for] only the first entry counts: entries
    that proxies append behind a comma do not change the key.  When that
    first entry, trimmed, is not empty, it is the key, and the key holds
    no comma. *)
Theorem rate_limit_key_is_first_forwarded_entry (headers : request_headers)
    (v rest : jsstring) :
  comma ∉ v ->
  getRateLimitKey headers <> []
  /\ getRateLimitKey
       {| origin := origin headers;
          x_forwarded_for := Some (v ++ comma :: rest);
          x_real_ip := x_real_ip headers |}
     = getRateLimitKey
         {| origin := origin headers;
            x_forwarded_for := Some v;
            x_real_ip := x_real_ip headers |}
  /\ (trim v <> [] ->
      getRateLimitKey
        {| origin := origin headers;
           x_forwarded_for := Some (v ++ comma :: rest);
           x_real_ip := x_real_ip headers |} = trim v
      /\ comma ∉ trim v).
Proof.
  intros Hv. split; [| split].
  - unfold getRateLimitKey.
    destruct (x_forwarded_for headers) as [f|]; simpl.
    + destruct (trim (split_comma_0 f)) as [|a t]; simpl; [| done].
      destruct (x_real_ip headers) as [[|b r]|]; simpl; done.
    + destruct (x_real_ip headers) as [[|b r]|]; simpl; done.
  - unfold getRateLimitKey. simpl.
    rewrite split_comma_0_app, split_comma_0_id by exact Hv. reflexivity.
  - intros Hne. unfold getRateLimitKey. simpl.
    rewrite split_comma_0_app by exact Hv.
    split.
    + destruct (trim v) as [|a t]; [done | reflexivity].
    + intros Hc. apply Hv. apply trim_sublist. exact Hc.
Qed.

Lemma rate_limit_key_is_first_forwarded_entry_witness :
  getRateLimitKey demo_headers <> []
  /\ getRateLimitKey
       {| origin := origin demo_headers;
          x_forwarded_for :=
            Some (js " 203.0.113.7 " ++ comma :: js " 10.0.0.1");
          x_real_ip := x_real_ip demo_headers |}
     = getRateLimitKey
         {| origin := origin demo_headers;
            x_forwarded_for := Some (js " 203.0.113.7 ");
            x_real_ip := x_real_ip demo_headers |}
  /\ (trim (js " 203.0.113.7 ") <> [] ->
      getRateLimitKey
        {| origin := origin demo_headers;
           x_forwarded_for :=
             Some (js " 203.0.113.7 " ++ comma :: js " 10.0.0.1");
           x_real_ip := x_real_ip demo_headers |}
      = trim (js " 203.0.113.7 ")
      /\ comma ∉ trim (js " 203.0.113.7 ")).
Proof.
  apply (rate_limit_key_is_first_forwarded_entry demo_headers
           (js " 203.0.113.7 ") (js " 10.0.0.1")).
  apply (bool_decide_unpack (comma ∉ js " 203.0.113.7 ")).
  vm_compute. exact I.
Defined.

(** * The origin check *)

(** X11: [isOriginAllowed] accepts an origin exactly when it is a string
    that is not empty and either is an entry of the list or, for an entry
    of the form [*.d], ends with [d] and holds [://].  A missing origin is
    refused.  Nothing asks for a dot in front of [d]: with the entry
    [*.d], every origin [a://bd] is accepted, whatever [b] is. *)
Theorem origin_allowed_iff (ALLOWED_ORIGINS : list jsstring)
    (o : jsstring) (a b d : jsstring) :
  isOriginAllowed ALLOWED_ORIGINS None = false
  /\ (isOriginAllowed ALLOWED_ORIGINS (Some o) = true <->
      o <> [] /\
      (o ∈ ALLOWED_ORIGINS \/
       exists d', js "*." ++ d' ∈ ALLOWED_ORIGINS /\
                  (exists r, o = r ++ d') /\
                  (exists r1 r2, o = r1 ++ js "://" ++ r2)))
  /\ (js "*." ++ d ∈ ALLOWED_ORIGINS ->
      isOriginAllowed ALLOWED_ORIGINS (Some (a ++ js "://" ++ b ++ d))
      = true).
Proof.
  assert (Hiff : isOriginAllowed ALLOWED_ORIGINS (Some o) = true <->
      o <> [] /\
      (o ∈ ALLOWED_ORIGINS \/
       exists d', js "*." ++ d' ∈ ALLOWED_ORIGINS /\
                  (exists r, o = r ++ d') /\
                  (exists r1 r2, o = r1 ++ js "://" ++ r2))).
  { unfold isOriginAllowed. destruct o as [|u o]; [split; [discriminate | intros [H _]; done] |].
    rewrite existsb_exists. split.
    - intros (al & Hin & Hal). split; [done |].
      apply list_elem_of_In in Hin.
      destruct (bool_decide_reflect (al = u :: o)) as [->|Hne]; [left; exact Hin |].
      right. destruct (starts_with (js "*.") al) eqn:Hs; [| discriminate Hal].
      apply starts_with_spec in Hs. destruct Hs as [d' ->].
      apply andb_prop in Hal. destruct Hal as [He Hi].
      exists d'. split; [exact Hin |].
      split; [apply ends_with_spec in He; exact He |].
      apply includes_spec in Hi. exact Hi.
    - intros [_ [Hin|(d' & Hin & He & Hi)]].
      + exists (u :: o). split; [apply list_elem_of_In; exact Hin |].
        rewrite bool_decide_eq_true_2; reflexivity.
      + exists (js "*." ++ d'). split; [apply list_elem_of_In; exact Hin |].
        destruct (bool_decide (js "*." ++ d' = u :: o)); [reflexivity |].
        assert (starts_with (js "*.") (js "*." ++ d') = true) as ->
          by (apply starts_with_spec; eexists; reflexivity).
        apply andb_true_intro. split.
        * apply ends_with_spec. exact He.
        * apply includes_spec. exact Hi. }
  split; [reflexivity |]. split; [exact Hiff |].
  clear Hiff. intros Hin.
  assert (Hgen : forall o', o' <> [] ->
            (exists r, o' = r ++ d) -> (exists r1 r2, o' = r1 ++ js "://" ++ r2) ->
            isOriginAllowed ALLOWED_ORIGINS (Some o') = true).
  { intros o' Hne He Hi. unfold isOriginAllowed.
    destruct o' as [|u o']; [done |].
    rewrite existsb_exists. exists (js "*." ++ d).
    split; [apply list_elem_of_In; exact Hin |].
    destruct (bool_decide (js "*." ++ d = u :: o')); [reflexivity |].
    assert (starts_with (js "*.") (js "*." ++ d) = true) as ->
      by (apply starts_with_spec; eexists; reflexivity).
    apply andb_true_intro. split.
    - apply ends_with_spec. exact He.
    - apply includes_spec. exact Hi. }
  apply Hgen.
  - destruct a; discriminate.
  - exists (a ++ js "://" ++ b). rewrite <- !app_assoc. reflexivity.
  - exists a, (b ++ d). reflexivity.
Qed.

(** X12: with the default list of allowed origins, which has no entry
    that starts with [*.], an origin is accepted exactly when it is one of
    the three entries. *)
Theorem default_origins_are_exact (o : jsstring) :
  isOriginAllowed DEFAULT_ALLOWED_ORIGINS (Some o) = true
  <-> o ∈ DEFAULT_ALLOWED_ORIGINS.
Proof.
  split.
  - unfold isOriginAllowed. destruct o as [|u o]; [discriminate |].
    unfold DEFAULT_ALLOWED_ORIGINS. cbn [existsb].
    rewrite !elem_of_cons.
    destruct (bool_decide_reflect (js "http://localhost:3000" = u :: o))
      as [<-|_]; [auto |].
    destruct (bool_decide_reflect (js "http://localhost:5173" = u :: o))
      as [<-|_]; [auto |].
    destruct (bool_decide_reflect (js "http://127.0.0.1:3000" = u :: o))
      as [<-|_]; [auto |].
    vm_compute. discriminate.
  - intros Hin.
    unfold DEFAULT_ALLOWED_ORIGINS in Hin.
    rewrite !elem_of_cons, elem_of_nil in Hin.
    destruct Hin as [->|[->|[->|[]]]]; vm_compute; reflexivity.
Qed.

(** * The handler *)

Lemma isOriginAllowed_not_falsy (L : list jsstring) (o : option jsstring) :
  isOriginAllowed L o = true -> falsy o = false.
Proof. destruct o as [[|u o]|]; simpl; done. Qed.

(** The two ways through the handler: it answers before the limiter and
    leaves the map alone, or it consults the limiter, keeps the map the
    limiter returns and calls the model only if the limiter allows. *)
Lemma handler_cases (L : list jsstring) (env : environment) (req : request)
    (now : Z) (m : gmap jsstring (list Z)) :
  (reaches_limiter L req = false /\
   snd (handler L env req now m) = m /\
   is_model_call (fst (handler L env req now m)) = false /\
   outcome_headers (fst (handler L env req now m))
   = setCorsHeaders L (origin (headers req)))
  \/ (reaches_limiter L req = true /\
      snd (handler L env req now m)
      = snd (checkRateLimit (getRateLimitKey (headers req)) now m) /\
      (is_model_call (fst (handler L env req now m)) = true ->
       allowed (fst (checkRateLimit (getRateLimitKey (headers req)) now m))
       = true) /\
      exists r1 r2,
        outcome_headers (fst (handler L env req now m))
        = setCorsHeaders L (origin (headers req))
          ++ [("X-RateLimit-Limit"%string, HNumber (Num 10));
              ("X-RateLimit-Remaining"%string, HNumber r1);
              ("X-RateLimit-Reset"%string, HNumber r2)]).
Proof.
  unfold reaches_limiter, handler.
  destruct (String.eqb_spec (method req) "OPTIONS") as [Eo|_].
  { left. rewrite Eo. auto. }
  destruct (String.eqb_spec (method req) "POST") as [Ep|_]; simpl;
    [| left; auto].
  destruct (falsy (origin (headers req))) eqn:Ef; simpl; [left; auto |].
  destruct (isOriginAllowed L (origin (headers req))) eqn:Ea; simpl;
    [| left; auto].
  right. split; [reflexivity |].
  destruct (checkRateLimit (getRateLimitKey (headers req)) now m)
    as [r m1]. simpl.
  destruct (allowed r) eqn:Er; simpl.
  2:{ split; [reflexivity |]. split; [discriminate |]. eauto. }
  destruct (falsy (GOOGLE_GENERATIVE_AI_API_KEY env)
            && falsy (GEMINI_API_KEY env)); simpl.
  { split; [reflexivity |]. split; [reflexivity |]. eauto. }
  split; [reflexivity |]. split; [reflexivity |].
  unfold handle_body. repeat case_match; simpl; eauto.
Qed.

Lemma take_drop_while (p : N -> bool) (s : jsstring) :
  s = take_while p s ++ drop_while p s.
Proof.
  induction s as [|u s IH]; simpl; [reflexivity |].
  destruct (p u); simpl; [f_equal; exact IH | reflexivity].
Qed.

Lemma includes_comma_false (s : jsstring) :
  includes [comma] s = false -> comma ∉ s.
Proof.
  intros H Hin. apply list_elem_of_split in Hin.
  destruct Hin as (a & b & ->).
  assert (includes [comma] (a ++ comma :: b) = true) as E.
  { apply includes_spec. exists a, b. reflexivity. }
  congruence.
Qed.

Lemma drop_while_nil_or_head (p : N -> bool) (s : jsstring) :
  drop_while p s = []
  \/ exists u, head (drop_while p s) = Some u /\ p u = false.
Proof.
  induction s as [|u s IH]; simpl; [left; reflexivity |].
  destruct (p u) eqn:E; [exact IH |]. right. exists u. auto.
Qed.

Lemma split_comma_1_spec (s data : jsstring) :
  split_comma_1 s = Some data ->
  exists pre rest,
    s = pre ++ comma :: data ++ rest /\ (comma ∉ pre) /\ (comma ∉ data)
    /\ (rest = [] \/ head rest = Some comma).
Proof.
  unfold split_comma_1. intros H.
  pose proof (take_drop_while (fun u => negb (u =? comma)%N) s) as Hs.
  destruct (drop_while (fun u => negb (u =? comma)%N) s) as [|c rest] eqn:Ed;
    [discriminate |].
  injection H as <-.
  assert (c = comma) as ->.
  { assert (head (drop_while (fun u => negb (u =? comma)%N) s) = Some c) as Hh
      by (rewrite Ed; reflexivity).
    apply drop_while_head in Hh. apply negb_false_iff, N.eqb_eq in Hh.
    exact Hh. }
  exists (take_while (fun u => negb (u =? comma)%N) s),
         (drop_while (fun u => negb (u =? comma)%N) rest).
  split; [| split; [| split]].
  - rewrite Hs at 1. f_equal. f_equal. apply take_drop_while.
  - apply split_comma_0_no_comma.
  - apply split_comma_0_no_comma.
  - destruct (drop_while_nil_or_head (fun u => negb (u =? comma)%N) rest)
      as [E|(u & Hu & Hp)]; [left; exact E | right].
    apply negb_false_iff, N.eqb_eq in Hp. subst u. exact Hu.
Qed.

(** X13: the handler goes on to call the model only for a [POST] whose
    origin is allowed, that the rate limiter lets through, on a server with
    an API key, and whose body is an object with a property [imageData].
    What it passes on as the image is one of three things.  For a string
    without a comma, the string itself, which is not empty.  For a string
    with a comma, the part of it between its first comma and its second
    (or its end), which is not empty.  For an array none of whose elements
    is the string [","], the array itself: the handler does not check that
    the image is a string. *)
Theorem model_call_requirements (L : list jsstring) (env : environment)
    (req : request) (now : Z) (m : gmap jsstring (list Z))
    (hs : list (string * header_value)) (data : json) :
  fst (handler L env req now m) = CallModel hs data ->
  method req = "POST"%string
  /\ isOriginAllowed L (origin (headers req)) = true
  /\ allowed (fst (checkRateLimit (getRateLimitKey (headers req)) now m))
     = true
  /\ (falsy (GOOGLE_GENERATIVE_AI_API_KEY env) = false
      \/ falsy (GEMINI_API_KEY env) = false)
  /\ exists properties imageData,
       body req = Some (JObject properties)
       /\ get_property (js "imageData") properties = Some imageData
       /\ ((exists image,
              imageData = JString image /\ (comma ∉ image) /\ image <> []
              /\ data = JString image)
           \/ (exists pre part rest,
                 imageData = JString (pre ++ comma :: part ++ rest)
                 /\ (comma ∉ pre) /\ (comma ∉ part)
                 /\ (rest = [] \/ head rest = Some comma)
                 /\ part <> [] /\ data = JString part)
           \/ (exists items,
                 imageData = JArray items /\ (JString [comma] ∉ items)
                 /\ data = JArray items)).
Proof.
  unfold handler.
  destruct (String.eqb_spec (method req) "OPTIONS") as [Eo|_];
    [discriminate |].
  destruct (String.eqb_spec (method req) "POST") as [Ep|_]; simpl;
    [| discriminate].
  destruct (falsy (origin (headers req))) eqn:Ef; simpl; [discriminate |].
  destruct (isOriginAllowed L (origin (headers req))) eqn:Ea; simpl;
    [| discriminate].
  destruct (checkRateLimit (getRateLimitKey (headers req)) now m)
    as [r m1]. simpl.
  destruct (allowed r) eqn:Er; simpl; [| discriminate].
  destruct (falsy (GOOGLE_GENERATIVE_AI_API_KEY env)
            && falsy (GEMINI_API_KEY env)) eqn:Ek; simpl.
  { discriminate. }
  apply andb_false_iff in Ek. rename Ek into Hkey. intros H.
  split; [exact Ep |]. split; [reflexivity |]. split; [reflexivity |].
  split; [exact Hkey |].
  unfold handle_body, read_imageData in H.
  destruct (body req) as [[| | | | |properties]|] eqn:Eb;
    try discriminate H.
  destruct (get_property (js "imageData") properties) as [imageData|] eqn:Eg;
    [| discriminate H].
  exists properties, imageData. split; [reflexivity |].
  split; [exact Eg |].
  destruct (json_falsy imageData) eqn:Efalse; [discriminate H |].
  destruct imageData as [| | |image|items|]; simpl in H;
    try discriminate H.
  - destruct (includes [comma] image) eqn:Ec.
    + destruct (split_comma_1 image) as [part|] eqn:Es; simpl in H;
        [| discriminate H].
      destruct part as [|u part]; simpl in H; [discriminate H |].
      injection H as _ <-.
      destruct (split_comma_1_spec _ _ Es) as (pre & rest & Hi & Hp & Hd & Hr).
      right. left. exists pre, (u :: part), rest.
      rewrite Hi. repeat split; auto.
    + destruct image as [|u image]; simpl in H; [discriminate H |].
      injection H as _ <-.
      left. exists (u :: image).
      repeat split; auto using includes_comma_false.
  - destruct (existsb _ items) eqn:Ee; simpl in H; [discriminate H |].
    injection H as _ <-.
    right. right. exists items. repeat split; auto.
    intros Hin.
    assert (existsb (fun item => match item with
                                 | JString s => bool_decide (s = [comma])
                                 | _ => false
                                 end) items = true) as Et.
    { apply existsb_exists. exists (JString [comma]). split.
      - apply list_elem_of_In. exact Hin.
      - apply bool_decide_eq_true_2. reflexivity. }
    congruence.
Qed.

Lemma model_call_requirements_witness :
  method demo_request = "POST"%string
  /\ isOriginAllowed DEFAULT_ALLOWED_ORIGINS (origin (headers demo_request))
     = true
  /\ allowed (fst (checkRateLimit (getRateLimitKey (headers demo_request))
                     5 ∅))
     = true
  /\ (falsy (GOOGLE_GENERATIVE_AI_API_KEY demo_env) = false
      \/ falsy (GEMINI_API_KEY demo_env) = false)
  /\ exists properties imageData,
       body demo_request = Some (JObject properties)
       /\ get_property (js "imageData") properties = Some imageData
       /\ ((exists image,
              imageData = JString image /\ (comma ∉ image) /\ image <> []
              /\ JString (js "iVBORw0KGgo=") = JString image)
           \/ (exists pre part rest,
                 imageData = JString (pre ++ comma :: part ++ rest)
                 /\ (comma ∉ pre) /\ (comma ∉ part)
                 /\ (rest = [] \/ head rest = Some comma)
                 /\ part <> [] /\ JString (js "iVBORw0KGgo=") = JString part)
           \/ (exists items,
                 imageData = JArray items /\ (JString [comma] ∉ items)
                 /\ JString (js "iVBORw0KGgo=") = JArray items)).
Proof.
  apply (model_call_requirements DEFAULT_ALLOWED_ORIGINS demo_env
           demo_request 5 ∅
           (outcome_headers
              (fst (handler DEFAULT_ALLOWED_ORIGINS demo_env demo_request
                      5 ∅)))
           (JString (js "iVBORw0KGgo="))).
  vm_compute. reflexivity.
Defined.

(** Bodies whose [imageData] is not a string, for the sample request: an
    array without the element [","] reaches the model as it is, a number
    makes the handler throw, and so does a request without a body. *)
Example images_that_are_not_strings :
  let send body :=
    fst (handler DEFAULT_ALLOWED_ORIGINS demo_env
           (mkRequest "POST" demo_headers body) 5 ∅) in
  (exists hs,
     send (Some (JObject [(js "imageData", JArray [JString (js "a,b")])]))
     = CallModel hs (JArray [JString (js "a,b")]))
  /\ (exists hs,
        send (Some (JObject [(js "imageData", JNumber 7)]))
        = ThrowTypeError hs)
  /\ (exists hs, send None = ThrowTypeError hs).
Proof. cbv zeta. repeat split; eexists; vm_compute; reflexivity. Qed.

(** X14: whether the handler consults the rate limiter depends on the
    method and the origin alone.  A [POST] from an allowed origin spends
    one request of its client key even when it is then answered with 400
    or 500: the map it leaves is the one [checkRateLimit] returns, whatever
    the body and the API keys are.  Every other request leaves the map as
    it is. *)
Theorem quota_is_spent_before_validation (L : list jsstring)
    (env env' : environment) (req : request) (body' : option json)
    (now : Z) (m : gmap jsstring (list Z)) :
  snd (handler L env req now m)
  = (if reaches_limiter L req
     then snd (checkRateLimit (getRateLimitKey (headers req)) now m)
     else m)
  /\ snd (handler L env' (mkRequest (method req) (headers req) body') now m)
     = snd (handler L env req now m).
Proof.
  assert (H : forall e r,
            snd (handler L e r now m)
            = (if reaches_limiter L r
               then snd (checkRateLimit (getRateLimitKey (headers r)) now m)
               else m)).
  { intros e r.
    destruct (handler_cases L e r now m) as [(-> & E & _)|(-> & E & _)];
      exact E. }
  split; [apply H |]. rewrite !H. reflexivity.
Qed.

(** X15: the handler sets [Access-Control-Allow-Origin] exactly when the
    origin of the request is allowed, and then to that origin: it never
    echoes an origin that is not allowed, on any of its answers. *)
Theorem cors_origin_only_when_allowed (L : list jsstring)
    (env : environment) (req : request) (now : Z)
    (m : gmap jsstring (list Z)) (v : header_value) :
  ("Access-Control-Allow-Origin"%string, v)
    ∈ outcome_headers (fst (handler L env req now m))
  <-> exists o, origin (headers req) = Some o
                /\ isOriginAllowed L (Some o) = true
                /\ v = HOrigin o.
Proof.
  assert (Hcors : ("Access-Control-Allow-Origin"%string, v)
                    ∈ setCorsHeaders L (origin (headers req))
                  <-> exists o, origin (headers req) = Some o
                                /\ isOriginAllowed L (Some o) = true
                                /\ v = HOrigin o).
  { unfold setCorsHeaders. rewrite elem_of_app.
    destruct (origin (headers req)) as [o|] eqn:Eo.
    - destruct (isOriginAllowed L (Some o)) eqn:Ea.
      + rewrite (isOriginAllowed_not_falsy _ _ Ea). cbn [negb andb].
        rewrite !elem_of_cons, elem_of_nil. split.
        * intros [[[= ->]|[]]|[H|[H|[H|[H|[]]]]]]; try discriminate H.
          exists o. auto.
        * intros (o' & [= <-] & _ & ->). left. left. reflexivity.
      + rewrite andb_false_r. cbv iota.
        rewrite !elem_of_cons, elem_of_nil. split.
        * intros [[]|[H|[H|[H|[H|[]]]]]]; discriminate H.
        * intros (o' & [= <-] & Ha & _). congruence.
    - rewrite !elem_of_cons, elem_of_nil. split.
      + intros [[]|[H|[H|[H|[H|[]]]]]]; discriminate H.
      + intros (o' & Ho & _). discriminate Ho. }
  rewrite <- Hcors.
  destruct (handler_cases L env req now m)
    as [(_ & _ & _ & ->)|(_ & _ & _ & r1 & r2 & ->)]; [reflexivity |].
  rewrite elem_of_app, !elem_of_cons, elem_of_nil. split; [| auto].
  intros [H|[H|[H|[H|[]]]]]; [exact H | discriminate H ..].
Qed.

Lemma times_monotone_weaken (T T' : Z) (reqs : list (request * Z)) :
  T' <= T -> times_monotone T reqs = true -> times_monotone T' reqs = true.
Proof.
  destruct reqs as [|[req now] rest]; [reflexivity |]. simpl.
  intros HT H. apply andb_prop in H. destruct H as [H1 H2].
  apply Z.leb_le in H1. rewrite H2, andb_true_r. apply Z.leb_le. lia.
Qed.

Lemma handle_all_cons (L : list jsstring) (env : environment)
    (req : request) (now : Z) (rest : list (request * Z))
    (m : gmap jsstring (list Z)) :
  handle_all L env ((req, now) :: rest) m
  = (fst (handler L env req now m)
       :: fst (handle_all L env rest (snd (handler L env req now m))),
     snd (handle_all L env rest (snd (handler L env req now m)))).
Proof.
  simpl. destruct (handler L env req now m) as [o m1]. simpl.
  destruct (handle_all L env rest m1). reflexivity.
Qed.

Lemma handle_all_tracks (L : list jsstring) (env : environment)
    (reqs : list (request * Z)) (T : Z) (m : gmap jsstring (list Z))
    (A : jsstring -> list Z) (ip : jsstring) (Tw : Z) :
  tracks T m A -> times_monotone T reqs = true ->
  Z.of_nat (length (in_window Tw (A ip)))
  + model_calls_in_window ip Tw reqs (fst (handle_all L env reqs m))
  <= MAX_REQUESTS_PER_WINDOW.
Proof.
  revert T m A.
  induction reqs as [|[req now] rest IH]; intros T m A Ht Hclock.
  - simpl. destruct Ht as (_ & _ & _ & Hwin). specialize (Hwin ip Tw). lia.
  - simpl in Hclock. apply andb_prop in Hclock. destruct Hclock as [HT Hrest].
    apply Z.leb_le in HT.
    rewrite handle_all_cons. cbn [model_calls_in_window fst snd].
    destruct (handler_cases L env req now m)
      as [(_ & Em & Ec & _)|(_ & Em & Ec & _)]; rewrite Em.
    + rewrite Ec, andb_false_r. simpl.
      apply (IH T m A Ht). apply (times_monotone_weaken now); assumption.
    + pose proof (checkRateLimit_tracks (getRateLimitKey (headers req))
                    now T m A Ht HT) as Ht1.
      specialize (IH now _ _ Ht1 Hrest).
      etrans; [| exact IH]. unfold note_allowed.
      destruct (bool_decide (getRateLimitKey (headers req) = ip)) eqn:Eip;
        simpl.
      * apply bool_decide_eq_true_1 in Eip. rewrite <- Eip.
        rewrite bool_decide_eq_true_2 by reflexivity. simpl.
        destruct (is_model_call (fst (handler L env req now m))) eqn:Ecall;
          simpl.
        -- rewrite (Ec eq_refl). rewrite in_window_snoc, length_app.
           destruct ((Tw - RATE_LIMIT_WINDOW_MS <? now) && (now <=? Tw));
             simpl; lia.
        -- destruct (allowed _); [| lia].
           rewrite in_window_snoc, length_app. lia.
      * apply bool_decide_eq_false_1 in Eip.
        rewrite (bool_decide_eq_false_2 (ip = _)) by congruence. simpl. lia.
Qed.

(** X16: whatever requests come in, as long as the clock of the server
    does not run backwards: of the requests that share a client key, at
    most ten within any minute get as far as the call of the model. *)
Theorem at_most_ten_model_calls_per_window (L : list jsstring)
    (env : environment) (reqs : list (request * Z)) (T0 : Z)
    (ip : jsstring) (T : Z) :
  times_monotone T0 reqs = true ->
  model_calls_in_window ip T reqs (fst (handle_all L env reqs ∅))
  <= MAX_REQUESTS_PER_WINDOW.
Proof.
  intros Hclock.
  pose proof (handle_all_tracks L env reqs T0 ∅ (fun _ => []) ip T
                (tracks_empty T0) Hclock) as H.
  change (in_window T []) with (@nil Z) in H. simpl length in H. lia.
Qed.

Lemma at_most_ten_model_calls_per_window_witness :
  model_calls_in_window (js "203.0.113.7") 20
    ((fun t => (demo_request, t)) <$> [1; 2; 3; 4; 5; 6; 7; 8; 9; 10; 11; 12])
    (fst (handle_all DEFAULT_ALLOWED_ORIGINS demo_env
            ((fun t => (demo_request, t))
               <$> [1; 2; 3; 4; 5; 6; 7; 8; 9; 10; 11; 12]) ∅))
  <= MAX_REQUESTS_PER_WINDOW.
Proof.
  apply (at_most_ten_model_calls_per_window DEFAULT_ALLOWED_ORIGINS demo_env
           ((fun t => (demo_request, t))
              <$> [1; 2; 3; 4; 5; 6; 7; 8; 9; 10; 11; 12])
           0 (js "203.0.113.7") 20).
  reflexivity.
Defined.

(** * The callers of the scheduler *)

Lemma showView_fields (page : browser) (v : view) (app : App) :
  extractedWords (snd (showView page v app)) = extractedWords app
  /\ practiceSession (snd (showView page v app)) = practiceSession app
  /\ forall e, Uncaught e ∉ fst (showView page v app).
Proof.
  unfold showView, when_element.
  split; [| split].
  - destruct (has_element page (view_id v)); reflexivity.
  - destruct (has_element page (view_id v)); reflexivity.
  - intros e.
    destruct (has_element page (view_id Camera)),
      (has_element page (view_id Processing)),
      (has_element page (view_id Confirmation)),
      (has_element page (view_id Practice)),
      (has_element page (view_id v)); simpl;
      rewrite ?elem_of_cons, elem_of_nil; intros H;
      repeat (destruct H as [H|H]; [discriminate H |]); exact H.
Qed.

Lemma updateWordCounter_no_throw (page : browser) (app : App) (c : nat) :
  snd (updateWordCounter page app c) = c
  /\ forall e, Uncaught e ∉ fst (updateWordCounter page app c).
Proof.
  unfold updateWordCounter.
  destruct (practiceSession app) as [s|];
    [destruct (has_element page "word-counter"%string) |];
    simpl; (split; [reflexivity |]); intros e;
    rewrite ?elem_of_cons, elem_of_nil; intros H;
    repeat (destruct H as [H|H]; [discriminate H |]); exact H.
Qed.








(** X17: [startPractice()] never runs into the error of the constructor:
    no exception leaves it.  With no extracted words it shows "No words
    available for practice" and leaves the application as it is; with
    words, and the practice script loaded, it holds afterwards a session
    over exactly the extracted words, with no word spoken and no current
    word. *)
Theorem start_practice_never_throws (tape : nat -> Q) (page : browser)
    (app : App) (c : nat) :
  (forall e, Uncaught e ∉ fst (fst (startPractice tape page app c)))
  /\ (extractedWords app = [] ->
      startPractice tape page app c
      = ((showError "No words available for practice", app), c))
  /\ (extractedWords app <> [] -> practice_script page = true ->
      exists session,
        practiceSession (snd (fst (startPractice tape page app c)))
        = Some session /\
        allWords session = extractedWords app /\
        wordsSpoken session = 0 /\
        currentWord session = Null /\
        extractedWords (snd (fst (startPractice tape page app c)))
        = extractedWords app).
Proof.
  unfold startPractice.
  destruct (extractedWords app) as [|x ws] eqn:Ew.
  - split; [| split].
    + intros e. simpl. unfold ret, showError. simpl.
      rewrite elem_of_cons, elem_of_nil. intros [H|[]]. discriminate H.
    + reflexivity.
    + done.
  - change (arr_length (x :: ws) =? 0) with false. cbv iota.
    destruct (practice_script page).
    + unfold bind. rewrite new_PracticeSession_ok by done.
      set (s := {| allWords := x :: ws;
                   remainingWords := fst (shuffle tape (x :: ws) c);
                   wordsSpoken := 0; currentWord := Null |}).
      set (app1 := {| currentView := currentView app;
                      extractedWords := x :: ws;
                      practiceSession := Some s |}).
      pose proof (updateWordCounter_no_throw page app1
                    (snd (shuffle tape (x :: ws) c))) as [_ Hc].
      pose proof (showView_fields page Practice app1) as (Hs1 & Hs2 & Hs3).
      destruct (updateWordCounter page app1 (snd (shuffle tape (x :: ws) c)))
        as [counter c1].
      destruct (showView page Practice app1) as [shown app2].
      simpl in *. split; [| split].
      * intros e. rewrite !elem_of_app. unfold when_element.
        intros [H|[H|[H|H]]].
        -- exact (Hc e H).
        -- exact (Hs3 e H).
        -- destruct (has_element page "repeat-word-btn"%string);
             [| inversion H].
           apply elem_of_cons in H. destruct H as [H|H];
             [discriminate H | inversion H].
        -- destruct (has_element page "practice-message"%string);
             [| inversion H].
           apply elem_of_cons in H. destruct H as [H|H];
             [discriminate H | inversion H].
      * discriminate.
      * intros _ _. exists s. auto.
    + split; [| split].
      * intros e. simpl. unfold ret, showError. simpl.
        rewrite elem_of_cons, elem_of_nil. intros [H|[]]. discriminate H.
      * discriminate.
      * discriminate.
Qed.





(** X20: after [newSheet()] (or [retakePicture()]) the application holds
    no words and no session: [speakNextWord()] and [repeatWord()] do
    nothing at all, and [startPractice()] only shows "No words available
    for practice". *)
Theorem new_sheet_disables_practice (tape : nat -> Q) (page : browser)
    (app : App) (c : nat) :
  let app' := snd (newSheet page app) in
  extractedWords app' = []
  /\ practiceSession app' = None
  /\ speakNextWord tape page app' c = (([], app'), c)
  /\ repeatWord page app' c = (([], app'), c)
  /\ startPractice tape page app' c
     = ((showError "No words available for practice", app'), c).
Proof.
  unfold newSheet, retakePicture.
  pose proof (showView_fields page Camera
                {| currentView := currentView app; extractedWords := [];
                   practiceSession := None |}) as (H1 & H2 & _).
  destruct (showView page Camera _) as [shown app2]. simpl in *.
  unfold speakNextWord, repeatWord, startPractice.
  rewrite H1, H2. auto.
Qed.



(** * The choice of a voice *)

Lemma find_english_best (toLowerCase : jsstring -> jsstring)
    (voices : list voice) (v : voice) :
  sorted_by_compare toLowerCase voices ->
  find_english voices = Some v ->
  is_english v = true /\ v ∈ voices /\
  forall v', v' ∈ voices -> is_english v' = true ->
    getVoiceQualityScore toLowerCase v'
    <= getVoiceQualityScore toLowerCase v.
Proof.
  induction voices as [|a l IH]; simpl; [discriminate |].
  intros [Ha Hl]. specialize (IH Hl).
  destruct (is_english a) eqn:Ea.
  - intros [= <-]. split; [exact Ea |]. split; [left |].
    intros v' Hin Hv'. apply elem_of_cons in Hin.
    destruct Hin as [->|Hin]; [lia |].
    rewrite Forall_forall in Ha. specialize (Ha v' Hin).
    unfold compare_voices in Ha. rewrite Ea, Hv' in Ha. simpl in Ha. lia.
  - intros E. destruct (IH E) as (H1 & H2 & H3).
    split; [exact H1 |]. split; [right; exact H2 |].
    intros v' Hin Hv'. apply elem_of_cons in Hin.
    destruct Hin as [->|Hin]; [congruence |]. apply H3; assumption.
Qed.

Lemma find_english_none (voices : list voice) :
  find_english voices = None ->
  forall v, v ∈ voices -> is_english v = false.
Proof.
  induction voices as [|a l IH]; simpl; intros E v Hin;
    [inversion Hin |].
  destruct (is_english a) eqn:Ea; [discriminate |].
  apply elem_of_cons in Hin. destruct Hin as [->|Hin]; [exact Ea |].
  apply IH; assumption.
Qed.

(** X21: on the array of voices as [loadVoices()] leaves it, sorted by its
    comparison, [selectBestVoice()] answers [null] only when there is no
    voice.  When there is an English voice it answers an English voice
    whose quality score no English voice exceeds; when there is none it
    answers a voice whose score no voice exceeds. *)
Theorem best_voice_is_best (toLowerCase : jsstring -> jsstring)
    (voices : list voice) :
  sorted_by_compare toLowerCase voices ->
  (selectBestVoice voices = None <-> voices = [])
  /\ forall v, selectBestVoice voices = Some v ->
       v ∈ voices
       /\ (is_english v = true <->
           exists v', v' ∈ voices /\ is_english v' = true)
       /\ forall v', v' ∈ voices -> is_english v' = is_english v ->
            getVoiceQualityScore toLowerCase v'
            <= getVoiceQualityScore toLowerCase v.
Proof.
  intros Hs. unfold selectBestVoice.
  destruct (find_english voices) as [b|] eqn:Ef.
  - destruct (find_english_best toLowerCase voices b Hs Ef)
      as (Hb & Hin & Hbest).
    split.
    + split; [discriminate |]. intros ->. inversion Hin.
    + intros v [= <-]. split; [exact Hin |]. split.
      * split; [intros _; exists b; auto | intros _; exact Hb].
      * intros v' Hv' Heq. apply Hbest; [exact Hv' | congruence].
  - pose proof (find_english_none voices Ef) as Hnone.
    destruct voices as [|a l]; simpl.
    + split; [split; reflexivity | discriminate].
    + split; [split; discriminate |].
      intros v [= <-]. split; [left |]. split.
      * split.
        -- intros Ha. rewrite (Hnone a) in Ha by left. discriminate.
        -- intros (v' & Hv' & He). rewrite (Hnone v' Hv') in He.
           discriminate.
      * intros v' Hv' _. apply elem_of_cons in Hv'.
        destruct Hv' as [->|Hv']; [lia |].
        destruct Hs as [Ha _]. rewrite Forall_forall in Ha.
        specialize (Ha v' Hv'). unfold compare_voices in Ha.
        rewrite (Hnone a), (Hnone v') in Ha by (left || (right; exact Hv')).
        simpl in Ha. lia.
Qed.

Lemma demo_voices_sorted : sorted_by_compare demo_toLowerCase demo_voices.
Proof.
  unfold demo_voices. simpl.
  repeat split;
    repeat (apply Forall_cons; split; [vm_compute; discriminate |]);
    apply Forall_nil; exact I.
Qed.

Lemma best_voice_is_best_witness :
  (selectBestVoice demo_voices = None <-> demo_voices = [])
  /\ forall v, selectBestVoice demo_voices = Some v ->
       v ∈ demo_voices
       /\ (is_english v = true <->
           exists v', v' ∈ demo_voices /\ is_english v' = true)
       /\ forall v', v' ∈ demo_voices -> is_english v' = is_english v ->
            getVoiceQualityScore demo_toLowerCase v'
            <= getVoiceQualityScore demo_toLowerCase v.
Proof.
  apply (best_voice_is_best demo_toLowerCase demo_voices).
  exact demo_voices_sorted.
Defined.
